(** * Interest-rate derivatives pricing: short-rate model, pricers, hedging

    A shallow embedding of the Python sources
    - [models/interest_rate/cir.py]         (class [CIR]),
    - [models/derivatives/option_pricing.py] (classes [CapFloorPricer],
      [SwaptionPricer]),
    - [arbitrage/bond_pricing.py]            (class [BondPricer]),
    - [hedging/simulation.py]                (class [HedgingSimulator]),
    - [instruments/caps_floors.py]           (classes [Cap], [Floor],
      [Collar]),
    - [instruments/swaptions.py]             (class [Swaption]),
    - [arbitrage/opportunities.py]           (class [ArbitrageAnalyzer]),
    followed by the properties established about them.

    Conventions.  A finite Python/NumPy float is a real number: rounding
    and overflow are not modelled, and signed zeros are identified.  The
    non-finite values that NumPy produces silently ([nan], [inf], [-inf])
    are kept, because several functions of the sources reach them.  Python
    exceptions are values of an error monad.  Objects whose fields are
    assigned after construction (the rate model held by the hedging
    simulator, NumPy's global random generator) are threaded as explicit
    state. *)

From Stdlib Require Import Reals Lra Lia ZArith List Bool Sorted Permutation.
From Stdlib Require String.
Import ListNotations.
Local Open Scope R_scope.

(* ================================================================= *)
(** * Python values *)

(** ** Exceptions *)

Inductive exn : Type :=
| ValueError          (* raised by the sources and by NumPy *)
| ZeroDivisionError   (* Python's [/] on a zero divisor *)
| IndexError.         (* an index outside an array *)

(** The outcome of a call: a value, an exception, or [OutOfFuel] when the
    loop bound given to the model was too small for a [while] loop of
    the source (no Python behaviour corresponds to it). *)
Inductive result (A : Type) : Type :=
| Ok (a : A)
| Raise (e : exn)
| OutOfFuel.
Arguments Ok {A} a.
Arguments Raise {A} e.
Arguments OutOfFuel {A}.

Definition bind {A B : Type} (c : result A) (k : A -> result B) : result B :=
  match c with
  | Ok a => k a
  | Raise e => Raise e
  | OutOfFuel => OutOfFuel
  end.

Notation "x <- c ;; k" := (bind c (fun x => k))
  (at level 61, c at next level, right associativity).

Definition returns {A : Type} (c : result A) : Prop := exists a, c = Ok a.
Definition raises {A : Type} (c : result A) : Prop := exists e, c = Raise e.

(** ** NumPy [float64] scalars *)

Inductive npfloat : Type :=
| Fin (x : R)
| PInf
| NInf
| NaN.

(** [inf_times pos x] is [inf * x] when [pos], [-inf * x] otherwise. *)
Definition inf_times (pos : bool) (x : R) : npfloat :=
  if Rlt_dec 0 x then (if pos then PInf else NInf)
  else if Rlt_dec x 0 then (if pos then NInf else PInf)
  else NaN.

Definition np_neg (a : npfloat) : npfloat :=
  match a with
  | Fin x => Fin (- x)
  | PInf => NInf
  | NInf => PInf
  | NaN => NaN
  end.

Definition np_add (a b : npfloat) : npfloat :=
  match a, b with
  | NaN, _ | _, NaN => NaN
  | Fin x, Fin y => Fin (x + y)
  | PInf, NInf | NInf, PInf => NaN
  | PInf, _ | _, PInf => PInf
  | NInf, _ | _, NInf => NInf
  end.

Definition np_sub (a b : npfloat) : npfloat := np_add a (np_neg b).

Definition np_mul (a b : npfloat) : npfloat :=
  match a, b with
  | NaN, _ | _, NaN => NaN
  | Fin x, Fin y => Fin (x * y)
  | PInf, Fin y | Fin y, PInf => inf_times true y
  | NInf, Fin y | Fin y, NInf => inf_times false y
  | PInf, PInf | NInf, NInf => PInf
  | PInf, NInf | NInf, PInf => NInf
  end.

(** NumPy division does not raise: [x / 0] is [inf], [-inf] or [nan]
    (with a warning only). *)
Definition np_div (a b : npfloat) : npfloat :=
  match a, b with
  | NaN, _ | _, NaN => NaN
  | Fin x, Fin y => if Req_dec_T y 0 then inf_times true x else Fin (x / y)
  | Fin _, PInf | Fin _, NInf => Fin 0
  | PInf, Fin y => if Rlt_dec y 0 then NInf else PInf
  | NInf, Fin y => if Rlt_dec y 0 then PInf else NInf
  | PInf, PInf | PInf, NInf | NInf, PInf | NInf, NInf => NaN
  end.

(** [np.log]: [nan] below zero and [-inf] at zero, with a warning only. *)
Definition np_log (a : npfloat) : npfloat :=
  match a with
  | Fin x => if Rlt_dec 0 x then Fin (ln x)
             else if Rlt_dec x 0 then NaN else NInf
  | PInf => PInf
  | NInf => NaN
  | NaN => NaN
  end.

Definition np_sqrt (a : npfloat) : npfloat :=
  match a with
  | Fin x => if Rlt_dec x 0 then NaN else Fin (sqrt x)
  | PInf => PInf
  | NInf => NaN
  | NaN => NaN
  end.

Declare Scope np_scope.
Delimit Scope np_scope with np.
Infix "+" := np_add : np_scope.
Infix "-" := np_sub : np_scope.
Infix "*" := np_mul : np_scope.
Infix "/" := np_div : np_scope.
Notation "- a" := (np_neg a) : np_scope.

(** ** Python floats and NumPy scalars side by side

    The two kinds of scalar differ in one operation the sources use:
    Python's [/] raises [ZeroDivisionError] when both operands are Python
    floats and the divisor is zero, while a NumPy operand makes the
    division a NumPy one. *)

Inductive pynum : Type :=
| PyFloat (v : npfloat)
| NpFloat64 (v : npfloat).

Definition num_val (a : pynum) : npfloat :=
  match a with PyFloat v | NpFloat64 v => v end.

Coercion num_val : pynum >-> npfloat.

Definition is_zero (a : npfloat) : bool :=
  match a with
  | Fin x => if Req_dec_T x 0 then true else false
  | _ => false
  end.

Definition true_div (a b : pynum) : result npfloat :=
  match a, b with
  | PyFloat x, PyFloat y =>
      if is_zero y then Raise ZeroDivisionError else Ok (x / y)%np
  | _, _ => Ok (num_val a / num_val b)%np
  end.

(** Python's built-in [max(a, b)]: the first argument unless the second
    is strictly greater. *)
Definition py_max (a b : R) : R := if Rlt_dec a b then b else a.

(* ================================================================= *)
(** * Library functions *)

(** ** [scipy.stats.norm.cdf]

    The standard normal distribution function, as the integral of its
    density from the origin, shifted by one half. *)

Definition gauss_density (t : R) : R := exp (- (t * t) / 2) / sqrt (2 * PI).

Definition gauss_integrable (a b : R) : Riemann_integrable gauss_density a b.
Proof.
  assert (C : forall x, continuity_pt gauss_density x).
  { intro x. apply derivable_continuous_pt. unfold gauss_density. reg. }
  destruct (Rle_dec a b) as [Hab | Hab].
  - apply continuity_implies_RiemannInt; [exact Hab | intros; apply C].
  - apply RiemannInt_P1, continuity_implies_RiemannInt; [lra | intros; apply C].
Qed.

Definition gauss_area (a b : R) : R := RiemannInt (gauss_integrable a b).

Definition Phi (x : R) : R := 1 / 2 + gauss_area 0 x.

Definition norm_cdf (a : npfloat) : npfloat :=
  match a with
  | Fin x => Fin (Phi x)
  | PInf => Fin 1
  | NInf => Fin 0
  | NaN => NaN
  end.

(** ** [numpy.arange(start, stop, step)]

    [ceil((stop - start) / step)] values [start + i * step]; the length
    is computed with Python's division, which raises on a zero step. *)

Definition ceilR (x : R) : Z := (1 - up (- x))%Z.

Definition np_arange (start stop step : R) : result (list R) :=
  if Req_dec_T step 0 then Raise ZeroDivisionError
  else Ok (map (fun i => start + INR i * step)
               (seq 0 (Z.to_nat (ceilR ((stop - start) / step))))).

(** The guard the sources add to every [stop] so that the end point is
    kept. *)
Definition eps : R := 1e-10.

(** ** More NumPy scalar functions *)

Definition np_exp (a : npfloat) : npfloat :=
  match a with
  | Fin x => Fin (exp x)
  | PInf => PInf
  | NInf => Fin 0
  | NaN => NaN
  end.

Definition np_abs (a : npfloat) : npfloat :=
  match a with
  | Fin x => Fin (Rabs x)
  | PInf | NInf => PInf
  | NaN => NaN
  end.

(** [a < b] on scalars; every comparison with [nan] is false. *)
Definition np_ltb (a b : npfloat) : bool :=
  match a, b with
  | NaN, _ | _, NaN => false
  | Fin x, Fin y => if Rlt_dec x y then true else false
  | NInf, Fin _ | NInf, PInf | Fin _, PInf => true
  | NInf, NInf | PInf, _ | Fin _, NInf => false
  end.

(** [np.maximum]: the larger operand, [nan] as soon as one operand is. *)
Definition np_maximum (a b : npfloat) : npfloat :=
  match a, b with
  | NaN, _ | _, NaN => NaN
  | _, _ => if np_ltb a b then b else a
  end.

(** Python's [max(0, x)] on a scalar [x]: [x] when [x > 0], else [0]. *)
Definition py_max0 (x : npfloat) : npfloat :=
  if np_ltb (Fin 0) x then x else Fin 0.

(** ** Arrays

    A one-dimensional array is a list; reading or writing outside it
    raises [IndexError].  A two-dimensional array is the list of its
    rows. *)

Definition get {A : Type} (l : list A) (i : nat) : result A :=
  match nth_error l i with
  | Some a => Ok a
  | None => Raise IndexError
  end.

Fixpoint set {A : Type} (l : list A) (i : nat) (v : A) : result (list A) :=
  match l, i with
  | [], _ => Raise IndexError
  | _ :: l', O => Ok (v :: l')
  | a :: l', S i' => l'' <- set l' i' v ;; Ok (a :: l'')
  end.

(** [np.zeros(n)] *)
Definition np_zeros (n : nat) : list npfloat := repeat (Fin 0) n.

(** The array whose columns are [cols], each of [n] entries, as rows. *)
Definition rows_of_columns (n : nat) (cols : list (list npfloat))
  : list (list npfloat) :=
  map (fun p => map (fun col => nth p col NaN) cols) (seq 0 n).

(** [np.linspace(start, stop, num)] *)
Definition np_linspace (start stop : R) (num : nat) : list R :=
  map (fun i => start + INR i * ((stop - start) / INR (num - 1))) (seq 0 num).

(** ** [numpy.random]

    The global generator: [np.random.seed(s)] installs a state that
    depends on [s] alone (or raises, on a seed it does not accept), and
    drawing [n] standard normal deviates is a function of the current
    state that returns the next one.  [np.random.normal(loc, scale, n)]
    is [loc + scale * z] on each deviate [z]. *)

Class NumpyRandom : Type := {
  rng : Type;
  np_random_seed : Z -> result rng;
  standard_normal : rng -> nat -> list R * rng;
  standard_normal_length :
    forall g n, length (fst (standard_normal g n)) = n
}.

Definition np_random_normal `{NumpyRandom} (loc scale : npfloat) (n : nat)
  (g : rng) : list npfloat * rng :=
  let (zs, g') := standard_normal g n in
  (map (fun z => (loc + scale * Fin z)%np) zs, g').

(* ================================================================= *)
(** * The rate model, as the pricers see it

    The pricers read three attributes of whatever rate model they hold:
    the current rate [r0] and the methods [zero_coupon_bond_price] and
    [forward_rate]. *)

Record rate_model : Type := {
  rm_r0 : npfloat;
  rm_zero_coupon_bond_price : R -> R -> npfloat -> result npfloat;
  rm_forward_rate : R -> R -> R -> npfloat -> result pynum
}.

(* ================================================================= *)
(** * [models/interest_rate/cir.py] *)

Module CIR.

(** The fields of a model object.  [params] is the dictionary with keys
    [kappa], [theta], [sigma]. *)
Record t : Type := mk {
  r0 : npfloat;
  kappa : R;
  theta : R;
  sigma : R;
  timesteps : Z;
  time_horizon : R;
  dt : R
}.

Definition set_r0 (m : t) (r : npfloat) : t :=
  mk r (kappa m) (theta m) (sigma m) (timesteps m) (time_horizon m) (dt m).

Definition set_horizon (m : t) (th : R) (n : Z) : t :=
  mk (r0 m) (kappa m) (theta m) (sigma m) n th (dt m).

(** Modelled from the spec: [InterestRateModel.__init__] of
    [models/interest_rate/base_model.py], which is not among the
    sources.  It stores the current rate, the parameters and the
    discretisation, with [dt = time_horizon / timesteps]. *)
Definition base_init (r0 kappa theta sigma : R) (timesteps : Z)
  (time_horizon : R) : result t :=
  if Z.eq_dec timesteps 0 then Raise ZeroDivisionError
  else Ok (mk (Fin r0) kappa theta sigma timesteps time_horizon
              (time_horizon / IZR timesteps)).

(** [CIR.__init__] *)
Definition init (r0 kappa theta sigma : R) (timesteps : Z)
  (time_horizon : R) : result t :=
  if Rle_dec r0 0 then Raise ValueError
  else if Rle_dec (2 * kappa * theta) (sigma ^ 2) then Raise ValueError
  else base_init r0 kappa theta sigma timesteps time_horizon.

(** One entry of the update of lines 74-76, from the previous rate
    [r] and the increment [dW]. *)
Definition euler_step (m : t) (r dW : npfloat) : npfloat :=
  let drift :=
    (Fin (kappa m) * (Fin (theta m) - np_maximum (Fin 0) r) * Fin (dt m))%np in
  let diffusion :=
    (Fin (sigma m) * np_sqrt (np_maximum (Fin 0) r * Fin (dt m)) * dW)%np in
  np_maximum (Fin 0) (r + drift + diffusion)%np.

(** Python's [/] between the float parameters. *)
Definition float_div (x y : R) : result R :=
  if Req_dec_T y 0 then Raise ZeroDivisionError else Ok (x / y).

(** The body of [for t in range(1, timesteps + 1)], run [steps] times
    from the column [col] of the previous step; returns the columns it
    filled.  [d] is computed and never used, but its division is
    Python's. *)
Fixpoint simulate_loop `{NumpyRandom} (m : t) (n_paths steps : nat)
  (col : list npfloat) (g : rng) : result (list (list npfloat) * rng) :=
  match steps with
  | O => Ok ([], g)
  | S k =>
      let (dW, g1) :=
        np_random_normal (Fin 0) (np_sqrt (Fin (dt m))) n_paths g in
      _d <- float_div (4 * kappa m * theta m) (sigma m ^ 2) ;;
      let col' := map (fun rw => euler_step m (fst rw) (snd rw))
                      (combine col dW) in
      rest <- simulate_loop m n_paths k col' g1 ;;
      Ok (col' :: fst rest, snd rest)
  end.

(** [CIR.simulate_rates]; [g] is the state of the global generator at
    the call.  The array has [n_paths] rows and [timesteps + 1]
    columns. *)
Definition simulate_rates `{NumpyRandom} (m : t) (n_paths : nat)
  (seed : option Z) (g : rng) : result (list (list npfloat) * rng) :=
  g0 <- match seed with Some s => np_random_seed s | None => Ok g end ;;
  if Z_lt_dec (timesteps m + 1) 0 then Raise ValueError
  else if Z.eq_dec (timesteps m + 1) 0 then Raise IndexError
  else
    let col0 := repeat (r0 m) n_paths in
    cg <- simulate_loop m n_paths (Z.to_nat (timesteps m)) col0 g0 ;;
    Ok (rows_of_columns n_paths (col0 :: fst cg), snd cg).

(** [CIR.zero_coupon_bond_price].  The quotients [A_num / A_denom] and
    [B_num / B_denom] are NumPy divisions and do not raise; the
    exponent of [A] is a division of Python floats.  When that
    exponent exists the base is a positive finite number, so the power
    is the real power. *)
Definition zero_coupon_bond_price (m : t) (t0 T : R) (r : npfloat)
  : result npfloat :=
  if Rge_dec t0 T then Ok (Fin 1)
  else
    let h := sqrt (kappa m ^ 2 + 2 * sigma m ^ 2) in
    let tau := T - t0 in
    let A_num := 2 * h * exp ((kappa m + h) * tau / 2) in
    let A_denom := 2 * h + (kappa m + h) * (exp (h * tau) - 1) in
    e <- float_div (2 * kappa m * theta m) (sigma m ^ 2) ;;
    let A := Rpower (A_num / A_denom) e in
    let B_num := 2 * (exp (h * tau) - 1) in
    let B_denom := 2 * h + (kappa m + h) * (exp (h * tau) - 1) in
    let B := B_num / B_denom in
    Ok (Fin A * np_exp (- Fin B * r))%np.

(** Modelled from the spec: [forward_rate] of the missing base class,
    the simple forward implied by two zero-coupon prices over
    [[T1, T2]]. *)
Definition forward_rate (m : t) (valuation T1 T2 : R) (r : npfloat)
  : result pynum :=
  P1 <- zero_coupon_bond_price m valuation T1 r ;;
  P2 <- zero_coupon_bond_price m valuation T2 r ;;
  Ok (NpFloat64 ((P1 / P2 - Fin 1) / Fin (T2 - T1))%np).

(** The model object as a pricer holds it. *)
Definition as_rate_model (m : t) : rate_model :=
  {| rm_r0 := r0 m;
     rm_zero_coupon_bond_price := zero_coupon_bond_price m;
     rm_forward_rate := forward_rate m |}.

End CIR.

(* ================================================================= *)
(** * [models/derivatives/option_pricing.py] *)

Module CapFloorPricer.

(** [CapFloorPricer.black_price_caplet] *)
Definition black_price_caplet (forward_rate strike : pynum)
  (time_to_maturity volatility : R) (discount_factor : npfloat)
  (notional delta_t : R) : result npfloat :=
  if Rle_dec time_to_maturity 0 then
    Ok (py_max0 (forward_rate - strike) * discount_factor
        * Fin notional * Fin delta_t)%np
  else
    ratio <- true_div forward_rate strike ;;
    let d1 := ((np_log ratio + Fin (volatility ^ 2 / 2) * Fin time_to_maturity)
               / (Fin volatility * np_sqrt (Fin time_to_maturity)))%np in
    let d2 := (d1 - Fin volatility * np_sqrt (Fin time_to_maturity))%np in
    Ok (discount_factor * Fin notional * Fin delta_t
        * (forward_rate * norm_cdf d1 - strike * norm_cdf d2))%np.

(** [CapFloorPricer.black_price_floorlet] *)
Definition black_price_floorlet (forward_rate strike : pynum)
  (time_to_maturity volatility : R) (discount_factor : npfloat)
  (notional delta_t : R) : result npfloat :=
  if Rle_dec time_to_maturity 0 then
    Ok (py_max0 (strike - forward_rate) * discount_factor
        * Fin notional * Fin delta_t)%np
  else
    ratio <- true_div forward_rate strike ;;
    let d1 := ((np_log ratio + Fin (volatility ^ 2 / 2) * Fin time_to_maturity)
               / (Fin volatility * np_sqrt (Fin time_to_maturity)))%np in
    let d2 := (d1 - Fin volatility * np_sqrt (Fin time_to_maturity))%np in
    Ok (discount_factor * Fin notional * Fin delta_t
        * (strike * norm_cdf (- d2) - forward_rate * norm_cdf (- d1)))%np.

(** [volatility if volatility is not None else 0.2] *)
Definition vol_or_default (volatility : option R) : R :=
  match volatility with Some v => v | None => 0.2 end.

(** The loop of [price_cap] over the payment dates still to visit;
    [fixing_start] is [start_date] at the first date and the previous
    payment date afterwards, [cap_price] the sum so far. *)
Fixpoint price_cap_loop (m : rate_model) (valuation_date : R)
  (strike : pynum) (payment_frequency notional : R) (volatility : option R)
  (fixing_start : R) (payment_dates : list R) (cap_price : npfloat)
  : result npfloat :=
  match payment_dates with
  | [] => Ok cap_price
  | payment_date :: rest =>
      let current_rate := rm_r0 m in
      let fixing_end := payment_date in
      forward_rate <-
        rm_forward_rate m valuation_date fixing_start fixing_end current_rate ;;
      discount_factor <-
        rm_zero_coupon_bond_price m valuation_date payment_date current_rate ;;
      let time_to_fixing := py_max 0 (fixing_start - valuation_date) in
      let vol := vol_or_default volatility in
      caplet_price <-
        black_price_caplet forward_rate strike time_to_fixing vol
          discount_factor notional payment_frequency ;;
      price_cap_loop m valuation_date strike payment_frequency notional
        volatility payment_date rest (cap_price + caplet_price)%np
  end.

(** [CapFloorPricer.price_cap] *)
Definition price_cap (m : rate_model) (valuation_date start_date end_date : R)
  (strike : pynum) (payment_frequency notional : R) (volatility : option R)
  : result npfloat :=
  payment_dates <-
    np_arange (start_date + payment_frequency) (end_date + eps)
      payment_frequency ;;
  price_cap_loop m valuation_date strike payment_frequency notional
    volatility start_date payment_dates (Fin 0).

Fixpoint price_floor_loop (m : rate_model) (valuation_date : R)
  (strike : pynum) (payment_frequency notional : R) (volatility : option R)
  (fixing_start : R) (payment_dates : list R) (floor_price : npfloat)
  : result npfloat :=
  match payment_dates with
  | [] => Ok floor_price
  | payment_date :: rest =>
      let current_rate := rm_r0 m in
      let fixing_end := payment_date in
      forward_rate <-
        rm_forward_rate m valuation_date fixing_start fixing_end current_rate ;;
      discount_factor <-
        rm_zero_coupon_bond_price m valuation_date payment_date current_rate ;;
      let time_to_fixing := py_max 0 (fixing_start - valuation_date) in
      let vol := vol_or_default volatility in
      floorlet_price <-
        black_price_floorlet forward_rate strike time_to_fixing vol
          discount_factor notional payment_frequency ;;
      price_floor_loop m valuation_date strike payment_frequency notional
        volatility payment_date rest (floor_price + floorlet_price)%np
  end.

(** [CapFloorPricer.price_floor] *)
Definition price_floor (m : rate_model) (valuation_date start_date end_date : R)
  (strike : pynum) (payment_frequency notional : R) (volatility : option R)
  : result npfloat :=
  payment_dates <-
    np_arange (start_date + payment_frequency) (end_date + eps)
      payment_frequency ;;
  price_floor_loop m valuation_date strike payment_frequency notional
    volatility start_date payment_dates (Fin 0).

End CapFloorPricer.

Module SwaptionPricer.

(** The pricer object: its rate model and the [par_rate] method of its
    swap pricer (whose class is not among the sources). *)
Record t : Type := mk {
  rate_model_of : rate_model;
  par_rate : R -> R -> R -> result pynum
}.

(** [SwaptionPricer.black_price] *)
Definition black_price (forward_swap_rate strike : pynum)
  (swap_annuity : npfloat) (time_to_expiry volatility : R) (is_payer : bool)
  : result npfloat :=
  if Rle_dec time_to_expiry 0 then
    if is_payer
    then Ok (py_max0 (forward_swap_rate - strike) * swap_annuity)%np
    else Ok (py_max0 (strike - forward_swap_rate) * swap_annuity)%np
  else
    ratio <- true_div forward_swap_rate strike ;;
    let d1 := ((np_log ratio + Fin (volatility ^ 2 / 2) * Fin time_to_expiry)
               / (Fin volatility * np_sqrt (Fin time_to_expiry)))%np in
    let d2 := (d1 - Fin volatility * np_sqrt (Fin time_to_expiry))%np in
    if is_payer
    then Ok (swap_annuity
             * (forward_swap_rate * norm_cdf d1 - strike * norm_cdf d2))%np
    else Ok (swap_annuity
             * (strike * norm_cdf (- d2) - forward_swap_rate * norm_cdf (- d1)))%np.

(** The annuity loop of [price]. *)
Fixpoint annuity_loop (m : rate_model) (valuation_date payment_frequency
  notional : R) (payment_dates : list R) (swap_annuity : npfloat)
  : result npfloat :=
  match payment_dates with
  | [] => Ok swap_annuity
  | payment_date :: rest =>
      discount_factor <-
        rm_zero_coupon_bond_price m valuation_date payment_date (rm_r0 m) ;;
      annuity_loop m valuation_date payment_frequency notional rest
        (swap_annuity + Fin payment_frequency * discount_factor * Fin notional)%np
  end.

(** Lines 279-317 of [price]: everything after the check of the expiry
    date. *)
Definition valuation (p : t) (valuation_date expiry_date
  underlying_swap_start underlying_swap_end : R) (strike : pynum)
  (payment_frequency notional : R) (volatility : option R) (is_payer : bool)
  : result npfloat :=
  let time_to_expiry := py_max 0 (expiry_date - valuation_date) in
  forward_swap_rate <-
    par_rate p underlying_swap_start underlying_swap_end payment_frequency ;;
  payment_dates <-
    np_arange (underlying_swap_start + payment_frequency)
      (underlying_swap_end + eps) payment_frequency ;;
  swap_annuity <-
    annuity_loop (rate_model_of p) valuation_date payment_frequency notional
      payment_dates (Fin 0) ;;
  let vol := CapFloorPricer.vol_or_default volatility in
  black_price forward_swap_rate strike swap_annuity time_to_expiry vol is_payer.

(** [SwaptionPricer.price] *)
Definition price (p : t) (valuation_date expiry_date underlying_swap_start
  underlying_swap_end : R) (strike : pynum) (payment_frequency notional : R)
  (volatility : option R) (is_payer : bool) : result npfloat :=
  if Rlt_dec expiry_date underlying_swap_start then Raise ValueError
  else
    valuation p valuation_date expiry_date underlying_swap_start
      underlying_swap_end strike payment_frequency notional volatility
      is_payer.

End SwaptionPricer.

(* ================================================================= *)
(** * [arbitrage/bond_pricing.py] *)

Module BondPricer.

(** The coupon dates, built the same way by every method of the class:
    the schedule from the valuation date, replaced when the valuation
    date is positive by the dates of the original schedule after it. *)
Definition coupon_dates (valuation_date maturity frequency : R)
  : result (list R) :=
  dates <- np_arange (valuation_date + frequency) (maturity + eps) frequency ;;
  if Rgt_dec valuation_date 0 then
    original_coupon_dates <- np_arange frequency (maturity + eps) frequency ;;
    Ok (filter (fun d => if Rgt_dec d valuation_date then true else false)
               original_coupon_dates)
  else Ok dates.

(** The loop over the coupon dates in [price_difference]. *)
Fixpoint discount_coupons (ytm coupon_amount valuation_date : R)
  (dates : list R) (price : R) : R :=
  match dates with
  | [] => price
  | coupon_date :: rest =>
      let time_to_payment := coupon_date - valuation_date in
      let discount_factor := exp (- ytm * time_to_payment) in
      discount_coupons ytm coupon_amount valuation_date rest
        (price + coupon_amount * discount_factor)
  end.

(** The local function [price_difference] of
    [calculate_yield_to_maturity]. *)
Definition price_difference (bond_price maturity coupon_rate frequency
  notional valuation_date : R) (ytm : R) : result R :=
  dates <- coupon_dates valuation_date maturity frequency ;;
  let coupon_amount := notional * coupon_rate * frequency in
  let price := discount_coupons ytm coupon_amount valuation_date dates 0 in
  let time_to_maturity := maturity - valuation_date in
  let discount_factor := exp (- ytm * time_to_maturity) in
  Ok (price + notional * discount_factor - bond_price).

(** The bisection loop, with [iterations] passes left. *)
Fixpoint bisection (f : R -> result R) (precision : R) (iterations : nat)
  (low_rate high_rate : R) : result R :=
  match iterations with
  | O => Ok ((low_rate + high_rate) / 2)
  | S k =>
      let mid_rate := (low_rate + high_rate) / 2 in
      f_mid <- f mid_rate ;;
      if Rlt_dec (Rabs f_mid) precision then Ok mid_rate
      else
        f_mid' <- f mid_rate ;;
        f_low <- f low_rate ;;
        if Rlt_dec (f_mid' * f_low) 0
        then bisection f precision k low_rate mid_rate
        else bisection f precision k mid_rate high_rate
  end.

(** [BondPricer.calculate_yield_to_maturity] *)
Definition calculate_yield_to_maturity (bond_price maturity coupon_rate
  frequency notional valuation_date : R) (max_iterations : Z) (precision : R)
  : result R :=
  if Rle_dec maturity valuation_date then Ok 0
  else
    bisection
      (price_difference bond_price maturity coupon_rate frequency notional
         valuation_date)
      precision (Z.to_nat max_iterations) 0.0001 0.5.

(** The pricer object: the rate model it discounts with and its flat
    credit spread. *)
Record t : Type := mk {
  rate_model_of : rate_model;
  credit_spread : R
}.

(** The three lines every method applies to a discount factor:
    [if self.credit_spread > 0: discount_factor *= np.exp(-spread * time)]. *)
Definition credit_discounted (p : t) (discount_factor : npfloat) (time : R)
  : npfloat :=
  if Rgt_dec (credit_spread p) 0
  then (discount_factor * Fin (exp (- credit_spread p * time)))%np
  else discount_factor.

(** [BondPricer.price_zero_coupon_bond] *)
Definition price_zero_coupon_bond (p : t) (maturity notional valuation_date : R)
  : result npfloat :=
  if Rle_dec maturity valuation_date then Ok (Fin notional)
  else
    let current_rate := rm_r0 (rate_model_of p) in
    discount_factor <-
      rm_zero_coupon_bond_price (rate_model_of p) valuation_date maturity
        current_rate ;;
    let discount_factor :=
      credit_discounted p discount_factor (maturity - valuation_date) in
    Ok (Fin notional * discount_factor)%np.

(** The loop over the coupon dates in [price_fixed_coupon_bond];
    [bond_price] is the sum so far. *)
Fixpoint discount_coupon_flows (p : t) (valuation_date coupon_amount : R)
  (dates : list R) (bond_price : npfloat) : result npfloat :=
  match dates with
  | [] => Ok bond_price
  | coupon_date :: rest =>
      discount_factor <-
        rm_zero_coupon_bond_price (rate_model_of p) valuation_date coupon_date
          (rm_r0 (rate_model_of p)) ;;
      let discount_factor :=
        credit_discounted p discount_factor (coupon_date - valuation_date) in
      discount_coupon_flows p valuation_date coupon_amount rest
        (bond_price + Fin coupon_amount * discount_factor)%np
  end.

(** [BondPricer.price_fixed_coupon_bond] *)
Definition price_fixed_coupon_bond (p : t) (maturity coupon_rate frequency
  notional valuation_date : R) : result npfloat :=
  if Rle_dec maturity valuation_date then Ok (Fin notional)
  else
    let current_rate := rm_r0 (rate_model_of p) in
    dates <- coupon_dates valuation_date maturity frequency ;;
    let coupon_amount := notional * coupon_rate * frequency in
    bond_price <-
      discount_coupon_flows p valuation_date coupon_amount dates (Fin 0) ;;
    discount_factor <-
      rm_zero_coupon_bond_price (rate_model_of p) valuation_date maturity
        current_rate ;;
    let discount_factor :=
      credit_discounted p discount_factor (maturity - valuation_date) in
    Ok (bond_price + Fin notional * discount_factor)%np.

(** [calculate_yield_to_maturity] again, for an observed price that is
    a NumPy scalar, as the prices computed by the two methods above
    are: the price difference is then NumPy's and may be [nan] or
    infinite, and every comparison with [nan] is false.  At a finite
    price this is the search above. *)
Definition price_difference_np (bond_price : npfloat) (maturity coupon_rate
  frequency notional valuation_date : R) (ytm : R) : result npfloat :=
  dates <- coupon_dates valuation_date maturity frequency ;;
  let coupon_amount := notional * coupon_rate * frequency in
  let price := discount_coupons ytm coupon_amount valuation_date dates 0 in
  let time_to_maturity := maturity - valuation_date in
  let discount_factor := exp (- ytm * time_to_maturity) in
  Ok (Fin (price + notional * discount_factor) - bond_price)%np.

Fixpoint bisection_np (f : R -> result npfloat) (precision : R)
  (iterations : nat) (low_rate high_rate : R) : result R :=
  match iterations with
  | O => Ok ((low_rate + high_rate) / 2)
  | S k =>
      let mid_rate := (low_rate + high_rate) / 2 in
      f_mid <- f mid_rate ;;
      if np_ltb (np_abs f_mid) (Fin precision) then Ok mid_rate
      else
        f_mid' <- f mid_rate ;;
        f_low <- f low_rate ;;
        if np_ltb (f_mid' * f_low)%np (Fin 0)
        then bisection_np f precision k low_rate mid_rate
        else bisection_np f precision k mid_rate high_rate
  end.

Definition calculate_yield_to_maturity_np (bond_price : npfloat) (maturity
  coupon_rate frequency notional valuation_date : R) (max_iterations : Z)
  (precision : R) : result R :=
  if Rle_dec maturity valuation_date then Ok 0
  else
    bisection_np
      (price_difference_np bond_price maturity coupon_rate frequency notional
         valuation_date)
      precision (Z.to_nat max_iterations) 0.0001 0.5.

(** The loop over the coupon dates in [calculate_duration]. *)
Fixpoint weigh_coupons (ytm coupon_amount valuation_date : R)
  (dates : list R) (weighted_time_sum : R) : R :=
  match dates with
  | [] => weighted_time_sum
  | coupon_date :: rest =>
      let time_to_payment := coupon_date - valuation_date in
      let discount_factor := exp (- ytm * time_to_payment) in
      let present_value := coupon_amount * discount_factor in
      weigh_coupons ytm coupon_amount valuation_date rest
        (weighted_time_sum + time_to_payment * present_value)
  end.

(** [BondPricer.calculate_duration].  The duration of a matured bond is
    the Python float [0.0]; otherwise it is a NumPy scalar, the
    quotient of NumPy's division of the weighted sum by the price. *)
Definition calculate_duration (p : t) (maturity coupon_rate frequency
  notional valuation_date : R) : result pynum :=
  if Rle_dec maturity valuation_date then Ok (PyFloat (Fin 0))
  else
    bond_price <-
      price_fixed_coupon_bond p maturity coupon_rate frequency notional
        valuation_date ;;
    ytm <-
      calculate_yield_to_maturity_np bond_price maturity coupon_rate
        frequency notional valuation_date 100 1e-8 ;;
    dates <- coupon_dates valuation_date maturity frequency ;;
    let coupon_amount := notional * coupon_rate * frequency in
    let weighted_time_sum :=
      weigh_coupons ytm coupon_amount valuation_date dates 0 in
    let time_to_maturity := maturity - valuation_date in
    let discount_factor := exp (- ytm * time_to_maturity) in
    let present_value := notional * discount_factor in
    let weighted_time_sum :=
      weighted_time_sum + time_to_maturity * present_value in
    Ok (NpFloat64 (Fin weighted_time_sum / bond_price)%np).

(** [BondPricer.calculate_modified_duration].  [ytm / frequency] is a
    division of Python floats. *)
Definition calculate_modified_duration (p : t) (maturity coupon_rate
  frequency notional valuation_date : R) : result npfloat :=
  bond_price <-
    price_fixed_coupon_bond p maturity coupon_rate frequency notional
      valuation_date ;;
  ytm <-
    calculate_yield_to_maturity_np bond_price maturity coupon_rate
      frequency notional valuation_date 100 1e-8 ;;
  macaulay_duration <-
    calculate_duration p maturity coupon_rate frequency notional
      valuation_date ;;
  q <- CIR.float_div ytm frequency ;;
  true_div macaulay_duration (PyFloat (Fin (1 + q))).

End BondPricer.

(** ** NumPy reductions, on arrays of finite values *)

(** [np.sum] *)
Definition np_sum (a : list R) : R := fold_right Rplus 0 a.

(** [np.mean]: [nan] (with a warning) on an empty array. *)
Definition np_mean (a : list R) : npfloat :=
  match a with
  | [] => NaN
  | _ => Fin (np_sum a / INR (length a))
  end.

(** [np.std]: the square root of the mean of the squared absolute
    deviations from the mean. *)
Definition np_std (a : list R) : npfloat :=
  match a with
  | [] => NaN
  | _ =>
      let mu := np_sum a / INR (length a) in
      Fin (sqrt (np_sum (map (fun x => Rabs (x - mu) ^ 2) a) / INR (length a)))
  end.

Fixpoint insert_sorted (x : R) (l : list R) : list R :=
  match l with
  | [] => [x]
  | y :: l' => if Rle_dec x y then x :: l else y :: insert_sorted x l'
  end.

(** [np.sort] *)
Fixpoint np_sort (a : list R) : list R :=
  match a with
  | [] => []
  | x :: a' => insert_sorted x (np_sort a')
  end.

(** [np.percentile(a, q)] with the default linear interpolation: the
    entry of the sorted array at the position [q / 100 * (n - 1)],
    interpolated between its two neighbours.  A level outside
    [[0, 100]] raises.  On an empty array the outcome depends on the
    version of NumPy; the older ones return [nan], as here. *)
Definition np_percentile (a : list R) (q : R) : result npfloat :=
  if Rlt_dec q 0 then Raise ValueError
  else if Rlt_dec 100 q then Raise ValueError
  else
    match a with
    | [] => Ok NaN
    | _ =>
        let s := np_sort a in
        let n := length a in
        let position := q / 100 * INR (n - 1) in
        let previous := Z.to_nat (Int_part position) in
        let next := Nat.min (previous + 1) (n - 1) in
        let gamma := frac_part position in
        let lo := nth previous s 0 in
        let hi := nth next s 0 in
        Ok (Fin (lo + (hi - lo) * gamma))
    end.

(* ================================================================= *)
(** * [hedging/simulation.py] *)

(** Python's [int(x)] on a float: truncation towards zero. *)
Definition py_int (x : R) : Z :=
  if Rle_dec 0 x then Int_part x else (- Int_part (- x))%Z.

(** A left-to-right loop whose body may raise. *)
Fixpoint for_each {A S : Type} (body : S -> A -> result S) (l : list A)
  (s : S) : result S :=
  match l with
  | [] => Ok s
  | a :: l' => s' <- body s a ;; for_each body l' s'
  end.

Module HedgingSimulator.

(** The simulator object.  Its rate model is the object that the
    pricer of the hedging strategy holds too, so the instrument's
    price is a function of the fields that model has at the time of
    the call; the model is threaded through [simulate] as state.
    [instrument_price m d] is
    [instrument.price(hedging_strategy.pricer, valuation_date=d)]. *)
Record t : Type := mk {
  instrument_price : CIR.t -> R -> result npfloat;
  compute_hedge_ratio : R -> npfloat -> result npfloat;
  rebalance_frequency : R
}.

(** The dictionary returned by [simulate]; [A] is the type of the
    array entries. *)
Record results (A : Type) : Type := mk_results {
  times : list R;
  rates : list (list A);
  instrument_values : list (list A);
  hedge_ratios : list (list A);
  hedge_values : list (list A);
  hedge_costs : list (list A);
  pnl : list (list A)
}.
Arguments mk_results {A}.
Arguments times {A}.
Arguments rates {A}.
Arguments instrument_values {A}.
Arguments hedge_ratios {A}.
Arguments hedge_values {A}.
Arguments hedge_costs {A}.
Arguments pnl {A}.

(** The [while current_time <= time_horizon] loop that collects the
    rebalancing steps. *)
Fixpoint rebalance_loop (fuel : nat) (dt time_horizon rebalance_frequency : R)
  (timesteps : Z) (current_time : R) (rebalance_steps : list Z)
  : result (list Z) :=
  if Rle_dec current_time time_horizon then
    match fuel with
    | O => OutOfFuel
    | S fuel' =>
        q <- CIR.float_div current_time dt ;;
        let idx := py_int q in
        let rebalance_steps' :=
          if (idx <=? timesteps)%Z then rebalance_steps ++ [idx]
          else rebalance_steps in
        rebalance_loop fuel' dt time_horizon rebalance_frequency timesteps
          (current_time + rebalance_frequency) rebalance_steps'
    end
  else Ok rebalance_steps.

(** [t in rebalance_steps] *)
Definition is_rebalance_step (t : nat) (rebalance_steps : list Z) : bool :=
  existsb (Z.eqb (Z.of_nat t)) rebalance_steps.

(** Row [path] of the five arrays filled by the simulation. *)
Record path_rows : Type := mk_rows {
  row_instrument_values : list npfloat;
  row_hedge_values : list npfloat;
  row_hedge_ratios : list npfloat;
  row_pnl : list npfloat;
  row_hedge_costs : list npfloat
}.

(** The body of [for t in range(1, timesteps + 1)]: the state is the
    shared rate model and the rows of the current path. *)
Definition step (sim : t) (rates_row : list npfloat)
  (time_grid : list R) (rebalance_steps : list Z)
  (s : CIR.t * path_rows) (t : nat) : result (CIR.t * path_rows) :=
  let (m, a) := s in
  rate_t <- get rates_row t ;;
  let m := CIR.set_r0 m rate_t in
  time_t <- get time_grid t ;;
  value_t <- instrument_price sim m time_t ;;
  ivs <- set (row_instrument_values a) t value_t ;;
  ratio_prev <- get (row_hedge_ratios a) (t - 1) ;;
  hvs <- set (row_hedge_values a) t (ratio_prev * rate_t)%np ;;
  iv_t <- get ivs t ;;
  iv_prev <- get ivs (t - 1) ;;
  hv_t <- get hvs t ;;
  hv_prev <- get hvs (t - 1) ;;
  let pnl_t := ((iv_t - iv_prev) - (hv_t - hv_prev))%np in
  if is_rebalance_step t rebalance_steps then
    old_hedge_ratio <- get (row_hedge_ratios a) (t - 1) ;;
    new_hedge_ratio <- compute_hedge_ratio sim time_t rate_t ;;
    let transaction_cost :=
      (np_abs (new_hedge_ratio - old_hedge_ratio) * Fin 0.0001 * rate_t)%np in
    hcs <- set (row_hedge_costs a) t transaction_cost ;;
    hrs <- set (row_hedge_ratios a) t new_hedge_ratio ;;
    let pnl_t := (pnl_t - transaction_cost)%np in
    pnl_prev <- get (row_pnl a) (t - 1) ;;
    pnls <- set (row_pnl a) t (pnl_prev + pnl_t)%np ;;
    Ok (m, mk_rows ivs hvs hrs pnls hcs)
  else
    ratio_prev' <- get (row_hedge_ratios a) (t - 1) ;;
    hrs <- set (row_hedge_ratios a) t ratio_prev' ;;
    pnl_prev <- get (row_pnl a) (t - 1) ;;
    pnls <- set (row_pnl a) t (pnl_prev + pnl_t)%np ;;
    Ok (m, mk_rows ivs hvs hrs pnls (row_hedge_costs a)).

(** The body of [for path in iterator]: from the rate model as the
    previous path left it, the rows of this path and the rate model as
    this path leaves it.  Every row starts as a row of [np.zeros]. *)
Definition simulate_path (sim : t) (timesteps : nat) (time_grid : list R)
  (rebalance_steps : list Z) (m : CIR.t) (rates_row : list npfloat)
  : result (CIR.t * path_rows) :=
  let zeros := np_zeros (timesteps + 1) in
  rate_0 <- get rates_row 0 ;;
  let m := CIR.set_r0 m rate_0 in
  time_0 <- get time_grid 0 ;;
  value_0 <- instrument_price sim m time_0 ;;
  ivs <- set zeros 0 value_0 ;;
  hedge_ratio <- compute_hedge_ratio sim time_0 rate_0 ;;
  hrs <- set zeros 0 hedge_ratio ;;
  hvs <- set zeros 0 (hedge_ratio * rate_0)%np ;;
  pnls <- set zeros 0 (Fin 0) ;;
  for_each (step sim rates_row time_grid rebalance_steps)
    (seq 1 timesteps) (m, mk_rows ivs hvs hrs pnls zeros).

(** The outer loop: the state is the rate model and the rows of the
    paths done so far. *)
Definition path_body (sim : t) (timesteps : nat) (time_grid : list R)
  (rebalance_steps : list Z) (s : CIR.t * list path_rows)
  (rates_row : list npfloat) : result (CIR.t * list path_rows) :=
  ma <- simulate_path sim timesteps time_grid rebalance_steps (fst s)
          rates_row ;;
  Ok (fst ma, snd s ++ [snd ma]).

(** [time_horizon if time_horizon is not None else rate_model.time_horizon] *)
Definition horizon_or_default (m : CIR.t) (time_horizon : option R) : R :=
  match time_horizon with
  | None => CIR.time_horizon m
  | Some th => th
  end.

(** Lines 44-48 of [simulate]: the rate model is given the horizon of
    the simulation and the number of steps of its own length [dt] that
    fit in it. *)
Definition adapt_horizon (m : CIR.t) (time_horizon : R) : result CIR.t :=
  if Req_dec_T time_horizon (CIR.time_horizon m) then Ok m
  else
    q <- CIR.float_div time_horizon (CIR.dt m) ;;
    let timesteps := py_int q in
    Ok (CIR.set_horizon m time_horizon timesteps).

(** [HedgingSimulator.simulate].  [m] is the rate model and [g] the
    global random generator at the call; both are returned as the
    call leaves them.  [fuel] bounds the [while] loop. *)
Definition simulate `{NumpyRandom} (fuel : nat) (sim : t) (m : CIR.t)
  (n_paths : nat) (time_horizon : option R) (seed : option Z) (g : rng)
  : result (results npfloat * CIR.t * rng) :=
  let time_horizon := horizon_or_default m time_horizon in
  m <- adapt_horizon m time_horizon ;;
  rg <- CIR.simulate_rates m n_paths seed g ;;
  let rates := fst rg in
  let timesteps := CIR.timesteps m in
  let dt := CIR.dt m in
  let time_grid := np_linspace 0 time_horizon (Z.to_nat (timesteps + 1)) in
  rebalance_steps <-
    rebalance_loop fuel dt time_horizon (rebalance_frequency sim) timesteps
      0 [] ;;
  mrows <-
    for_each (path_body sim (Z.to_nat timesteps) time_grid rebalance_steps)
      rates (m, []) ;;
  let rows := snd mrows in
  Ok ({| times := time_grid;
         rates := rates;
         instrument_values := map row_instrument_values rows;
         hedge_ratios := map row_hedge_ratios rows;
         hedge_values := map row_hedge_values rows;
         hedge_costs := map row_hedge_costs rows;
         pnl := map row_pnl rows |},
      fst mrows, snd rg).

(** The dictionary returned by [analyze_results]. *)
Record analysis : Type := mk_analysis {
  mean_pnl : npfloat;
  std_pnl : npfloat;
  var : npfloat;
  expected_shortfall : npfloat;
  sharpe_ratio : npfloat;
  mean_hedge_costs : npfloat;
  final_pnl_distribution : list R
}.

(** [a[:, -1]] *)
Fixpoint last_column (a : list (list R)) : result (list R) :=
  match a with
  | [] => Ok []
  | row :: a' =>
      x <- get row (length row - 1) ;;
      xs <- last_column a' ;;
      Ok (x :: xs)
  end.

(** [a[a <= v]] *)
Definition at_or_below (a : list R) (v : npfloat) : list R :=
  match v with
  | Fin x => filter (fun y => if Rle_dec y x then true else false) a
  | PInf => a
  | NInf | NaN => []
  end.

(** [HedgingSimulator.analyze_results], on arrays of finite values. *)
Definition analyze_results (results : results R) (confidence_level : R)
  : result analysis :=
  final_pnl <- last_column (pnl results) ;;
  let mean_pnl := np_mean final_pnl in
  let std_pnl := np_std final_pnl in
  let alpha := 1 - confidence_level in
  var <- np_percentile final_pnl (alpha * 100) ;;
  let es := np_mean (at_or_below final_pnl var) in
  let sharpe_ratio :=
    if np_ltb (Fin 0) std_pnl then (mean_pnl / std_pnl)%np else NaN in
  let total_hedge_costs := map np_sum (hedge_costs results) in
  let mean_hedge_costs := np_mean total_hedge_costs in
  Ok {| mean_pnl := mean_pnl;
        std_pnl := std_pnl;
        var := var;
        expected_shortfall := es;
        sharpe_ratio := sharpe_ratio;
        mean_hedge_costs := mean_hedge_costs;
        final_pnl_distribution := final_pnl |}.

End HedgingSimulator.

(* ================================================================= *)
(** * [instruments/caps_floors.py]

    The instruments hold their dates as floats, in years: the only kind
    of date that [CapFloorPricer] prices.  The branch of
    [generate_payment_schedule] for [datetime] objects is not modelled.
    The pricer handed to [price] is a [CapFloorPricer], which its rate
    model determines. *)

Module Cap.

Record t : Type := mk {
  start_date : R;
  maturity_date : R;
  strike : pynum;
  payment_frequency : R;
  notional : R;
  payment_dates : list R
}.

(** [Cap.generate_payment_schedule], on float dates *)
Definition generate_payment_schedule (start_date maturity_date
  payment_frequency : R) : result (list R) :=
  np_arange (start_date + payment_frequency) (maturity_date + eps)
    payment_frequency.

(** [Cap.__init__] *)
Definition init (start_date maturity_date : R) (strike : pynum)
  (payment_frequency notional : R) : result t :=
  payment_dates <-
    generate_payment_schedule start_date maturity_date payment_frequency ;;
  Ok (mk start_date maturity_date strike payment_frequency notional
        payment_dates).

(** [Cap.price] *)
Definition price (c : t) (pricer : rate_model) (valuation_date : R)
  (volatility : option R) : result npfloat :=
  CapFloorPricer.price_cap pricer valuation_date (start_date c)
    (maturity_date c) (strike c) (payment_frequency c) (notional c) volatility.

End Cap.

Module Floor.

Record t : Type := mk {
  start_date : R;
  maturity_date : R;
  strike : pynum;
  payment_frequency : R;
  notional : R;
  payment_dates : list R
}.

(** [Floor.generate_payment_schedule], on float dates *)
Definition generate_payment_schedule (start_date maturity_date
  payment_frequency : R) : result (list R) :=
  np_arange (start_date + payment_frequency) (maturity_date + eps)
    payment_frequency.

(** [Floor.__init__] *)
Definition init (start_date maturity_date : R) (strike : pynum)
  (payment_frequency notional : R) : result t :=
  payment_dates <-
    generate_payment_schedule start_date maturity_date payment_frequency ;;
  Ok (mk start_date maturity_date strike payment_frequency notional
        payment_dates).

(** [Floor.price] *)
Definition price (f : t) (pricer : rate_model) (valuation_date : R)
  (volatility : option R) : result npfloat :=
  CapFloorPricer.price_floor pricer valuation_date (start_date f)
    (maturity_date f) (strike f) (payment_frequency f) (notional f) volatility.

End Floor.

Module Collar.

Record t : Type := mk {
  cap : Cap.t;
  floor : Floor.t
}.

(** [Collar.__init__] *)
Definition init (start_date maturity_date : R) (cap_strike floor_strike : pynum)
  (payment_frequency notional : R) : result t :=
  cap <- Cap.init start_date maturity_date cap_strike payment_frequency
           notional ;;
  floor <- Floor.init start_date maturity_date floor_strike payment_frequency
             notional ;;
  Ok (mk cap floor).

(** [Collar.price]: long the cap, short the floor. *)
Definition price (c : t) (pricer : rate_model) (valuation_date : R)
  (volatility : option R) : result npfloat :=
  cap_price <- Cap.price (cap c) pricer valuation_date volatility ;;
  floor_price <- Floor.price (floor c) pricer valuation_date volatility ;;
  Ok (cap_price - floor_price)%np.

End Collar.

(* ================================================================= *)
(** * [instruments/swaptions.py] *)

Module Swaption.

(** The fields of a swaption.  [swap] is the type of the objects of
    the class [InterestRateSwap] of [instruments/swaps.py], which is not
    among the sources. *)
Record t (swap : Type) : Type := mk {
  expiry_date : R;
  underlying_swap_maturity : R;
  strike_rate : pynum;
  is_payer : bool;
  payment_frequency : R;
  notional : R;
  underlying_swap_start : R;
  underlying_swap_end : R;
  underlying_swap : swap
}.
Arguments mk {swap}.
Arguments expiry_date {swap}.
Arguments underlying_swap_maturity {swap}.
Arguments strike_rate {swap}.
Arguments is_payer {swap}.
Arguments payment_frequency {swap}.
Arguments notional {swap}.
Arguments underlying_swap_start {swap}.
Arguments underlying_swap_end {swap}.
Arguments underlying_swap {swap}.

(** [Swaption.__init__]; [InterestRateSwap] is the constructor of the
    underlying swap, called with [start_date], [maturity_date],
    [fixed_rate], [payment_frequency], [notional] and [is_payer]. *)
Definition init {swap : Type}
  (InterestRateSwap : R -> R -> pynum -> R -> R -> bool -> result swap)
  (expiry_date underlying_swap_maturity : R) (strike_rate : pynum)
  (is_payer : bool) (payment_frequency notional : R) : result (t swap) :=
  let underlying_swap_start := expiry_date in
  let underlying_swap_end := underlying_swap_start + underlying_swap_maturity in
  underlying_swap <-
    InterestRateSwap underlying_swap_start underlying_swap_end strike_rate
      payment_frequency notional is_payer ;;
  Ok (mk expiry_date underlying_swap_maturity strike_rate is_payer
        payment_frequency notional underlying_swap_start underlying_swap_end
        underlying_swap).

(** [Swaption.price] *)
Definition price {swap : Type} (s : t swap) (pricer : SwaptionPricer.t)
  (valuation_date : R) (volatility : option R) : result npfloat :=
  SwaptionPricer.price pricer valuation_date (expiry_date s)
    (underlying_swap_start s) (underlying_swap_end s) (strike_rate s)
    (payment_frequency s) (notional s) volatility (is_payer s).

End Swaption.

(* ================================================================= *)
(** * [arbitrage/opportunities.py] *)

Module ArbitrageAnalyzer.

Import String.

(** The analyzer object.  The swap pricer is known by its [par_rate]
    method (its class is not among the sources); the option pricer is a
    [CapFloorPricer], which is determined by the rate model it holds.
    Either may be [None]. *)
Record t : Type := mk {
  bond_pricer : BondPricer.t;
  swap_pricer : option (R -> R -> R -> result pynum);
  option_pricer : option rate_model
}.

(** [self.rate_model = bond_pricer.rate_model] *)
Definition rate_model_of (a : t) : rate_model :=
  BondPricer.rate_model_of (bond_pricer a).

(** The strategies, as the sources spell them. *)
Definition buy_bond_payer_swap : string :=
  "Acheter l'obligation, entrer dans un swap payeur (taux fixe)".
Definition sell_bond_receiver_swap : string :=
  "Vendre l'obligation, entrer dans un swap receveur (taux fixe)".
Definition no_significant_opportunity : string :=
  "Pas d'opportunité d'arbitrage significative".
Definition buy_cap : string := "Acheter le cap".
Definition sell_cap : string := "Vendre le cap".
Definition no_cap_opportunity : string :=
  "Pas d'opportunité claire avec le cap".
Definition buy_floor : string := "Acheter le floor".
Definition sell_floor : string := "Vendre le floor".
Definition no_floor_opportunity : string :=
  "Pas d'opportunité claire avec le floor".
Definition buy_cap_sell_floor : string :=
  "Acheter le cap, vendre le floor (collar)".
Definition sell_cap_buy_floor : string :=
  "Vendre le cap, acheter le floor (reverse collar)".
Definition no_collar_opportunity : string :=
  "Pas d'opportunité claire avec le collar".

(** The dictionary returned by [analyze_bond_vs_swaps]. *)
Module SwapAnalysis.
Record t : Type := mk {
  theoretical_bond_price : npfloat;
  observed_bond_price : npfloat;
  bond_ytm : R;
  swap_rate : pynum;
  spread : npfloat;
  arbitrage_opportunity : bool;
  strategy : string;
  estimated_profit : npfloat;
  estimated_profit_after_costs : npfloat
}.
End SwapAnalysis.

(** The dictionary returned by [analyze_bond_vs_capfloor]: the keys that
    are always there, and those added when a floor strike is given. *)
Module CapFloorAnalysis.
Record floor_entries : Type := mk_floor_entries {
  floor_strike : R;
  floor_price : npfloat;
  floor_strategy : string;
  floor_arbitrage : bool;
  collar_price : npfloat;
  collar_strategy : string;
  collar_arbitrage : bool
}.
Record t : Type := mk {
  theoretical_bond_price : npfloat;
  observed_bond_price : npfloat;
  bond_ytm : R;
  avg_forward_rate : npfloat;
  cap_strike : R;
  cap_price : npfloat;
  cap_strategy : string;
  cap_arbitrage : bool;
  with_floor : option floor_entries
}.
End CapFloorAnalysis.

(** The dictionary returned by [analyze_asset_swap]. *)
Module AssetSwapAnalysis.
Record t : Type := mk {
  theoretical_bond_price : npfloat;
  observed_bond_price : R;
  bond_ytm : R;
  swap_rate : pynum;
  asset_swap_spread : npfloat;
  arbitrage_opportunity : bool;
  strategy : string;
  estimated_profit : npfloat;
  estimated_profit_after_costs : npfloat
}.
End AssetSwapAnalysis.

(** [bond_price if bond_price is not None else theoretical_bond_price] *)
Definition observed_or_theoretical (bond_price : option R)
  (theoretical_bond_price : npfloat) : npfloat :=
  match bond_price with
  | Some b => Fin b
  | None => theoretical_bond_price
  end.

(** [ArbitrageAnalyzer.analyze_bond_vs_swaps].  The yield is searched
    with the defaults of [calculate_yield_to_maturity], 100 iterations
    and a precision of [1e-8]. *)
Definition analyze_bond_vs_swaps (a : t) (bond_maturity bond_coupon_rate : R)
  (bond_price : option R) (frequency notional valuation_date
  transaction_costs spread_tolerance : R) : result SwapAnalysis.t :=
  match swap_pricer a with
  | None => Raise ValueError
  | Some par_rate =>
      theoretical_bond_price <-
        BondPricer.price_fixed_coupon_bond (bond_pricer a) bond_maturity
          bond_coupon_rate frequency notional valuation_date ;;
      let observed_bond_price :=
        observed_or_theoretical bond_price theoretical_bond_price in
      bond_ytm <-
        BondPricer.calculate_yield_to_maturity_np observed_bond_price
          bond_maturity bond_coupon_rate frequency notional valuation_date
          100 1e-8 ;;
      swap_rate <- par_rate valuation_date bond_maturity frequency ;;
      let spread := (Fin bond_ytm - swap_rate)%np in
      let arbitrage_opportunity :=
        np_ltb (Fin (spread_tolerance + transaction_costs)) (np_abs spread) in
      let strategy :=
        if arbitrage_opportunity then
          if np_ltb (Fin 0) spread then buy_bond_payer_swap
          else sell_bond_receiver_swap
        else no_significant_opportunity in
      profits <-
        (if arbitrage_opportunity then
           modified_duration <-
             BondPricer.calculate_modified_duration (bond_pricer a)
               bond_maturity bond_coupon_rate frequency notional
               valuation_date ;;
           let estimated_profit :=
             (np_abs spread * modified_duration * Fin notional)%np in
           Ok (estimated_profit,
               (estimated_profit - Fin (transaction_costs * notional))%np)
         else Ok (Fin 0, Fin 0)) ;;
      Ok (SwapAnalysis.mk theoretical_bond_price observed_bond_price bond_ytm
            swap_rate spread arbitrage_opportunity strategy (fst profits)
            (snd profits))
  end.

(** The loop of [analyze_bond_vs_capfloor] that collects the forward
    rates of the periods that start at or after the valuation date. *)
Fixpoint collect_forward_rates (m : rate_model) (valuation_date frequency : R)
  (dates : list R) (forward_rates : list pynum) : result (list pynum) :=
  match dates with
  | [] => Ok forward_rates
  | t :: rest =>
      if Rge_dec (t - frequency) valuation_date then
        fwd <-
          rm_forward_rate m valuation_date (t - frequency) t (rm_r0 m) ;;
        collect_forward_rates m valuation_date frequency rest
          (forward_rates ++ [fwd])
      else
        collect_forward_rates m valuation_date frequency rest forward_rates
  end.

(** [np.mean] of a non-empty list of scalars. *)
Definition np_mean_scalars (l : list pynum) : npfloat :=
  (fold_left np_add (map num_val l) (Fin 0) / Fin (INR (List.length l)))%np.

(** [np.mean(forward_rates) if forward_rates else self.rate_model.r0] *)
Definition average_forward_rate (m : rate_model) (forward_rates : list pynum)
  : npfloat :=
  match forward_rates with
  | [] => rm_r0 m
  | _ :: _ => np_mean_scalars forward_rates
  end.

(** The signal on one option: is the average forward rate above
    [strike + spread_tolerance], below [strike - spread_tolerance], or
    neither. *)
Definition cap_signal (avg_forward_rate : npfloat)
  (cap_strike spread_tolerance : R) : string * bool :=
  if np_ltb (Fin (cap_strike + spread_tolerance)) avg_forward_rate
  then (buy_cap, true)
  else if np_ltb avg_forward_rate (Fin (cap_strike - spread_tolerance))
  then (sell_cap, true)
  else (no_cap_opportunity, false).

Definition floor_signal (avg_forward_rate : npfloat)
  (floor_strike spread_tolerance : R) : string * bool :=
  if np_ltb avg_forward_rate (Fin (floor_strike - spread_tolerance))
  then (buy_floor, true)
  else if np_ltb (Fin (floor_strike + spread_tolerance)) avg_forward_rate
  then (sell_floor, true)
  else (no_floor_opportunity, false).

Definition collar_signal (avg_forward_rate : npfloat)
  (cap_strike floor_strike : R) (cap_arbitrage floor_arbitrage : bool)
  : string * bool :=
  if cap_arbitrage && floor_arbitrage then
    if np_ltb (Fin cap_strike) avg_forward_rate
       && np_ltb (Fin floor_strike) avg_forward_rate
    then (buy_cap_sell_floor, true)
    else if np_ltb avg_forward_rate (Fin cap_strike)
            && np_ltb avg_forward_rate (Fin floor_strike)
    then (sell_cap_buy_floor, true)
    else (no_collar_opportunity, false)
  else (no_collar_opportunity, false).

(** [ArbitrageAnalyzer.analyze_bond_vs_capfloor] *)
Definition analyze_bond_vs_capfloor (a : t) (bond_maturity bond_coupon_rate
  cap_strike : R) (floor_strike bond_price : option R) (frequency notional
  valuation_date : R) (volatility : option R) (transaction_costs
  spread_tolerance : R) : result CapFloorAnalysis.t :=
  match option_pricer a with
  | None => Raise ValueError
  | Some pricer_model =>
      theoretical_bond_price <-
        BondPricer.price_fixed_coupon_bond (bond_pricer a) bond_maturity
          bond_coupon_rate frequency notional valuation_date ;;
      let observed_bond_price :=
        observed_or_theoretical bond_price theoretical_bond_price in
      bond_ytm <-
        BondPricer.calculate_yield_to_maturity_np observed_bond_price
          bond_maturity bond_coupon_rate frequency notional valuation_date
          100 1e-8 ;;
      dates <-
        np_arange (valuation_date + frequency) (bond_maturity + eps)
          frequency ;;
      forward_rates <-
        collect_forward_rates (rate_model_of a) valuation_date frequency
          dates [] ;;
      let avg_forward_rate :=
        average_forward_rate (rate_model_of a) forward_rates in
      cap_price <-
        CapFloorPricer.price_cap pricer_model valuation_date valuation_date
          bond_maturity (PyFloat (Fin cap_strike)) frequency notional
          volatility ;;
      let '(cap_strategy, cap_arbitrage) :=
        cap_signal avg_forward_rate cap_strike spread_tolerance in
      match floor_strike with
      | Some floor_strike =>
          floor_price <-
            CapFloorPricer.price_floor pricer_model valuation_date
              valuation_date bond_maturity (PyFloat (Fin floor_strike))
              frequency notional volatility ;;
          let collar_price := (cap_price - floor_price)%np in
          let '(floor_strategy, floor_arbitrage) :=
            floor_signal avg_forward_rate floor_strike spread_tolerance in
          let '(collar_strategy, collar_arbitrage) :=
            collar_signal avg_forward_rate cap_strike floor_strike
              cap_arbitrage floor_arbitrage in
          Ok (CapFloorAnalysis.mk theoretical_bond_price observed_bond_price
                bond_ytm avg_forward_rate cap_strike cap_price cap_strategy
                cap_arbitrage
                (Some (CapFloorAnalysis.mk_floor_entries floor_strike
                         floor_price floor_strategy floor_arbitrage
                         collar_price collar_strategy collar_arbitrage)))
      | None =>
          Ok (CapFloorAnalysis.mk theoretical_bond_price observed_bond_price
                bond_ytm avg_forward_rate cap_strike cap_price cap_strategy
                cap_arbitrage None)
      end
  end.

(** [ArbitrageAnalyzer.analyze_asset_swap].  The observed price is an
    argument, a Python float, and
    [bond_coupon_rate * notional / bond_price] is Python's division. *)
Definition analyze_asset_swap (a : t) (bond_maturity bond_coupon_rate
  bond_price frequency notional valuation_date transaction_costs
  spread_tolerance : R) : result AssetSwapAnalysis.t :=
  match swap_pricer a with
  | None => Raise ValueError
  | Some par_rate =>
      theoretical_bond_price <-
        BondPricer.price_fixed_coupon_bond (bond_pricer a) bond_maturity
          bond_coupon_rate frequency notional valuation_date ;;
      bond_ytm <-
        BondPricer.calculate_yield_to_maturity bond_price bond_maturity
          bond_coupon_rate frequency notional valuation_date 100 1e-8 ;;
      swap_rate <- par_rate valuation_date bond_maturity frequency ;;
      adjusted_coupon <-
        CIR.float_div (bond_coupon_rate * notional) bond_price ;;
      let asset_swap_spread := (Fin adjusted_coupon - swap_rate)%np in
      let arbitrage_opportunity :=
        np_ltb (Fin (spread_tolerance + transaction_costs))
          asset_swap_spread in
      if arbitrage_opportunity then
        let estimated_profit :=
          (asset_swap_spread * Fin notional * Fin bond_maturity)%np in
        Ok (AssetSwapAnalysis.mk theoretical_bond_price bond_price bond_ytm
              swap_rate asset_swap_spread arbitrage_opportunity
              buy_bond_payer_swap estimated_profit
              (estimated_profit - Fin (transaction_costs * notional))%np)
      else
        Ok (AssetSwapAnalysis.mk theoretical_bond_price bond_price bond_ytm
              swap_rate asset_swap_spread arbitrage_opportunity
              no_significant_opportunity (Fin 0) (Fin 0))
  end.

End ArbitrageAnalyzer.

(* ================================================================= *)
(** * The spec's formulations

    Definitions that follow the words of the specification, to be
    compared with the functions above. *)

(** The update of a simulated rate, spec section 4.1: drift
    [kappa (theta - r+) dt] and diffusion [sigma sqrt(r+ dt) dW] on the
    previous value floored at zero, the result floored at zero again. *)
Definition cir_update (kappa theta sigma dt r dW : R) : R :=
  Rmax 0 (r + kappa * (theta - Rmax 0 r) * dt
          + sigma * sqrt (Rmax 0 r * dt) * dW).

(** The state of NumPy's global generator after [t] draws of [n]
    standard normal deviates, from the state [g]. *)
Definition rng_after `{NumpyRandom} (n : nat) (g : rng) (t : nat) : rng :=
  Nat.iter t (fun g => snd (standard_normal g n)) g.

(** The increment [dW] of path [p] at the draw number [t] (from 0) of a
    simulation of [n] paths that starts from the generator state [g]:
    the entry [p] of [np.random.normal(0, sqrt(dt), n)], that is
    [0 + sqrt(dt) * z] for the standard normal deviate [z] drawn for
    that path at that step. *)
Definition drawn_increment `{NumpyRandom} (n : nat) (dt : R) (g : rng)
  (t p : nat) : R :=
  0 + sqrt dt * nth p (fst (standard_normal (rng_after n g t) n)) 0.

(** The forward rate [f] and discount factor [df] that the rate model
    quotes for each fixing period of a cap or floor, as
    [(fixing_start, f, df)]: the period of the first payment date starts
    at [fixing_start], each later one at the payment date before it. *)
Inductive period_quotes (m : rate_model) (valuation_date : R)
  : R -> list R -> list (R * R * R) -> Prop :=
| quotes_nil fixing_start :
    period_quotes m valuation_date fixing_start [] []
| quotes_cons fixing_start payment_date rest F f df qs :
    rm_forward_rate m valuation_date fixing_start payment_date (rm_r0 m)
    = Ok F ->
    num_val F = Fin f ->
    rm_zero_coupon_bond_price m valuation_date payment_date (rm_r0 m)
    = Ok (Fin df) ->
    period_quotes m valuation_date payment_date rest qs ->
    period_quotes m valuation_date fixing_start (payment_date :: rest)
      ((fixing_start, f, df) :: qs).

(** The discounted forward-minus-strike cash flows, spec section 8:
    the sum over the periods of [df * notional * frequency * (f - K)]. *)
Definition forward_minus_strike_flows (strike payment_frequency notional : R)
  (qs : list (R * R * R)) : R :=
  np_sum (map (fun q => let '(_, f, df) := q in
                        df * notional * payment_frequency * (f - strike)) qs).

(** The flat-rate price function of the yield-to-maturity search, spec
    section 4.2: every retained coupon and the redemption discounted at
    the same rate [y], minus the observed price. *)
Definition flat_rate_price_function (dates : list R)
  (coupon_amount notional maturity valuation_date bond_price : R) (y : R) : R :=
  np_sum (map (fun d => coupon_amount * exp (- y * (d - valuation_date))) dates)
  + notional * exp (- y * (maturity - valuation_date))
  - bond_price.

(** The bisection of spec section 4.2 on a bracket [[low, high]] with
    [n] iterations left: return the midpoint as soon as [|f(mid)|] is
    below the precision; otherwise move [low] when
    [f(mid) * f(low) >= 0] and [high] when [f(mid) * f(low) < 0]; return
    the midpoint of the last bracket when the iterations are
    exhausted. *)
Fixpoint spec_bisection (f : R -> R) (precision : R) (n : nat) (low high : R)
  : R :=
  match n with
  | O => (low + high) / 2
  | S n' =>
      let mid := (low + high) / 2 in
      if Rlt_dec (Rabs (f mid)) precision then mid
      else if Rge_dec (f mid * f low) 0
           then spec_bisection f precision n' mid high
           else spec_bisection f precision n' low mid
  end.



Definition final_step (paths : list (list R)) : list R :=
  map (fun path => last path 0) paths.


(* ================================================================= *)
(** * Invariants of the loops *)


(** Two models that differ at most in their current rate. *)
Definition same_but_r0 (m1 m2 : CIR.t) : Prop :=
  forall r, CIR.set_r0 m1 r = CIR.set_r0 m2 r.

(** What the hedge costs of a path of [T] steps can hold: zero
    everywhere except at the rebalancing steps after step 0. *)
Definition costs_only_at_rebalancing (T : nat) (rebalance_steps : list Z)
  (costs : list npfloat) : Prop :=
  length costs = (T + 1)%nat /\
  forall j,
    j = 0%nat \/ HedgingSimulator.is_rebalance_step j rebalance_steps = false ->
    (j < T + 1)%nat -> nth_error costs j = Some (Fin 0).

(** The five rows of a path all have [n] entries. *)
Definition rows_length (n : nat) (a : HedgingSimulator.path_rows) : Prop :=
  length (HedgingSimulator.row_instrument_values a) = n /\
  length (HedgingSimulator.row_hedge_values a) = n /\
  length (HedgingSimulator.row_hedge_ratios a) = n /\
  length (HedgingSimulator.row_pnl a) = n /\
  length (HedgingSimulator.row_hedge_costs a) = n.

(** Entry [j] of a row of a result; [nan] stands for an entry outside
    the row. *)
Definition entry (row : list npfloat) (j : nat) : npfloat := nth j row NaN.

(** What the rows of a simulated path hold at step 0: the price of the
    instrument and the hedge ratio at the first rate of the path, the
    value of that hedge, no P&L and no cost.  [m] is the rate model
    with which the path is run, up to its current rate. *)
Definition path_start_ok (sim : HedgingSimulator.t) (m : CIR.t)
  (time_grid : list R) (rates_row : list npfloat)
  (a : HedgingSimulator.path_rows) : Prop :=
  let rate := entry rates_row 0 in
  let time := nth 0 time_grid 0 in
  HedgingSimulator.instrument_price sim (CIR.set_r0 m rate) time
  = Ok (entry (HedgingSimulator.row_instrument_values a) 0) /\
  HedgingSimulator.compute_hedge_ratio sim time rate
  = Ok (entry (HedgingSimulator.row_hedge_ratios a) 0) /\
  entry (HedgingSimulator.row_hedge_values a) 0
  = (entry (HedgingSimulator.row_hedge_ratios a) 0 * rate)%np /\
  entry (HedgingSimulator.row_pnl a) 0 = Fin 0 /\
  entry (HedgingSimulator.row_hedge_costs a) 0 = Fin 0.

(** What they hold at a later step [t]: the price of the instrument at
    the rate of the step, the value of the hedge carried from the step
    before, and then either a new hedge ratio, its cost and the P&L net
    of that cost, at a rebalancing step, or the ratio carried over, no
    cost and the gross P&L. *)
Definition path_step_ok (sim : HedgingSimulator.t) (m : CIR.t)
  (time_grid : list R) (rebalance_steps : list Z) (rates_row : list npfloat)
  (a : HedgingSimulator.path_rows) (t : nat) : Prop :=
  let rate := entry rates_row t in
  let time := nth t time_grid 0 in
  let iv := entry (HedgingSimulator.row_instrument_values a) in
  let hv := entry (HedgingSimulator.row_hedge_values a) in
  let hr := entry (HedgingSimulator.row_hedge_ratios a) in
  let pnl := entry (HedgingSimulator.row_pnl a) in
  let hc := entry (HedgingSimulator.row_hedge_costs a) in
  let gross := ((iv t - iv (t - 1)%nat) - (hv t - hv (t - 1)%nat))%np in
  HedgingSimulator.instrument_price sim (CIR.set_r0 m rate) time = Ok (iv t) /\
  hv t = (hr (t - 1)%nat * rate)%np /\
  if HedgingSimulator.is_rebalance_step t rebalance_steps then
    HedgingSimulator.compute_hedge_ratio sim time rate = Ok (hr t) /\
    hc t = (np_abs (hr t - hr (t - 1)%nat) * Fin 0.0001 * rate)%np /\
    pnl t = (pnl (t - 1)%nat + (gross - hc t))%np
  else
    hr t = hr (t - 1)%nat /\
    hc t = Fin 0 /\
    pnl t = (pnl (t - 1)%nat + gross)%np.

(** The rows of a simulated path of [T] steps: five rows of [T + 1]
    entries, which hold at every step what the two definitions above
    say. *)
Definition path_ok (sim : HedgingSimulator.t) (m : CIR.t) (T : nat)
  (time_grid : list R) (rebalance_steps : list Z) (rates_row : list npfloat)
  (a : HedgingSimulator.path_rows) : Prop :=
  rows_length (T + 1) a /\
  path_start_ok sim m time_grid rates_row a /\
  forall t, (1 <= t <= T)%nat ->
    path_step_ok sim m time_grid rebalance_steps rates_row a t.

(** Two states of the rows of a path that agree on the entries up to
    [t]. *)
Definition agree_upto (t : nat) (a a' : HedgingSimulator.path_rows) : Prop :=
  forall j, (j <= t)%nat ->
    entry (HedgingSimulator.row_instrument_values a') j
    = entry (HedgingSimulator.row_instrument_values a) j /\
    entry (HedgingSimulator.row_hedge_values a') j
    = entry (HedgingSimulator.row_hedge_values a) j /\
    entry (HedgingSimulator.row_hedge_ratios a') j
    = entry (HedgingSimulator.row_hedge_ratios a) j /\
    entry (HedgingSimulator.row_pnl a') j
    = entry (HedgingSimulator.row_pnl a) j /\
    entry (HedgingSimulator.row_hedge_costs a') j
    = entry (HedgingSimulator.row_hedge_costs a) j.

(* ================================================================= *)
(** * Reference computations

    Computations that the properties below compare the functions of the
    sources with. *)

(** Pricing one more zero-coupon bond of the given notional and adding
    it to the sum so far. *)
Definition add_zero_coupon (p : BondPricer.t) (notional valuation_date : R)
  (acc : npfloat) (maturity : R) : result npfloat :=
  z <- BondPricer.price_zero_coupon_bond p maturity notional valuation_date ;;
  Ok (acc + z)%np.

(** A coupon bond as a strip of zero-coupon bonds: one of notional
    [coupon_amount] per coupon date, and one of the bond's notional at
    its maturity. *)
Definition strip_of_zero_coupon_bonds (p : BondPricer.t) (dates : list R)
  (maturity coupon_amount notional valuation_date : R) : result npfloat :=
  coupons <-
    for_each (add_zero_coupon p coupon_amount valuation_date) dates (Fin 0) ;;
  principal <-
    BondPricer.price_zero_coupon_bond p maturity notional valuation_date ;;
  Ok (coupons + principal)%np.

(** The annuity of a swap from the discount factors of its payment
    dates: the sum of [payment_frequency * discount_factor * notional]. *)
Definition swap_annuity_of (payment_frequency notional : R)
  (discount_factors : list R) : R :=
  np_sum (map (fun df => payment_frequency * df * notional) discount_factors).

(* ================================================================= *)
(** * Example objects *)

(** A generator for the examples: its state is a counter, set by a
    seed between 0 and [2^32 - 1], and its deviates cycle through
    -1, 0, 1. *)
#[export] Instance counter_random : NumpyRandom := {|
  rng := nat;
  np_random_seed := fun s =>
    if ((0 <=? s) && (s <? 2 ^ 32))%Z then Ok (Z.to_nat s)
    else Raise ValueError;
  standard_normal := fun g n =>
    (map (fun i => INR ((g + i) mod 3) - 1) (seq 0 n), (g + n)%nat);
  standard_normal_length := fun g n =>
    eq_trans (length_map _ _) (length_seq n 0)
|}.

(** The model of the spec's concrete scenario: [r0 = 0.03],
    [kappa = 0.5], [theta = 0.05], [sigma = 0.01], with the default
    discretisation. *)
Definition cir_example : CIR.t :=
  CIR.mk (Fin 0.03) 0.5 0.05 0.01 100 1 (1 / 100).

(** A rate model object with a flat curve: it discounts at the current
    rate and quotes that rate as every forward. *)
Definition flat_curve (r : R) : rate_model :=
  {| rm_r0 := Fin r;
     rm_zero_coupon_bond_price := fun t T r => Ok (np_exp (- r * Fin (T - t))%np);
     rm_forward_rate := fun _ _ _ r => Ok (NpFloat64 r) |}.

(** A swaption pricer on the example model, whose swap pricer quotes a
    par rate of 3%. *)
Definition swaption_pricer_example : SwaptionPricer.t :=
  SwaptionPricer.mk (CIR.as_rate_model cir_example)
    (fun _ _ _ => Ok (NpFloat64 (Fin 0.03))).

(** A simulator on the example model: the instrument is a unit
    zero-coupon bond of maturity 5 discounted at the model's current
    rate, the hedge ratio is the time left to that maturity, and the
    hedge is rebalanced every two years. *)
Definition simulator_example : HedgingSimulator.t :=
  HedgingSimulator.mk
    (fun m d => Ok (np_exp (- CIR.r0 m * Fin (5 - d))%np))
    (fun d r => Ok (Fin (5 - d)))
    2.

(** The quotes of the flat 5% curve for the single period from year 1
    to year 1.5, seen from date 0. *)
Definition one_period_quotes : list (R * R * R) :=
  [(1, 0.05, exp (Ropp 0.05 * (1 + 0.5 + INR 0 * 0.5 - 0)))].

(** The result of a simulation of two paths over one time step. *)
Definition results_example : HedgingSimulator.results R :=
  HedgingSimulator.mk_results [0; 1] [[0.03; 0.04]; [0.03; 0.02]]
    [[1; 2]; [1; 3]] [[5; 4]; [5; 4]] [[0.1; 0.2]; [0.1; 0.1]]
    [[0; 0.1]; [0; 0.2]] [[0; 1]; [0; 3]].

(** A bond pricer on the flat 5% curve, with a credit spread of 1%. *)
Definition bond_pricer_example : BondPricer.t :=
  BondPricer.mk (flat_curve 0.05) 0.01.

(** A swaption pricer on the flat 5% curve, whose swap pricer quotes a
    par rate of 3%. *)
Definition flat_swaption_pricer_example : SwaptionPricer.t :=
  SwaptionPricer.mk (flat_curve 0.05) (fun _ _ _ => Ok (NpFloat64 (Fin 0.03))).

(** An analyzer on the example bond pricer, whose swap pricer quotes a
    par rate of 3% and whose option pricer holds the flat 5% curve. *)
Definition arbitrage_analyzer_example : ArbitrageAnalyzer.t :=
  ArbitrageAnalyzer.mk bond_pricer_example
    (Some (fun _ _ _ => Ok (NpFloat64 (Fin 0.03))))
    (Some (flat_curve 0.05)).

(* ================================================================= *)
(** * Properties *)

(** ** Tactics *)

(** Settles the tests on concrete reals that a definition branches on. *)
Ltac decide_reals :=
  repeat match goal with
    | |- context [Rle_dec ?a ?b] => destruct (Rle_dec a b); try lra
    | |- context [Rlt_dec ?a ?b] => destruct (Rlt_dec a b); try lra
    | |- context [Rge_dec ?a ?b] => destruct (Rge_dec a b); try lra
    | |- context [Rgt_dec ?a ?b] => destruct (Rgt_dec a b); try lra
    | |- context [Req_dec_T ?a ?b] => destruct (Req_dec_T a b); try lra
    end.

(** ** Scalars *)

Lemma np_mul_nan_r a : (a * NaN)%np = NaN.
Proof. now destruct a. Qed.

Lemma np_div_fin x y : y <> 0 -> (Fin x / Fin y)%np = Fin (x / y).
Proof. intros Hy. simpl. now destruct (Req_dec_T y 0). Qed.

Lemma np_log_neg x : x < 0 -> np_log (Fin x) = NaN.
Proof. intros Hx. unfold np_log. now decide_reals. Qed.

Lemma np_log_pos x : 0 < x -> np_log (Fin x) = Fin (ln x).
Proof. intros Hx. unfold np_log. now decide_reals. Qed.

Lemma np_sqrt_nonneg x : 0 <= x -> np_sqrt (Fin x) = Fin (sqrt x).
Proof. intros Hx. unfold np_sqrt. now decide_reals. Qed.

Lemma py_max_Rmax a b : py_max a b = Rmax a b.
Proof.
  unfold py_max, Rmax.
  destruct (Rlt_dec a b), (Rle_dec a b); lra.
Qed.

Lemma py_max0_fin x : py_max0 (Fin x) = Fin (Rmax 0 x).
Proof.
  unfold py_max0, np_ltb, Rmax.
  destruct (Rlt_dec 0 x), (Rle_dec 0 x); try reflexivity; try lra.
  f_equal; lra.
Qed.

Lemma np_maximum_fin x y : np_maximum (Fin x) (Fin y) = Fin (Rmax x y).
Proof.
  unfold np_maximum, np_ltb, Rmax.
  destruct (Rlt_dec x y), (Rle_dec x y); try reflexivity; try lra.
  f_equal; lra.
Qed.

(** A quotient of opposite signs is negative. *)
Lemma ratio_neg f k : f * k < 0 -> k <> 0 /\ f / k < 0.
Proof.
  intros H. assert (Hk : k <> 0) by (intros ->; lra).
  split; [exact Hk |].
  assert (E : f / k = f * k * (/ k * / k)) by (field; exact Hk).
  assert (0 < / k * / k).
  { assert (/ k <> 0) by now apply Rinv_neq_0_compat. nra. }
  nra.
Qed.

(** [forward / strike] on finite scalars with a non-zero strike, whatever
    their kinds. *)
Lemma true_div_fin (F K : pynum) f k :
  num_val F = Fin f -> num_val K = Fin k -> k <> 0 ->
  true_div F K = Ok (Fin (f / k)).
Proof.
  intros HF HK Hk. destruct F as [v | v], K as [w | w]; simpl in *; subst;
    simpl; destruct (Req_dec_T k 0); try contradiction; reflexivity.
Qed.

(** ** The normal distribution function *)

Lemma gauss_density_even t : gauss_density (- t) = gauss_density t.
Proof. unfold gauss_density. now replace (- t * - t) with (t * t) by ring. Qed.

Lemma gauss_density_continuous x : continuity_pt gauss_density x.
Proof. apply derivable_continuous_pt. unfold gauss_density. reg. Qed.

Lemma gauss_area_any a b (pr : Riemann_integrable gauss_density a b) :
  RiemannInt pr = gauss_area a b.
Proof. apply RiemannInt_P5. Qed.

Lemma gauss_area_swap a b : gauss_area a b = - gauss_area b a.
Proof. apply RiemannInt_P8. Qed.

Lemma gauss_area_chasles a b c :
  gauss_area a b + gauss_area b c = gauss_area a c.
Proof. apply RiemannInt_P26. Qed.

Lemma gauss_area_nil a : gauss_area a a = 0.
Proof. apply RiemannInt_P9. Qed.

(** The density is even, so the areas on both sides of the origin agree:
    the two primitives [y |-> area (-a) y] and [y |-> - area (-a) (-y)]
    of the density differ by a constant on [[-a, a]]. *)
Lemma gauss_area_mirror_nonneg a :
  0 <= a -> gauss_area (- a) 0 = gauss_area 0 a.
Proof.
  intros Ha.
  assert (h : - a <= a) by lra.
  pose (C0 := fun (x : R) (_ : - a <= x <= a) => gauss_density_continuous x).
  pose (P := primitive h (FTC_P1 h C0)).
  assert (HP : forall y, - a <= y <= a -> P y = gauss_area (- a) y).
  { intros y [H1 H2]. unfold P, primitive.
    destruct (Rle_dec (- a) y) as [? | n]; [| contradiction].
    destruct (Rle_dec y a) as [? | n]; [| contradiction].
    apply gauss_area_any. }
  assert (A1 : antiderivative gauss_density P (- a) a) by apply RiemannInt_P29.
  assert (A2 : antiderivative gauss_density (fun y => - P (- y)) (- a) a).
  { split; [| exact h]. intros y Hy.
    assert (Hd : derivable_pt_lim (fun y => - P (- y)) y (gauss_density y)).
    { rewrite <- (gauss_density_even y).
      replace (gauss_density (- y)) with (- (gauss_density (- y) * -1)) by ring.
      apply (derivable_pt_lim_opp (fun y => P (- y))).
      apply (derivable_pt_lim_comp (fun y => - y) P).
      - replace (-1) with (- 1) by ring.
        apply (derivable_pt_lim_opp (fun y => y)), derivable_pt_lim_id.
      - apply RiemannInt_P28. lra. }
    exists (exist _ _ Hd). reflexivity. }
  destruct (antiderivative_Ucte _ _ _ _ _ A1 A2) as [c Hc].
  assert (Ha' : P a = - P (- a) + c) by (apply Hc; lra).
  assert (H0 : P 0 = - P (- 0) + c) by (apply Hc; lra).
  rewrite Ropp_0 in H0.
  rewrite (HP a), (HP (- a)) in Ha' by lra.
  rewrite (HP 0) in H0 by lra.
  rewrite gauss_area_nil in Ha'.
  pose proof (gauss_area_chasles (- a) 0 a). lra.
Qed.

Lemma gauss_area_mirror a : gauss_area (- a) 0 = gauss_area 0 a.
Proof.
  destruct (Rle_dec 0 a) as [Ha | Ha].
  - now apply gauss_area_mirror_nonneg.
  - pose proof (gauss_area_mirror_nonneg (- a) ltac:(lra)) as H.
    rewrite Ropp_involutive in H.
    pose proof (gauss_area_swap (- a) 0). pose proof (gauss_area_swap 0 a).
    lra.
Qed.

Lemma Phi_symmetry x : Phi x + Phi (- x) = 1.
Proof.
  unfold Phi. rewrite (gauss_area_swap 0 (- x)), gauss_area_mirror. lra.
Qed.

(** ** The Black formula on inputs outside its domain *)

Section BlackDomain.

Import CapFloorPricer SwaptionPricer.

(** With a forward rate and a strike of opposite signs the logarithm is
    [nan], and so is everything computed from it. *)
Lemma caplet_nan (F K : pynum) f k tau vol DF N D :
  num_val F = Fin f -> num_val K = Fin k -> 0 < tau -> f * k < 0 ->
  black_price_caplet F K tau vol DF N D = Ok NaN.
Proof.
  intros HF HK Ht Hs. destruct (ratio_neg _ _ Hs) as [Hk Hr].
  unfold black_price_caplet. destruct (Rle_dec tau 0); [lra |].
  rewrite (true_div_fin F K f k HF HK Hk). cbn [bind].
  rewrite (np_log_neg _ Hr). cbn. now rewrite !np_mul_nan_r.
Qed.

Lemma floorlet_nan (F K : pynum) f k tau vol DF N D :
  num_val F = Fin f -> num_val K = Fin k -> 0 < tau -> f * k < 0 ->
  black_price_floorlet F K tau vol DF N D = Ok NaN.
Proof.
  intros HF HK Ht Hs. destruct (ratio_neg _ _ Hs) as [Hk Hr].
  unfold black_price_floorlet. destruct (Rle_dec tau 0); [lra |].
  rewrite (true_div_fin F K f k HF HK Hk). cbn [bind].
  rewrite (np_log_neg _ Hr). cbn. now rewrite !np_mul_nan_r.
Qed.

Lemma swaption_nan (F K : pynum) f k A tau vol payer :
  num_val F = Fin f -> num_val K = Fin k -> 0 < tau -> f * k < 0 ->
  black_price F K A tau vol payer = Ok NaN.
Proof.
  intros HF HK Ht Hs. destruct (ratio_neg _ _ Hs) as [Hk Hr].
  unfold black_price. destruct (Rle_dec tau 0); [lra |].
  rewrite (true_div_fin F K f k HF HK Hk). cbn [bind].
  rewrite (np_log_neg _ Hr). cbn. destruct payer; now rewrite !np_mul_nan_r.
Qed.

End BlackDomain.

(** No call with a finite forward rate and a finite non-zero strike
    raises. *)
Lemma black_formulas_return (F K : pynum) f k tau vol DF A N D payer :
  num_val F = Fin f -> num_val K = Fin k -> k <> 0 ->
  returns (CapFloorPricer.black_price_caplet F K tau vol DF N D) /\
  returns (CapFloorPricer.black_price_floorlet F K tau vol DF N D) /\
  returns (SwaptionPricer.black_price F K A tau vol payer).
Proof.
  intros HF HK Hk.
  unfold CapFloorPricer.black_price_caplet,
    CapFloorPricer.black_price_floorlet, SwaptionPricer.black_price, returns.
  rewrite (true_div_fin F K f k HF HK Hk). cbn [bind].
  destruct (Rle_dec tau 0), payer; repeat split; eexists; reflexivity.
Qed.

(** The one exception the Black formulas can raise on finite inputs:
    Python's division by a zero strike, when neither operand is a NumPy
    scalar. *)
Lemma black_caplet_zero_strike f tau vol DF N D :
  0 < tau ->
  CapFloorPricer.black_price_caplet (PyFloat (Fin f)) (PyFloat (Fin 0))
    tau vol DF N D = Raise ZeroDivisionError
  /\ returns (CapFloorPricer.black_price_caplet (NpFloat64 (Fin f))
                (PyFloat (Fin 0)) tau vol DF N D).
Proof.
  intros Ht. unfold CapFloorPricer.black_price_caplet, returns.
  destruct (Rle_dec tau 0); [lra |]. cbn.
  destruct (Req_dec_T 0 0); [| lra]. split; [reflexivity |].
  eexists; reflexivity.
Qed.

(** C1 (as the code has it).  The Black formulas make no domain check.
    For every call of [black_price_caplet], [black_price_floorlet] or
    [SwaptionPricer.black_price] with positive time to maturity, a
    non-positive forward rate or strike and a non-zero strike, no
    exception is raised and a value is returned; when the forward rate
    and the strike have opposite signs that value is NaN. *)
Theorem black_formulas_make_no_domain_check
  (F K : pynum) (f k tau vol : R) (DF A : npfloat) (N D : R) (payer : bool) :
  num_val F = Fin f -> num_val K = Fin k ->
  0 < tau -> (f <= 0 \/ k <= 0) -> k <> 0 ->
  exists c fl s,
    CapFloorPricer.black_price_caplet F K tau vol DF N D = Ok c /\
    CapFloorPricer.black_price_floorlet F K tau vol DF N D = Ok fl /\
    SwaptionPricer.black_price F K A tau vol payer = Ok s /\
    (f * k < 0 -> c = NaN /\ fl = NaN /\ s = NaN).
Proof.
  intros HF HK Ht _ Hk.
  destruct (black_formulas_return F K f k tau vol DF A N D payer HF HK Hk)
    as ([c Hc] & [fl Hfl] & [s Hs]).
  exists c, fl, s. repeat split; try assumption.
  - rewrite (caplet_nan F K f k tau vol DF N D) in Hc by assumption. congruence.
  - rewrite (floorlet_nan F K f k tau vol DF N D) in Hfl by assumption.
    congruence.
  - rewrite (swaption_nan F K f k A tau vol payer) in Hs by assumption.
    congruence.
Qed.

Lemma black_formulas_make_no_domain_check_witness :
  exists c fl s,
    CapFloorPricer.black_price_caplet (PyFloat (Fin (-0.01)))
      (PyFloat (Fin 0.05)) 1 0.2 (Fin 1) 1 0.5 = Ok c /\
    CapFloorPricer.black_price_floorlet (PyFloat (Fin (-0.01)))
      (PyFloat (Fin 0.05)) 1 0.2 (Fin 1) 1 0.5 = Ok fl /\
    SwaptionPricer.black_price (PyFloat (Fin (-0.01)))
      (PyFloat (Fin 0.05)) (Fin 1) 1 0.2 true = Ok s /\
    ((-0.01) * 0.05 < 0 -> c = NaN /\ fl = NaN /\ s = NaN).
Proof.
  apply (black_formulas_make_no_domain_check
           (PyFloat (Fin (-0.01))) (PyFloat (Fin 0.05)) (-0.01) 0.05
           1 0.2 (Fin 1) (Fin 1) 1 0.5 true);
    [reflexivity | reflexivity | lra | left; lra | lra].
Defined.

(** C1 (as stated) fails: a caplet, a floorlet and a payer swaption on a
    forward rate of -1% struck at 5%, one year from maturity, raise
    nothing and return NaN. *)
Lemma black_negative_forward_returns_nan :
  (CapFloorPricer.black_price_caplet (PyFloat (Fin (-0.01)))
     (PyFloat (Fin 0.05)) 1 0.2 (Fin 1) 1 0.5 = Ok NaN /\
   CapFloorPricer.black_price_floorlet (PyFloat (Fin (-0.01)))
     (PyFloat (Fin 0.05)) 1 0.2 (Fin 1) 1 0.5 = Ok NaN /\
   SwaptionPricer.black_price (PyFloat (Fin (-0.01)))
     (PyFloat (Fin 0.05)) (Fin 1) 1 0.2 true = Ok NaN) /\
  ~ raises (CapFloorPricer.black_price_caplet (PyFloat (Fin (-0.01)))
              (PyFloat (Fin 0.05)) 1 0.2 (Fin 1) 1 0.5) /\
  ~ raises (CapFloorPricer.black_price_floorlet (PyFloat (Fin (-0.01)))
              (PyFloat (Fin 0.05)) 1 0.2 (Fin 1) 1 0.5) /\
  ~ raises (SwaptionPricer.black_price (PyFloat (Fin (-0.01)))
              (PyFloat (Fin 0.05)) (Fin 1) 1 0.2 true).
Proof.
  assert (Hs : (-0.01) * 0.05 < 0) by lra.
  assert (Ht : 0 < 1) by lra.
  pose proof (caplet_nan (PyFloat (Fin (-0.01))) (PyFloat (Fin 0.05)) _ _
                1 0.2 (Fin 1) 1 0.5 eq_refl eq_refl Ht Hs) as H1.
  pose proof (floorlet_nan (PyFloat (Fin (-0.01))) (PyFloat (Fin 0.05)) _ _
                1 0.2 (Fin 1) 1 0.5 eq_refl eq_refl Ht Hs) as H2.
  pose proof (swaption_nan (PyFloat (Fin (-0.01))) (PyFloat (Fin 0.05)) _ _
                (Fin 1) 1 0.2 true eq_refl eq_refl Ht Hs) as H3.
  repeat split; try assumption; intros [e He]; congruence.
Qed.

(** ** The zero-coupon bond price of the square-root model *)

Section ZeroCoupon.

Variable m : CIR.t.
Let kappa := CIR.kappa m.
Let theta := CIR.theta m.
Let sigma := CIR.sigma m.
Let h := sqrt (kappa ^ 2 + 2 * sigma ^ 2).

Hypothesis sigma_nonzero : sigma <> 0.

Lemma cir_h_facts : 0 < h /\ 0 < kappa + h.
Proof.
  assert (Hs : 0 < sigma ^ 2).
  { destruct (Rtotal_order sigma 0) as [? | [? | ?]];
      [nra | contradiction | nra]. }
  assert (Hk : 0 <= kappa ^ 2) by nra.
  assert (Hh : 0 < h) by (apply sqrt_lt_R0; lra).
  assert (Hsq : h * h = kappa ^ 2 + 2 * sigma ^ 2) by (apply sqrt_sqrt; lra).
  split; [exact Hh |].
  destruct (Rle_dec 0 kappa) as [Hp | Hn]; [lra |].
  assert (- kappa < h); [| lra].
  apply Rsqr_incrst_0; [unfold Rsqr; nra | lra | lra].
Qed.

Lemma cir_denominator_pos tau :
  0 < tau -> 0 < 2 * h + (kappa + h) * (exp (h * tau) - 1).
Proof.
  intros Ht. destruct cir_h_facts as [Hh Hkh].
  assert (0 < h * tau) by (apply Rmult_lt_0_compat; assumption).
  assert (1 < exp (h * tau)).
  { rewrite <- exp_0. now apply exp_increasing. }
  assert (0 < (kappa + h) * (exp (h * tau) - 1))
    by (apply Rmult_lt_0_compat; lra).
  lra.
Qed.

Lemma cir_base_pos tau :
  0 < tau ->
  0 < 2 * h * exp ((kappa + h) * tau / 2)
      / (2 * h + (kappa + h) * (exp (h * tau) - 1)).
Proof.
  intros Ht. destruct cir_h_facts as [Hh _].
  apply Rdiv_lt_0_compat; [| now apply cir_denominator_pos].
  apply Rmult_lt_0_compat; [lra | apply exp_pos].
Qed.

End ZeroCoupon.

(** C3 (as the code has it).  For every model and every rate [r],
    [zero_coupon_bond_price] returns 1 when [t >= T]; when [t < T] and
    [sigma] is not zero (so that the exponent [2 kappa theta / sigma^2]
    exists) it returns
    [A * exp (- B * r)] with [h], [tau], [A] and [B] as in the spec; the
    common denominator and the base of the power are positive. *)
Theorem zero_coupon_bond_price_closed_form (m : CIR.t) (t T r : R) :
  let kappa := CIR.kappa m in
  let theta := CIR.theta m in
  let sigma := CIR.sigma m in
  let h := sqrt (kappa ^ 2 + 2 * sigma ^ 2) in
  let tau := T - t in
  let denom := 2 * h + (kappa + h) * (exp (h * tau) - 1) in
  let base := 2 * h * exp ((kappa + h) * tau / 2) / denom in
  let A := Rpower base (2 * kappa * theta / sigma ^ 2) in
  let B := 2 * (exp (h * tau) - 1) / denom in
  (t >= T -> CIR.zero_coupon_bond_price m t T (Fin r) = Ok (Fin 1)) /\
  (t < T -> sigma <> 0 ->
   0 < denom /\ 0 < base /\
   CIR.zero_coupon_bond_price m t T (Fin r) = Ok (Fin (A * exp (- B * r)))).
Proof.
  intros kappa theta sigma h tau denom base A B. split.
  - intros Hge. unfold CIR.zero_coupon_bond_price.
    now destruct (Rge_dec t T).
  - intros Hlt Hs.
    assert (Htau : 0 < tau) by (unfold tau; lra).
    split; [exact (cir_denominator_pos m Hs tau Htau) |].
    split; [exact (cir_base_pos m Hs tau Htau) |].
    unfold CIR.zero_coupon_bond_price.
    destruct (Rge_dec t T); [lra |].
    unfold CIR.float_div.
    destruct (Req_dec_T (CIR.sigma m ^ 2) 0) as [E | _].
    { exfalso. apply Hs. unfold sigma. nra. }
    reflexivity.
Qed.

Lemma zero_coupon_bond_price_closed_form_witness :
  CIR.zero_coupon_bond_price cir_example 5 5 (Fin 0.03) = Ok (Fin 1) /\
  exists A B,
    CIR.zero_coupon_bond_price cir_example 0 5 (Fin 0.03)
    = Ok (Fin (A * exp (- B * 0.03))).
Proof.
  pose proof (zero_coupon_bond_price_closed_form cir_example 5 5 0.03) as H5.
  pose proof (zero_coupon_bond_price_closed_form cir_example 0 5 0.03) as H0.
  cbv zeta in H5, H0. destruct H5 as [H5 _]. destruct H0 as [_ H0].
  split.
  - apply H5. lra.
  - destruct H0 as (_ & _ & E); [lra | simpl; lra |].
    eexists _, _. exact E.
Defined.

(** At [sigma = 0], which the constructor accepts when
    [kappa * theta > 0], the exponent of [A] is a division by zero. *)
Lemma zero_coupon_bond_price_sigma_zero (m : CIR.t) (t T : R) r :
  CIR.sigma m = 0 -> t < T ->
  CIR.zero_coupon_bond_price m t T r = Raise ZeroDivisionError.
Proof.
  intros Hs Hlt. unfold CIR.zero_coupon_bond_price, CIR.float_div.
  destruct (Rge_dec t T); [lra |]. rewrite Hs.
  destruct (Req_dec_T (0 ^ 2) 0) as [_ | Hne]; [reflexivity |].
  exfalso; apply Hne; ring.
Qed.

(** C3 (as stated) fails: the constructor accepts a zero volatility
    with [r0 = 0.03], [kappa = 0.5] and [theta = 0.05], and the model it
    builds has no price for a bond that has not matured: the exponent
    [2 kappa theta / sigma^2] of [A] is a division by zero, which
    raises. *)
Lemma zero_coupon_bond_price_raises_at_zero_volatility :
  exists m,
    CIR.init 0.03 0.5 0.05 0 100 1 = Ok m /\
    CIR.zero_coupon_bond_price m 0 5 (Fin 0.03) = Raise ZeroDivisionError.
Proof.
  eexists. split.
  - unfold CIR.init, CIR.base_init.
    destruct (Rle_dec 0.03 0); [lra |].
    destruct (Rle_dec (2 * 0.5 * 0.05) (0 ^ 2)); [lra |].
    destruct (Z.eq_dec 100 0); [discriminate | reflexivity].
  - apply zero_coupon_bond_price_sigma_zero; [reflexivity | lra].
Qed.

(** ** Simulated paths of the square-root model *)

Section SimulatedPaths.

Context `{NumpyRandom}.
Variable m : CIR.t.
Variable n_paths : nat.

Let update := cir_update (CIR.kappa m) (CIR.theta m) (CIR.sigma m) (CIR.dt m).

(** One entry of the source's update, on a finite non-negative time step,
    is the spec's update. *)
Lemma euler_step_fin r dW :
  0 <= CIR.dt m ->
  CIR.euler_step m (Fin r) (Fin dW) = Fin (update r dW).
Proof.
  intros Hdt. unfold CIR.euler_step, update, cir_update.
  rewrite np_maximum_fin. cbn [np_mul np_sub np_add np_neg].
  rewrite np_sqrt_nonneg.
  - cbn [np_mul np_add]. rewrite np_maximum_fin. reflexivity.
  - apply Rmult_le_pos; [apply Rmax_l | exact Hdt].
Qed.

Lemma update_nonneg r dW : 0 <= update r dW.
Proof. unfold update, cir_update. apply Rmax_l. Qed.

(** The increments of one time step, as the deviates they come from. *)
Lemma normal_draws_explicit g :
  0 <= CIR.dt m ->
  np_random_normal (Fin 0) (np_sqrt (Fin (CIR.dt m))) n_paths g
  = (map Fin (map (fun z => 0 + sqrt (CIR.dt m) * z)
                  (fst (standard_normal g n_paths))),
     snd (standard_normal g n_paths)).
Proof.
  intros Hdt. unfold np_random_normal.
  destruct (standard_normal g n_paths) as [zs g1]. cbn [fst snd].
  rewrite np_sqrt_nonneg by exact Hdt. rewrite map_map. reflexivity.
Qed.

Lemma rng_after_S g t :
  rng_after n_paths g (S t)
  = rng_after n_paths (snd (standard_normal g n_paths)) t.
Proof. unfold rng_after. apply Nat.iter_succ_r. Qed.

(** The columns filled by the simulation loop, read as reals: every
    entry is the [update] of the entry to its left in the same path,
    with the increment drawn for that path at that step. *)
Lemma simulate_loop_draws steps : forall xs g cols g',
  0 <= CIR.dt m ->
  length xs = n_paths ->
  CIR.simulate_loop m n_paths steps (map Fin xs) g = Ok (cols, g') ->
  exists colsR,
    cols = map (map Fin) colsR /\ length colsR = steps /\
    g' = rng_after n_paths g steps /\
    Forall (fun col => length col = n_paths /\ Forall (fun y => 0 <= y) col)
           colsR /\
    forall t p, (t < steps)%nat -> (p < n_paths)%nat ->
      nth p (nth t colsR []) 0
      = update (nth p (nth t (xs :: colsR) []) 0)
               (drawn_increment n_paths (CIR.dt m) g t p).
Proof.
  induction steps as [| k IH]; intros xs g cols g' Hdt Hlen Hrun.
  - cbn in Hrun. injection Hrun as <- <-. exists [].
    repeat split; [constructor | intros t p Ht; lia].
  - cbn [CIR.simulate_loop] in Hrun.
    rewrite (normal_draws_explicit g Hdt) in Hrun.
    pose proof (standard_normal_length g n_paths) as Hzl.
    set (zs := fst (standard_normal g n_paths)) in *.
    set (g1 := snd (standard_normal g n_paths)) in *.
    set (dWs := map (fun z => 0 + sqrt (CIR.dt m) * z) zs) in *.
    assert (Hdl : length dWs = n_paths) by (unfold dWs; now rewrite length_map).
    destruct (CIR.float_div _ _) as [d | e |]; cbn [bind] in Hrun;
      try discriminate.
    set (ys := map (fun rw => update (fst rw) (snd rw)) (combine xs dWs)).
    assert (Hcol : map (fun rw => CIR.euler_step m (fst rw) (snd rw))
                     (combine (map Fin xs) (map Fin dWs)) = map Fin ys).
    { unfold ys. clear - Hdt. generalize dWs. clear dWs.
      induction xs as [| x xs IHx]; intros [| z dWs];
        cbn [map combine fst snd]; try reflexivity.
      rewrite euler_step_fin by exact Hdt. f_equal. apply IHx. }
    rewrite Hcol in Hrun.
    assert (Hyl : length ys = n_paths).
    { unfold ys. rewrite length_map, length_combine. lia. }
    destruct (CIR.simulate_loop m n_paths k (map Fin ys) g1)
      as [[rest g2] | e |] eqn:Hrest; cbn [bind] in Hrun; try discriminate.
    injection Hrun as <- <-.
    destruct (IH ys g1 rest g2 Hdt Hyl Hrest)
      as (restR & -> & Hl & Hg & Hall & Hup).
    exists (ys :: restR). cbn [fst snd map length].
    split; [reflexivity |]. split; [lia |]. split.
    { rewrite rng_after_S. exact Hg. }
    split.
    { constructor; [| exact Hall]. split; [exact Hyl |].
      unfold ys. apply Forall_forall. intros y Hy.
      apply in_map_iff in Hy as ([x z] & <- & _). apply update_nonneg. }
    intros [| t] p Ht Hp.
    + cbn [nth]. unfold ys, drawn_increment. cbn [rng_after Nat.iter].
      rewrite (nth_indep _ 0 (update (fst (0, 0)) (snd (0, 0))))
        by (rewrite length_map, length_combine; lia).
      rewrite (map_nth (fun rw => update (fst rw) (snd rw))).
      rewrite combine_nth by lia. cbn [fst snd]. f_equal.
      unfold dWs.
      rewrite (nth_indep _ 0 (0 + sqrt (CIR.dt m) * 0))
        by (rewrite length_map; fold zs; lia).
      rewrite (map_nth (fun z => 0 + sqrt (CIR.dt m) * z)). reflexivity.
    + cbn [nth]. rewrite (Hup t p) by lia.
      unfold drawn_increment. rewrite rng_after_S. reflexivity.
Qed.

(** Reading an entry of a row that is made of one entry per column. *)
Lemma nth_of_columns p (cols : list (list R)) t :
  (t < length cols)%nat ->
  nth t (map (fun col => nth p col 0) cols) 0 = nth p (nth t cols []) 0.
Proof.
  intros Ht.
  rewrite (nth_indep _ 0 (nth p [] 0)) by now rewrite length_map.
  apply (map_nth (fun col => nth p col 0)).
Qed.

(** Row [p] of the array, from columns of [n_paths] entries. *)
Lemma row_of_columns p (colsR : list (list R)) :
  (p < n_paths)%nat ->
  Forall (fun col => length col = n_paths) colsR ->
  map (fun col => nth p col NaN) (map (map Fin) colsR)
  = map Fin (map (fun col => nth p col 0) colsR).
Proof.
  intros Hp. induction 1 as [| col rest Hc _ IH]; cbn [map]; [reflexivity |].
  f_equal; [| exact IH].
  rewrite (nth_indep _ NaN (Fin 0)) by (rewrite length_map; lia).
  apply map_nth.
Qed.

End SimulatedPaths.

(** What a successful construction establishes. *)
Lemma init_inversion r0 kappa theta sigma timesteps time_horizon m :
  CIR.init r0 kappa theta sigma timesteps time_horizon = Ok m ->
  0 < r0 /\ sigma ^ 2 < 2 * kappa * theta /\ timesteps <> 0%Z /\
  m = CIR.mk (Fin r0) kappa theta sigma timesteps time_horizon
        (time_horizon / IZR timesteps).
Proof.
  unfold CIR.init, CIR.base_init.
  destruct (Rle_dec r0 0); [discriminate |].
  destruct (Rle_dec (2 * kappa * theta) (sigma ^ 2)); [discriminate |].
  destruct (Z.eq_dec timesteps 0); [discriminate |].
  intros E. injection E as <-. repeat split; try lra. assumption.
Qed.

Lemma init_succeeds r0 kappa theta sigma timesteps time_horizon :
  0 < r0 -> sigma ^ 2 < 2 * kappa * theta -> timesteps <> 0%Z ->
  CIR.init r0 kappa theta sigma timesteps time_horizon
  = Ok (CIR.mk (Fin r0) kappa theta sigma timesteps time_horizon
          (time_horizon / IZR timesteps)).
Proof.
  intros H0 HF Ht. unfold CIR.init, CIR.base_init.
  destruct (Rle_dec r0 0); [lra |].
  destruct (Rle_dec (2 * kappa * theta) (sigma ^ 2)); [lra |].
  destruct (Z.eq_dec timesteps 0); [contradiction | reflexivity].
Qed.

Lemma simulate_loop_returns `{NumpyRandom} (m : CIR.t) (n_paths : nat) :
  CIR.sigma m <> 0 ->
  forall steps col g, returns (CIR.simulate_loop m n_paths steps col g).
Proof.
  intros Hs. induction steps as [| k IH]; intros col g.
  - eexists; reflexivity.
  - cbn [CIR.simulate_loop].
    destruct (np_random_normal _ _ n_paths g) as [dW g1].
    unfold CIR.float_div. destruct (Req_dec_T (CIR.sigma m ^ 2) 0) as [E | _].
    { exfalso. apply Hs. nra. }
    cbn [bind].
    destruct (IH (map (fun rw => CIR.euler_step m (fst rw) (snd rw))
                      (combine col dW)) g1) as [[rest g2] ->].
    eexists; reflexivity.
Qed.

(** [simulate_rates] returns an array as soon as [sigma] is not zero, the
    number of time steps is not negative and the seed, if any, is
    accepted. *)
Lemma simulate_rates_returns `{NumpyRandom} (m : CIR.t) n_paths seed g :
  CIR.sigma m <> 0 -> (0 <= CIR.timesteps m)%Z ->
  (forall s, seed = Some s -> returns (np_random_seed s)) ->
  returns (CIR.simulate_rates m n_paths seed g).
Proof.
  intros Hs Ht Hseed. unfold CIR.simulate_rates.
  assert (Hg : returns (match seed with
                        | Some s => np_random_seed s
                        | None => Ok g
                        end)).
  { destruct seed as [s |]; [now apply Hseed | eexists; reflexivity]. }
  destruct Hg as [g0 ->]. cbn [bind].
  destruct (Z_lt_dec (CIR.timesteps m + 1) 0); [lia |].
  destruct (Z.eq_dec (CIR.timesteps m + 1) 0); [lia |].
  match goal with
  | |- context [CIR.simulate_loop ?a ?b ?c ?d ?e] =>
      destruct (simulate_loop_returns a b Hs c d e) as [[cols g1] ->]
  end.
  eexists; reflexivity.
Qed.

(** C4 (as the code has it).  For every model constructed with [r0 > 0]
    under the Feller condition, on a time grid of non-negative horizon,
    the array returned by [simulate_rates] has [n_paths] rows of
    [timesteps + 1] finite, non-negative entries, for every
    [n_paths >= 1] and every seed.  Each row starts at [r0], and its
    entry at step [t + 1] is
    [max(0, r + kappa (theta - max(0, r)) dt + sigma sqrt(max(0, r) dt) dW)]
    of its entry [r] at step [t], where [dW] is [sqrt(dt)] times the
    standard normal deviate that the generator, started from the seeded
    state (or from its state at the call, without a seed), draws for
    that path at that step. *)
Theorem simulate_rates_nonnegative `{NumpyRandom}
  (r0 kappa theta sigma : R) (timesteps : Z) (time_horizon : R) (m : CIR.t)
  (n_paths : nat) (seed : option Z) (g : rng)
  (rates : list (list npfloat)) (g' : rng) :
  CIR.init r0 kappa theta sigma timesteps time_horizon = Ok m ->
  0 <= time_horizon ->
  (1 <= n_paths)%nat ->
  CIR.simulate_rates m n_paths seed g = Ok (rates, g') ->
  exists g0,
    match seed with
    | Some s => np_random_seed s = Ok g0
    | None => g0 = g
    end /\
    length rates = n_paths /\
    forall p, (p < n_paths)%nat ->
      exists xs,
        nth p rates [] = map Fin xs /\
        length xs = Z.to_nat (timesteps + 1) /\
        Forall (fun x => 0 <= x) xs /\
        nth 0 xs 0 = r0 /\
        forall t, (t < Z.to_nat timesteps)%nat ->
          nth (S t) xs 0
          = cir_update kappa theta sigma (CIR.dt m) (nth t xs 0)
              (drawn_increment n_paths (CIR.dt m) g0 t p).
Proof.
  intros Hinit Hth _ Hrun.
  destruct (init_inversion _ _ _ _ _ _ _ Hinit) as (Hr0 & _ & Hts & ->).
  unfold CIR.simulate_rates in Hrun. cbn [CIR.timesteps CIR.r0] in Hrun.
  assert (Hseed : exists g0,
            match seed with
            | Some s => np_random_seed s
            | None => Ok g
            end = Ok g0 /\
            match seed with
            | Some s => np_random_seed s = Ok g0
            | None => g0 = g
            end).
  { destruct seed as [s |].
    - destruct (np_random_seed s) as [g0 | e' |]; cbn [bind] in Hrun;
        try discriminate. now exists g0.
    - now exists g. }
  destruct Hseed as (g0 & Eg0 & Hg0). rewrite Eg0 in Hrun. cbn [bind] in Hrun.
  exists g0. split; [exact Hg0 |].
  destruct (Z_lt_dec (timesteps + 1) 0); [discriminate |].
  destruct (Z.eq_dec (timesteps + 1) 0); [discriminate |].
  assert (Hpos : (1 <= timesteps)%Z) by lia.
  set (m := CIR.mk _ _ _ _ _ _ _) in *.
  assert (Hdt : 0 <= CIR.dt m).
  { cbn. apply Rmult_le_pos; [exact Hth |].
    apply Rlt_le, Rinv_0_lt_compat, IZR_lt. lia. }
  replace (repeat (Fin r0) n_paths) with (map Fin (repeat r0 n_paths)) in Hrun
    by apply map_repeat.
  match type of Hrun with
  | context [CIR.simulate_loop ?a ?b ?c ?d ?e] =>
      destruct (CIR.simulate_loop a b c d e) as [[cols g1] | e' |] eqn:Hloop
  end; cbn [bind fst snd] in Hrun; try discriminate.
  injection Hrun as <- <-.
  destruct (simulate_loop_draws m n_paths _ _ _ _ _ Hdt
              (repeat_length r0 n_paths) Hloop)
    as (colsR & -> & Hl & _ & Hall & Hup).
  unfold rows_of_columns. split; [now rewrite length_map, length_seq |].
  intros p Hp.
  set (xs0 := repeat r0 n_paths) in *.
  assert (Hcols : Forall (fun col => length col = n_paths) (xs0 :: colsR)).
  { constructor; [apply repeat_length |].
    eapply Forall_impl; [| exact Hall]. cbn beta. intros col Hc. apply Hc. }
  exists (map (fun col => nth p col 0) (xs0 :: colsR)).
  split; [| split; [| split; [| split]]].
  - rewrite (nth_indep _ []
               ((fun q => map (fun col => nth q col NaN)
                            (map Fin xs0 :: map (map Fin) colsR)) 0%nat))
      by now rewrite length_map, length_seq.
    rewrite (map_nth (fun q => map (fun col => nth q col NaN)
                                 (map Fin xs0 :: map (map Fin) colsR))).
    rewrite seq_nth by exact Hp. cbn [Nat.add].
    exact (row_of_columns n_paths p (xs0 :: colsR) Hp Hcols).
  - rewrite length_map. cbn [length]. rewrite Hl. lia.
  - apply Forall_forall. intros x Hx.
    apply in_map_iff in Hx as (col & <- & Hin).
    destruct Hin as [<- | Hin].
    + unfold xs0. rewrite nth_repeat_lt by exact Hp. lra.
    + rewrite Forall_forall in Hall. destruct (Hall col Hin) as [Hcl Hnn].
      apply Forall_nth; [exact Hnn | lia].
  - cbn [map nth]. unfold xs0. now rewrite nth_repeat_lt by exact Hp.
  - intros t Ht.
    rewrite !nth_of_columns by (cbn [length]; lia).
    cbn [nth]. apply (Hup t p); [lia | exact Hp].
Qed.

Lemma simulate_rates_nonnegative_witness :
  exists m rates g',
    CIR.init 0.03 0.5 0.05 0.01 2 1 = Ok m /\
    CIR.simulate_rates (H := counter_random) m 3 (Some 42%Z) 0%nat
    = Ok (rates, g') /\
    length rates = 3%nat /\
    forall p, (p < 3)%nat ->
      exists xs,
        nth p rates [] = map Fin xs /\
        length xs = 3%nat /\
        Forall (fun x => 0 <= x) xs /\
        nth 0 xs 0 = 0.03 /\
        forall t, (t < 2)%nat ->
          nth (S t) xs 0
          = cir_update 0.5 0.05 0.01 (CIR.dt m) (nth t xs 0)
              (drawn_increment (H := counter_random) 3 (CIR.dt m) 42%nat t p).
Proof.
  assert (Hinit : CIR.init 0.03 0.5 0.05 0.01 2 1
                  = Ok (CIR.mk (Fin 0.03) 0.5 0.05 0.01 2 1 (1 / IZR 2)))
    by (apply init_succeeds; [lra | lra | discriminate]).
  destruct (simulate_rates_returns (H := counter_random)
              (CIR.mk (Fin 0.03) 0.5 0.05 0.01 2 1 (1 / IZR 2))
              3 (Some 42%Z) 0%nat) as [[rates g'] Hrun];
    [cbn; lra | cbn; lia | intros s [= <-]; eexists; reflexivity |].
  eexists. exists rates, g'. split; [exact Hinit |]. split; [exact Hrun |].
  destruct (simulate_rates_nonnegative (H := counter_random)
              0.03 0.5 0.05 0.01 2 1 _ 3
              (Some 42%Z) 0%nat rates g' Hinit)
    as (g0 & Hg0 & Hlen & Hrows); [lra | lia | exact Hrun |].
  cbn in Hg0. injection Hg0 as <-.
  split; [exact Hlen | exact Hrows].
Defined.

(** An increment that is not a number makes the updated rate not a
    number, whatever the rate before it. *)
Lemma euler_step_nan (m : CIR.t) (r : npfloat) : CIR.euler_step m r NaN = NaN.
Proof.
  unfold CIR.euler_step. rewrite np_mul_nan_r.
  destruct (r + _)%np; reflexivity.
Qed.

(** C4 (as stated) fails: the constructor accepts the negative time
    horizon -1 with [r0 = 0.03] under the Feller condition; the time
    step is then negative, its square root is not a number, and the rate
    that [simulate_rates] returns for the first step of the single path
    is NaN, not a non-negative number. *)
Lemma simulate_rates_nan_at_negative_horizon :
  exists m rates g',
    CIR.init 0.03 0.5 0.05 0.01 2 (-1) = Ok m /\
    CIR.simulate_rates (H := counter_random) m 1 (Some 42%Z) 0%nat
    = Ok (rates, g') /\
    nth 1 (nth 0 rates []) (Fin 0) = NaN.
Proof.
  assert (Hinit : CIR.init 0.03 0.5 0.05 0.01 2 (-1)
                  = Ok (CIR.mk (Fin 0.03) 0.5 0.05 0.01 2 (-1) (-1 / IZR 2)))
    by (apply init_succeeds; [lra | lra | discriminate]).
  eexists. do 2 eexists. split; [exact Hinit |].
  set (m := CIR.mk _ _ _ _ _ _ _).
  assert (Hscale : np_sqrt (Fin (CIR.dt m)) = NaN).
  { cbn. destruct (Rlt_dec (-1 / 2) 0); [reflexivity | lra]. }
  assert (Hdiv : CIR.float_div (4 * CIR.kappa m * CIR.theta m)
                   (CIR.sigma m ^ 2) = Ok (4 * 0.5 * 0.05 / 0.01 ^ 2)).
  { unfold CIR.float_div. cbn [CIR.kappa CIR.theta CIR.sigma m].
    destruct (Req_dec_T (0.01 ^ 2) 0); [lra | reflexivity]. }
  unfold CIR.simulate_rates. cbn [np_random_seed counter_random bind].
  change (((0 <=? 42)%Z && (42 <? 2 ^ 32)%Z)%bool) with true. cbn iota.
  cbn [bind CIR.timesteps m].
  destruct (Z_lt_dec (2 + 1) 0); [lia |].
  destruct (Z.eq_dec (2 + 1) 0); [lia |].
  change (Z.to_nat 2) with 2%nat.
  cbn [CIR.simulate_loop repeat]. rewrite Hscale, Hdiv.
  unfold np_random_normal.
  cbn [standard_normal counter_random seq map combine fst snd bind np_mul
       np_add rows_of_columns nth].
  split; [reflexivity |]. cbn [nth]. apply euler_step_nan.
Qed.

(** C8.  With a seed, the result of [simulate_rates] does not depend on
    the state of the global generator at the call.  In particular the
    second of two successive calls with the same seed and number of
    paths, which starts from the state the first call left, returns the
    same array, element for element. *)
Theorem simulate_rates_seeded_deterministic `{NumpyRandom}
  (m : CIR.t) (n_paths : nat) (seed : Z) (g : rng) :
  (forall g', CIR.simulate_rates m n_paths (Some seed) g'
              = CIR.simulate_rates m n_paths (Some seed) g) /\
  (forall rates1 g1,
      CIR.simulate_rates m n_paths (Some seed) g = Ok (rates1, g1) ->
      exists g2,
        CIR.simulate_rates m n_paths (Some seed) g1 = Ok (rates1, g2)).
Proof.
  split.
  - intros g'. reflexivity.
  - intros rates1 g1 Hrun. exists g1. exact Hrun.
Qed.

Lemma simulate_rates_seeded_deterministic_witness :
  exists rates1 g1 g2,
    CIR.simulate_rates (H := counter_random) cir_example 10 (Some 42%Z) 7%nat
    = Ok (rates1, g1) /\
    CIR.simulate_rates (H := counter_random) cir_example 10 (Some 42%Z) g1
    = Ok (rates1, g2).
Proof.
  destruct (simulate_rates_returns (H := counter_random)
              cir_example 10 (Some 42%Z) 7%nat)
    as [[rates1 g1] Hrun];
    [cbn; lra | cbn; lia | intros s [= <-]; eexists; reflexivity |].
  destruct (simulate_rates_seeded_deterministic (H := counter_random)
              cir_example 10 42 7%nat)
    as [_ Hsecond].
  destruct (Hsecond rates1 g1 Hrun) as [g2 Hrun2].
  exists rates1, g1, g2. split; assumption.
Defined.

(** ** The expiry check of the swaption pricer *)

Lemma swaption_price_early_expiry p v e s1 s2 K fq N vol payer :
  e < s1 ->
  SwaptionPricer.price p v e s1 s2 K fq N vol payer = Raise ValueError.
Proof.
  intros H. unfold SwaptionPricer.price. now destruct (Rlt_dec e s1).
Qed.

(** An expiry date after the start of the swap passes the check. *)
Lemma swaption_price_late_expiry p v e s1 s2 K fq N vol payer :
  s1 <= e ->
  SwaptionPricer.price p v e s1 s2 K fq N vol payer
  = SwaptionPricer.valuation p v e s1 s2 K fq N vol payer.
Proof.
  intros H. unfold SwaptionPricer.price. destruct (Rlt_dec e s1); [lra |].
  reflexivity.
Qed.

Lemma np_arange_returns start stop step :
  step <> 0 -> returns (np_arange start stop step).
Proof.
  intros Hs. unfold np_arange. destruct (Req_dec_T step 0); [contradiction |].
  eexists; reflexivity.
Qed.

Lemma cir_zero_coupon_returns (m : CIR.t) t T r :
  CIR.sigma m <> 0 -> returns (CIR.zero_coupon_bond_price m t T r).
Proof.
  intros Hs. unfold CIR.zero_coupon_bond_price, CIR.float_div.
  destruct (Rge_dec t T); [eexists; reflexivity |].
  destruct (Req_dec_T (CIR.sigma m ^ 2) 0) as [E | _].
  { exfalso. apply Hs. nra. }
  eexists; reflexivity.
Qed.

Lemma annuity_loop_returns (m : rate_model) v fq N :
  (forall t T r, returns (rm_zero_coupon_bond_price m t T r)) ->
  forall dates acc, returns (SwaptionPricer.annuity_loop m v fq N dates acc).
Proof.
  intros Hz. induction dates as [| d rest IH]; intros acc; cbn.
  - eexists; reflexivity.
  - destruct (Hz v d (rm_r0 m)) as [df ->]. cbn [bind]. apply IH.
Qed.

(** C2, at an expiry date after the start of the underlying swap:
    [price(valuation_date=0, expiry_date=2, underlying_swap_start=1,
    underlying_swap_end=3, strike=0.03)] raises nothing; it is the Black
    valuation and returns a price. *)
Theorem swaption_price_accepts_expiry_after_start :
  SwaptionPricer.price swaption_pricer_example 0 2 1 3 (PyFloat (Fin 0.03))
    0.5 1 None true
  = SwaptionPricer.valuation swaption_pricer_example 0 2 1 3
      (PyFloat (Fin 0.03)) 0.5 1 None true
  /\ returns (SwaptionPricer.price swaption_pricer_example 0 2 1 3
                (PyFloat (Fin 0.03)) 0.5 1 None true).
Proof.
  assert (E : SwaptionPricer.price swaption_pricer_example 0 2 1 3
                (PyFloat (Fin 0.03)) 0.5 1 None true
              = SwaptionPricer.valuation swaption_pricer_example 0 2 1 3
                  (PyFloat (Fin 0.03)) 0.5 1 None true)
    by (apply swaption_price_late_expiry; lra).
  split; [exact E |]. rewrite E.
  unfold SwaptionPricer.valuation, swaption_pricer_example.
  cbn [SwaptionPricer.par_rate SwaptionPricer.rate_model_of bind].
  destruct (np_arange_returns (1 + 0.5) (3 + eps) 0.5) as [dates ->]; [lra |].
  cbn [bind].
  destruct (annuity_loop_returns (CIR.as_rate_model cir_example) 0 0.5 1)
    with (dates := dates) (acc := Fin 0) as [A HA].
  { intros t T r. apply cir_zero_coupon_returns. cbn. lra. }
  rewrite HA. cbn [bind].
  apply (black_formulas_return (NpFloat64 (Fin 0.03)) (PyFloat (Fin 0.03))
           0.03 0.03 (py_max 0 (2 - 0)) (CapFloorPricer.vol_or_default None)
           (Fin 1) A 1 1 true eq_refl eq_refl).
  lra.
Qed.

(** ** Cap-floor parity *)

Section Parity.

Import CapFloorPricer.

Lemma ln_ratio_sign f k :
  0 < f -> 0 < k ->
  (k < f -> 0 < ln (f / k)) /\ (f < k -> ln (f / k) < 0).
Proof.
  intros Hf Hk.
  assert (Hr : 0 < f / k) by (apply Rdiv_lt_0_compat; assumption).
  split; intros H; rewrite <- ln_1.
  - apply ln_increasing; [lra |].
    apply Rmult_lt_reg_r with k; [exact Hk |]. field_simplify; lra.
  - apply ln_increasing; [exact Hr |].
    apply Rmult_lt_reg_r with k; [exact Hk |]. field_simplify; lra.
Qed.

(** One period: the caplet minus the floorlet is the discounted
    forward-minus-strike flow, unless the time to fixing is positive, the
    volatility zero and the forward rate equal to the strike. *)
Lemma caplet_floorlet_parity (F K : pynum) f k tau vol df N D :
  num_val F = Fin f -> num_val K = Fin k -> 0 < f -> 0 < k ->
  (0 < tau -> vol <> 0 \/ f <> k) ->
  exists c fl,
    black_price_caplet F K tau vol (Fin df) N D = Ok (Fin c) /\
    black_price_floorlet F K tau vol (Fin df) N D = Ok (Fin fl) /\
    c - fl = df * N * D * (f - k).
Proof.
  intros HF HK Hf Hk Hdom.
  unfold black_price_caplet, black_price_floorlet.
  destruct (Rle_dec tau 0) as [Hle | Hgt].
  - (* at or past the fixing: intrinsic values *)
    rewrite HF, HK. cbn [np_sub np_add np_neg]. rewrite !py_max0_fin.
    cbn [np_mul]. eexists _, _. split; [reflexivity |].
    split; [reflexivity |].
    assert (E : Rmax 0 (f + - k) - Rmax 0 (k + - f) = f - k).
    { unfold Rmax. destruct (Rle_dec 0 (f + - k)), (Rle_dec 0 (k + - f)); lra. }
    replace (f - k) with (Rmax 0 (f + - k) - Rmax 0 (k + - f)). ring.
  - assert (Ht : 0 < tau) by lra.
    assert (Hk0 : k <> 0) by lra.
    assert (Hr : 0 < f / k) by (apply Rdiv_lt_0_compat; assumption).
    rewrite (true_div_fin F K f k HF HK Hk0). cbn [bind].
    rewrite (np_log_pos _ Hr), (np_sqrt_nonneg tau) by lra.
    rewrite HF, HK. cbn [np_add np_mul].
    assert (Hsq : 0 < sqrt tau) by now apply sqrt_lt_R0.
    destruct (Req_dec_T vol 0) as [Hv | Hv].
    + (* zero volatility: d1 and d2 are infinite, of the sign of ln (f / k) *)
      subst vol. destruct (Hdom Ht) as [Hv | Hfk]; [contradiction |].
      destruct (ln_ratio_sign f k Hf Hk) as [Hup Hdown].
      unfold np_div. destruct (Req_dec_T (0 * sqrt tau) 0) as [_ | Hn];
        [| exfalso; apply Hn; ring].
      unfold inf_times.
      destruct (Rtotal_order f k) as [Hlt | [Heq | Hlt]]; [| contradiction |].
      * specialize (Hdown Hlt).
        destruct (Rlt_dec 0 (ln (f / k) + 0 ^ 2 / 2 * tau)); [lra |].
        destruct (Rlt_dec (ln (f / k) + 0 ^ 2 / 2 * tau) 0); [| lra].
        cbn. eexists _, _. split; [reflexivity |]. split; [reflexivity |]. ring.
      * specialize (Hup Hlt).
        destruct (Rlt_dec 0 (ln (f / k) + 0 ^ 2 / 2 * tau)); [| lra].
        cbn. eexists _, _. split; [reflexivity |]. split; [reflexivity |]. ring.
    + (* the Black formula proper *)
      assert (Hden : vol * sqrt tau <> 0).
      { intros E. apply Rmult_integral in E. lra. }
      rewrite (np_div_fin _ _ Hden).
      set (d1 := (ln (f / k) + vol ^ 2 / 2 * tau) / (vol * sqrt tau)).
      cbn [np_sub np_add np_neg np_mul norm_cdf].
      set (d2 := d1 + - (vol * sqrt tau)).
      eexists _, _. split; [reflexivity |]. split; [reflexivity |].
      pose proof (Phi_symmetry d1) as S1. pose proof (Phi_symmetry d2) as S2.
      replace (df * N * D * (f - k))
        with (df * N * D * (f * (Phi d1 + Phi (- d1))
                            - k * (Phi d2 + Phi (- d2))))
        by (rewrite S1, S2; ring).
      ring.
Qed.

(** The two loops side by side, from any finite sums so far. *)
Lemma loops_parity (m : rate_model) v (K : pynum) k fq N vol :
  num_val K = Fin k -> 0 < k ->
  forall dates fixing_start qs accc accf,
    period_quotes m v fixing_start dates qs ->
    Forall (fun q => let '(fs, f, _) := q in
                     0 < f /\
                     (v < fs -> vol_or_default vol <> 0 \/ f <> k)) qs ->
    exists c fl,
      price_cap_loop m v K fq N vol fixing_start dates (Fin accc)
      = Ok (Fin c) /\
      price_floor_loop m v K fq N vol fixing_start dates (Fin accf)
      = Ok (Fin fl) /\
      c - fl = accc - accf + forward_minus_strike_flows k fq N qs.
Proof.
  intros HK Hk dates fixing_start qs accc accf Hq. revert accc accf.
  induction Hq as [fs | fs pd rest F f df qs HF HFv Hdf Hq IH];
    intros accc accf Hall.
  - exists accc, accf. cbn. unfold forward_minus_strike_flows. cbn.
    repeat split; lra.
  - inversion Hall as [| q qs' Hhd Hall' E1]; subst.
    cbn beta iota in Hhd. destruct Hhd as [Hf Hdom].
    cbn [price_cap_loop price_floor_loop]. rewrite HF, Hdf. cbn [bind].
    destruct (caplet_floorlet_parity F K f k (py_max 0 (fs - v))
                (vol_or_default vol) df N fq HFv HK Hf Hk)
      as (c1 & f1 & -> & -> & Hpar).
    { intros Hpos. apply Hdom. rewrite py_max_Rmax in Hpos.
      unfold Rmax in Hpos. destruct (Rle_dec 0 (fs - v)); lra. }
    cbn [bind np_add].
    destruct (IH (accc + c1) (accf + f1) Hall') as (c & fl & Hc & Hfl & Hsum).
    exists c, fl. split; [exact Hc |]. split; [exact Hfl |].
    rewrite Hsum. unfold forward_minus_strike_flows.
    cbn [map np_sum fold_right]. cbn beta iota. rewrite <- Hpar.
    unfold np_sum. ring.
Qed.

End Parity.

(** C7 (as the code has it).  For every schedule and every strike [K]
    with all forward rates [F_i] and [K] positive, and no period that
    combines a positive time to fixing, a zero volatility and
    [F_i = K], [price_cap] minus [price_floor] on identical arguments
    equals the sum over the periods of
    [discount_factor_i * notional * payment_frequency * (F_i - K)]. *)
Theorem cap_floor_parity (m : rate_model)
  (valuation_date start_date end_date : R) (strike : pynum) (k : R)
  (payment_frequency notional : R) (volatility : option R)
  (payment_dates : list R) (qs : list (R * R * R)) :
  np_arange (start_date + payment_frequency) (end_date + eps)
    payment_frequency = Ok payment_dates ->
  period_quotes m valuation_date start_date payment_dates qs ->
  num_val strike = Fin k -> 0 < k ->
  Forall (fun q => let '(_, f, _) := q in 0 < f) qs ->
  Forall (fun q => let '(fixing_start, f, _) := q in
                   valuation_date < fixing_start ->
                   CapFloorPricer.vol_or_default volatility <> 0 \/ f <> k)
         qs ->
  exists cap floor,
    CapFloorPricer.price_cap m valuation_date start_date end_date strike
      payment_frequency notional volatility = Ok (Fin cap) /\
    CapFloorPricer.price_floor m valuation_date start_date end_date strike
      payment_frequency notional volatility = Ok (Fin floor) /\
    cap - floor
    = forward_minus_strike_flows k payment_frequency notional qs.
Proof.
  intros Hdates Hq HK Hk Hpos Hdom.
  unfold CapFloorPricer.price_cap, CapFloorPricer.price_floor.
  rewrite Hdates. cbn [bind].
  destruct (loops_parity m valuation_date strike k payment_frequency notional
              volatility HK Hk payment_dates start_date qs 0 0 Hq)
    as (c & fl & Hc & Hfl & Hsum).
  { clear - Hpos Hdom. induction qs as [| [[fs f] df] qs IH]; constructor.
    - inversion Hpos; inversion Hdom; subst. split; assumption.
    - inversion Hpos; inversion Hdom; subst. now apply IH. }
  exists c, fl. split; [exact Hc |]. split; [exact Hfl |]. lra.
Qed.

Lemma ceilR_eq x z : IZR z - 1 < x <= IZR z -> ceilR x = z.
Proof.
  intros [Hlo Hhi]. unfold ceilR.
  assert (E : (1 - z)%Z = up (- x)).
  { apply tech_up; rewrite minus_IZR; lra. }
  rewrite <- E. lia.
Qed.

(** The schedule of a single half-year period from year 1. *)
Lemma np_arange_one_period :
  np_arange (1 + 0.5) (1.5 + eps) 0.5 = Ok [1 + 0.5 + INR 0 * 0.5].
Proof.
  unfold np_arange. destruct (Req_dec_T 0.5 0); [lra |].
  rewrite (ceilR_eq _ 1); [reflexivity |]. unfold eps. lra.
Qed.

Lemma cap_floor_parity_witness :
  exists cap floor,
    CapFloorPricer.price_cap (flat_curve 0.05) 0 1 1.5 (PyFloat (Fin 0.04))
      0.5 1 None = Ok (Fin cap) /\
    CapFloorPricer.price_floor (flat_curve 0.05) 0 1 1.5 (PyFloat (Fin 0.04))
      0.5 1 None = Ok (Fin floor) /\
    cap - floor
    = forward_minus_strike_flows 0.04 0.5 1 one_period_quotes.
Proof.
  unfold one_period_quotes.
  apply (cap_floor_parity (flat_curve 0.05) 0 1 1.5 (PyFloat (Fin 0.04)) 0.04
           0.5 1 None [1 + 0.5 + INR 0 * 0.5]).
  - exact np_arange_one_period.
  - econstructor; [reflexivity | reflexivity | reflexivity | constructor].
  - reflexivity.
  - lra.
  - constructor; [lra | constructor].
  - constructor; [| constructor]. intros _. left. cbn. lra.
Defined.

(** C7 (as stated) fails: an at-the-money cap and floor (forward rate and
    strike both 5%) priced with zero volatility one year before the
    fixing are both NaN, and so is their difference, while the
    forward-minus-strike cash flows are worth zero. *)
Lemma cap_floor_parity_fails_at_zero_volatility :
  period_quotes (flat_curve 0.05) 0 1 [1 + 0.5 + INR 0 * 0.5]
    one_period_quotes /\
  CapFloorPricer.price_cap (flat_curve 0.05) 0 1 1.5 (PyFloat (Fin 0.05))
    0.5 1 (Some 0) = Ok NaN /\
  CapFloorPricer.price_floor (flat_curve 0.05) 0 1 1.5 (PyFloat (Fin 0.05))
    0.5 1 (Some 0) = Ok NaN /\
  forward_minus_strike_flows 0.05 0.5 1 one_period_quotes = 0 /\
  (NaN - NaN)%np
  <> Fin (forward_minus_strike_flows 0.05 0.5 1 one_period_quotes).
Proof.
  unfold one_period_quotes.
  set (m := flat_curve 0.05). set (K := PyFloat (Fin 0.05)).
  assert (Hd1 : forall x y : R, x = 0 -> y = 0 -> (Fin x / Fin y)%np = NaN).
  { intros x y -> ->. cbn. destruct (Req_dec_T 0 0); [| lra].
    unfold inf_times. destruct (Rlt_dec 0 0); [lra | reflexivity]. }
  assert (Hnum : ln (0.05 / 0.05) + 0 ^ 2 / 2 * py_max 0 (1 - 0) = 0).
  { replace (0.05 / 0.05) with 1 by lra. rewrite ln_1. lra. }
  assert (Hden : 0 * sqrt (py_max 0 (1 - 0)) = 0) by ring.
  assert (Htau : ~ py_max 0 (1 - 0) <= 0).
  { rewrite py_max_Rmax. unfold Rmax. destruct (Rle_dec 0 (1 - 0)); lra. }
  split; [econstructor; [reflexivity | reflexivity | reflexivity | constructor] |].
  unfold CapFloorPricer.price_cap, CapFloorPricer.price_floor.
  rewrite np_arange_one_period.
  cbn [bind CapFloorPricer.price_cap_loop CapFloorPricer.price_floor_loop
       rm_forward_rate rm_zero_coupon_bond_price rm_r0 m flat_curve
       CapFloorPricer.vol_or_default].
  unfold CapFloorPricer.black_price_caplet, CapFloorPricer.black_price_floorlet.
  destruct (Rle_dec (py_max 0 (1 - 0)) 0); [contradiction |].
  cbn [true_div K num_val]. rewrite np_div_fin by lra. cbn [bind].
  rewrite np_log_pos by lra.
  rewrite np_sqrt_nonneg by lra.
  cbn [np_add np_mul]. rewrite (Hd1 _ _ Hnum Hden).
  cbn [np_sub np_add np_neg norm_cdf np_mul].
  rewrite !np_mul_nan_r. cbn.
  repeat split; try discriminate.
  unfold forward_minus_strike_flows. cbn. lra.
Qed.

(** ** The yield-to-maturity bisection *)

Section YieldToMaturity.

Import BondPricer.

Lemma coupon_dates_returns v M fq :
  fq <> 0 -> returns (coupon_dates v M fq).
Proof.
  intros Hfq. unfold coupon_dates.
  destruct (np_arange_returns (v + fq) (M + eps) fq Hfq) as [d1 ->].
  destruct (np_arange_returns fq (M + eps) fq Hfq) as [d2 ->].
  cbn [bind]. destruct (Rgt_dec v 0); eexists; reflexivity.
Qed.

Lemma coupon_dates_zero_frequency v M :
  coupon_dates v M 0 = Raise ZeroDivisionError.
Proof.
  unfold coupon_dates, np_arange.
  destruct (Req_dec_T 0 0); [reflexivity | lra].
Qed.

(** The accumulation loop computes the sum of the discounted coupons. *)
Lemma discount_coupons_sum y ca v dates : forall acc,
  discount_coupons y ca v dates acc
  = acc + np_sum (map (fun d => ca * exp (- y * (d - v))) dates).
Proof.
  induction dates as [| d rest IH]; intros acc; cbn.
  - lra.
  - rewrite IH. unfold np_sum. lra.
Qed.

Lemma price_difference_flat P M c fq N v dates y :
  coupon_dates v M fq = Ok dates ->
  price_difference P M c fq N v y
  = Ok (flat_rate_price_function dates (N * c * fq) N M v P y).
Proof.
  intros Hd. unfold price_difference, flat_rate_price_function.
  rewrite Hd. cbn [bind]. rewrite discount_coupons_sum. f_equal. lra.
Qed.

Lemma bisection_refines (f : R -> result R) (fs : R -> R) precision :
  (forall y, f y = Ok (fs y)) ->
  forall n low high,
    bisection f precision n low high
    = Ok (spec_bisection fs precision n low high).
Proof.
  intros Hf. induction n as [| n IH]; intros low high; cbn.
  - reflexivity.
  - rewrite !Hf. cbn [bind].
    destruct (Rlt_dec (Rabs (fs ((low + high) / 2))) precision);
      [reflexivity |].
    destruct (Rlt_dec (fs ((low + high) / 2) * fs low) 0),
             (Rge_dec (fs ((low + high) / 2) * fs low) 0);
      try lra; apply IH.
Qed.

(** An exception of the price function at the first midpoint is the
    outcome of the search. *)
Lemma bisection_first_raises (f : R -> result R) precision k low high e :
  f ((low + high) / 2) = Raise e ->
  bisection f precision (S k) low high = Raise e.
Proof. intros Hf. cbn [bisection]. rewrite Hf. reflexivity. Qed.

End YieldToMaturity.

(** C5 (as the code has it).  For every maturity after the valuation
    date and every non-zero coupon frequency,
    [calculate_yield_to_maturity] returns, without raising, the result of
    the bisection of the spec on the bracket [[0.0001, 0.5]] against the
    flat-rate price function over the retained coupon dates, for at most
    [max_iterations] iterations. *)
Theorem calculate_yield_to_maturity_is_bisection
  (bond_price maturity coupon_rate frequency notional valuation_date : R)
  (max_iterations : Z) (precision : R) :
  valuation_date < maturity ->
  frequency <> 0 ->
  exists dates,
    BondPricer.coupon_dates valuation_date maturity frequency = Ok dates /\
    BondPricer.calculate_yield_to_maturity bond_price maturity coupon_rate
      frequency notional valuation_date max_iterations precision
    = Ok (spec_bisection
            (flat_rate_price_function dates
               (notional * coupon_rate * frequency) notional maturity
               valuation_date bond_price)
            precision (Z.to_nat max_iterations) 0.0001 0.5).
Proof.
  intros Hm Hfq.
  destruct (coupon_dates_returns valuation_date maturity frequency Hfq)
    as [dates Hd].
  exists dates. split; [exact Hd |].
  unfold BondPricer.calculate_yield_to_maturity.
  destruct (Rle_dec maturity valuation_date); [lra |].
  apply bisection_refines. intros y. now apply price_difference_flat.
Qed.

Lemma calculate_yield_to_maturity_is_bisection_witness :
  exists dates,
    BondPricer.coupon_dates 0 5 1 = Ok dates /\
    BondPricer.calculate_yield_to_maturity 100 5 0.05 1 100 0 100 1e-8
    = Ok (spec_bisection
            (flat_rate_price_function dates (100 * 0.05 * 1) 100 5 0 100)
            1e-8 (Z.to_nat 100) 0.0001 0.5).
Proof.
  apply (calculate_yield_to_maturity_is_bisection 100 5 0.05 1 100 0 100 1e-8);
    lra.
Defined.

(** C5 (as stated) fails: with a coupon frequency of zero the schedule
    cannot be built and the routine raises at its first iteration. *)
Lemma calculate_yield_to_maturity_raises_at_zero_frequency :
  BondPricer.calculate_yield_to_maturity 100 5 0.05 0 100 0 100 1e-8
  = Raise ZeroDivisionError.
Proof.
  unfold BondPricer.calculate_yield_to_maturity.
  destruct (Rle_dec 5 0); [lra |].
  replace (Z.to_nat 100) with (S 99) by reflexivity.
  apply bisection_first_raises. unfold BondPricer.price_difference.
  rewrite coupon_dates_zero_frequency. reflexivity.
Qed.

(** ** Arrays and loops *)

(** Case analysis on the outcome of the first call a result is bound
    to. *)
Ltac bind_inv H :=
  repeat match type of H with
    | bind ?c _ = Ok _ =>
        let E := fresh "E" in
        destruct c eqn:E; cbn [bind] in H; try discriminate H
    end.

Lemma get_Ok {A} (l : list A) i a : get l i = Ok a <-> nth_error l i = Some a.
Proof.
  unfold get. destruct (nth_error l i); split; intros E;
    try discriminate; congruence.
Qed.

Lemma get_returns {A} (l : list A) i : (i < length l)%nat -> returns (get l i).
Proof.
  intros Hi. unfold get, returns.
  destruct (nth_error l i) eqn:E; [eexists; reflexivity |].
  apply nth_error_None in E. lia.
Qed.

Lemma set_returns {A} (l : list A) : forall i v,
  (i < length l)%nat -> returns (set l i v).
Proof.
  induction l as [| a l IH]; intros [| i] v Hi; cbn in *; try lia.
  - eexists; reflexivity.
  - destruct (IH i v ltac:(lia)) as [l' ->]. eexists; reflexivity.
Qed.

(** Writing entry [i] leaves the length and every other entry as they
    were. *)
Lemma set_Ok {A} (l : list A) : forall i v l',
  set l i v = Ok l' ->
  length l' = length l /\
  nth_error l' i = Some v /\
  forall j, j <> i -> nth_error l' j = nth_error l j.
Proof.
  induction l as [| a l IH]; intros [| i] v l' Hs; cbn in Hs;
    try discriminate.
  - injection Hs as <-. repeat split. intros [| j] Hj; [lia | reflexivity].
  - bind_inv Hs. injection Hs as <-.
    destruct (IH _ _ _ E) as (Hl & Hi & Ho).
    cbn. repeat split; [lia | exact Hi |].
    intros [| j] Hj; [reflexivity | apply Ho; lia].
Qed.

Lemma for_each_app {A S} (body : S -> A -> result S) l1 l2 s :
  for_each body (l1 ++ l2) s
  = (s' <- for_each body l1 s ;; for_each body l2 s').
Proof.
  revert s. induction l1 as [| a l1 IH]; intros s; cbn; [reflexivity |].
  destruct (body s a); cbn [bind]; [apply IH | reflexivity | reflexivity].
Qed.

(** A property kept by every pass of the body is kept by the loop. *)
Lemma for_each_invariant {A S} (body : S -> A -> result S) (P : S -> Prop) l :
  (forall s a s', In a l -> P s -> body s a = Ok s' -> P s') ->
  forall s s', P s -> for_each body l s = Ok s' -> P s'.
Proof.
  induction l as [| a l IH]; intros Hbody s s' Hs Hrun; cbn in Hrun.
  - now injection Hrun as <-.
  - bind_inv Hrun. apply IH with (s := a0); try assumption.
    + intros s1 b s2 Hb. apply Hbody. now right.
    + apply (Hbody s a a0); [now left | assumption | assumption].
Qed.

(** A loop whose body returns under an invariant returns. *)
Lemma for_each_returns {A S} (body : S -> A -> result S) (P : S -> Prop) l :
  (forall s a, In a l -> P s -> exists s', body s a = Ok s' /\ P s') ->
  forall s, P s -> exists s', for_each body l s = Ok s' /\ P s'.
Proof.
  induction l as [| a l IH]; intros Hbody s Hs; cbn.
  - exists s. split; [reflexivity | exact Hs].
  - destruct (Hbody s a (or_introl eq_refl) Hs) as (s1 & -> & Hs1).
    cbn [bind]. apply IH; [| exact Hs1].
    intros s2 b Hb. apply Hbody. now right.
Qed.

(** ** The hedging simulation *)

Section Hedging.

Import HedgingSimulator.

Variable sim : HedgingSimulator.t.
Variable T : nat.                    (* the number of time steps *)
Variable time_grid : list R.
Variable rebalance_steps : list Z.

Lemma zeros_costs : costs_only_at_rebalancing T rebalance_steps
    (np_zeros (T + 1)).
Proof.
  unfold np_zeros. split; [apply repeat_length |].
  intros j _ Hj. rewrite (nth_error_nth' _ (Fin 0)) by now rewrite repeat_length.
  now rewrite nth_repeat.
Qed.

(** One pass of the inner loop: the model takes the rate of the step as
    its current rate, and the hedge costs change at most at this step,
    and only if it is a rebalancing step. *)
Lemma step_inversion rates_row m a t m' a' :
  step sim rates_row time_grid rebalance_steps (m, a) t = Ok (m', a') ->
  (exists rate_t, nth_error rates_row t = Some rate_t /\
                  m' = CIR.set_r0 m rate_t) /\
  length (row_hedge_costs a') = length (row_hedge_costs a) /\
  (forall j, j <> t \/ is_rebalance_step t rebalance_steps = false ->
             nth_error (row_hedge_costs a') j
             = nth_error (row_hedge_costs a) j).
Proof.
  intros Hstep. unfold step in Hstep. bind_inv Hstep.
  apply get_Ok in E.
  destruct (is_rebalance_step t rebalance_steps) eqn:Hreb; bind_inv Hstep;
    injection Hstep as <- <-; cbn [row_hedge_costs].
  - match goal with
    | Hs : set (row_hedge_costs a) t _ = Ok _ |- _ =>
        apply set_Ok in Hs; destruct Hs as (Hl & _ & Ho)
    end.
    split; [eauto |]. split; [exact Hl |].
    intros j [Hj | Hj]; [now apply Ho | discriminate].
  - split; [eauto |]. split; reflexivity.
Qed.

Lemma step_keeps_costs rates_row m a t m' a' :
  (1 <= t)%nat ->
  step sim rates_row time_grid rebalance_steps (m, a) t = Ok (m', a') ->
  costs_only_at_rebalancing T rebalance_steps
    (row_hedge_costs a) ->
  costs_only_at_rebalancing T rebalance_steps
    (row_hedge_costs a').
Proof.
  intros Ht Hstep [Hlen Hz].
  destruct (step_inversion _ _ _ _ _ _ Hstep) as (_ & Hl & Ho).
  split; [congruence |].
  intros j Hj Hjl. rewrite Ho; [now apply Hz |].
  destruct Hj as [-> | Hj]; [left; lia |].
  destruct (Nat.eq_dec j t) as [-> | Hne]; [now right | now left].
Qed.

(** The inner loop of one path. *)
Lemma inner_loop_inversion rates_row m0 a0 : forall steps m' a',
  for_each (step sim rates_row time_grid rebalance_steps) (seq 1 steps)
    (m0, a0) = Ok (m', a') ->
  costs_only_at_rebalancing T rebalance_steps
    (row_hedge_costs a0) ->
  costs_only_at_rebalancing T rebalance_steps
    (row_hedge_costs a') /\
  same_but_r0 m' m0 /\
  ((1 <= steps)%nat ->
   exists r, nth_error rates_row steps = Some r /\ m' = CIR.set_r0 m0 r).
Proof.
  induction steps as [| k IH]; intros m' a' Hrun Hc.
  - cbn in Hrun. injection Hrun as <- <-.
    split; [exact Hc |]. split; [intros r; reflexivity | lia].
  - rewrite seq_S, for_each_app in Hrun.
    destruct (for_each _ (seq 1 k) (m0, a0)) as [[m1 a1] | e |] eqn:E;
      cbn [bind for_each] in Hrun; try discriminate.
    destruct (IH m1 a1 eq_refl Hc) as (Hc1 & Hs1 & _).
    destruct (step sim rates_row time_grid rebalance_steps (m1, a1) (1 + k))
      as [[m2 a2] | e |] eqn:Hstep; cbn [bind] in Hrun; try discriminate.
    injection Hrun as <- <-.
    destruct (step_inversion _ _ _ _ _ _ Hstep) as ((r & Hr & ->) & _).
    split; [eapply step_keeps_costs; [| exact Hstep | exact Hc1]; lia |].
    split.
    + intros r'. cbn. apply (Hs1 r').
    + intros _. exists r. split; [exact Hr |]. apply (Hs1 r).
Qed.

(** One path: its hedge costs are zero away from the rebalancing steps
    after step 0, and the model is left with the last rate of the path
    as its current rate. *)
Lemma simulate_path_inversion m rates_row m' a' :
  simulate_path sim T time_grid rebalance_steps m rates_row = Ok (m', a') ->
  costs_only_at_rebalancing T rebalance_steps
    (row_hedge_costs a') /\
  exists r, nth_error rates_row T = Some r /\ m' = CIR.set_r0 m r.
Proof.
  intros Hrun. unfold simulate_path in Hrun. bind_inv Hrun.
  apply get_Ok in E.
  destruct (inner_loop_inversion _ _ _ _ _ _ Hrun) as (Hc & Hs & Hlast).
  { apply zeros_costs. }
  split; [exact Hc |].
  destruct T as [| k] eqn:HT.
  - cbn in Hrun. injection Hrun as <- <-. eauto.
  - destruct Hlast as (r & Hr & ->); [lia |]. eauto.
Qed.

(** The outer loop over the paths. *)
Lemma path_loop_inversion m : forall rates m' rows,
  for_each (path_body sim T time_grid rebalance_steps) rates (m, [])
  = Ok (m', rows) ->
  length rows = length rates /\
  Forall (costs_only_at_rebalancing T rebalance_steps)
    (map row_hedge_costs rows) /\
  same_but_r0 m' m /\
  forall init last_row,
    rates = init ++ [last_row] ->
    exists r, nth_error last_row T = Some r /\ m' = CIR.set_r0 m r.
Proof.
  intros rates. induction rates as [| row rates IH] using rev_ind;
    intros m' rows Hrun.
  - cbn in Hrun. injection Hrun as <- <-. repeat split.
    + constructor.
    + intros init last_row Hnil. now destruct init.
  - rewrite for_each_app in Hrun.
    destruct (for_each _ rates (m, [])) as [[m1 rows1] | e |] eqn:E;
      cbn [bind for_each] in Hrun; try discriminate.
    destruct (IH m1 rows1 eq_refl) as (Hlen & Hall & Hs & _).
    unfold path_body in Hrun at 1. cbn [fst snd] in Hrun.
    destruct (simulate_path sim T time_grid rebalance_steps m1 row)
      as [[m2 a2] | e |] eqn:Hpath; cbn [bind fst snd] in Hrun;
      try discriminate.
    injection Hrun as <- <-.
    destruct (simulate_path_inversion _ _ _ _ Hpath) as (Hc & r & Hr & ->).
    repeat split.
    + rewrite !length_app. cbn. lia.
    + rewrite map_app. apply Forall_app. split; [exact Hall |].
      constructor; [exact Hc | constructor].
    + intros r'. cbn. apply (Hs r').
    + intros init last_row Heq. apply app_inj_tail in Heq as [_ <-].
      exists r. split; [exact Hr |]. apply (Hs r).
Qed.

End Hedging.

(** *** The rebalancing steps *)

Lemma py_int_0 : py_int 0 = 0%Z.
Proof.
  unfold py_int. destruct (Rle_dec 0 0); [| lra].
  symmetry. apply Int_part_spec. cbn. lra.
Qed.

(** Every step collected by the loop comes from a time
    [current_time + k * rebalance_frequency] that the loop visited, all
    times up to it being within the horizon. *)
Lemma rebalance_loop_inversion dt th rf ts : forall fuel ct acc steps,
  HedgingSimulator.rebalance_loop fuel dt th rf ts ct acc = Ok steps ->
  forall z, In z steps ->
    In z acc \/
    exists k : nat,
      (forall j, (j <= k)%nat -> ct + INR j * rf <= th) /\
      z = py_int ((ct + INR k * rf) / dt).
Proof.
  induction fuel as [| fuel IH]; intros ct acc steps Hrun z Hz;
    cbn [HedgingSimulator.rebalance_loop] in Hrun;
    destruct (Rle_dec ct th) as [Hle | Hgt]; try discriminate;
    try (injection Hrun as <-; now left).
  unfold CIR.float_div in Hrun.
  destruct (Req_dec_T dt 0); cbn [bind] in Hrun; [discriminate |].
  destruct (IH _ _ _ Hrun z Hz) as [Hin | (k & Hk & ->)].
  - assert (Hin' : In z acc \/ z = py_int (ct / dt)).
    { destruct (py_int (ct / dt) <=? ts)%Z; [| now left].
      apply in_app_or in Hin as [? | [<- | []]]; [now left | now right]. }
    destruct Hin' as [? | ->]; [now left |]. right. exists 0%nat. split.
    + intros j Hj. replace j with 0%nat by lia. cbn. lra.
    + cbn. do 2 f_equal. lra.
  - right. exists (S k). split.
    + intros [| j] Hj; [cbn; lra |].
      specialize (Hk j ltac:(lia)). rewrite S_INR. lra.
    + rewrite S_INR. do 2 f_equal. lra.
Qed.

(** With a rebalancing period no shorter than the horizon, the loop
    collects step 0 and, when the period is the horizon itself, the
    step of the horizon; nothing else. *)
Lemma rebalance_steps_sparse fuel dt th rf ts steps :
  th <= rf ->
  HedgingSimulator.rebalance_loop fuel dt th rf ts 0 [] = Ok steps ->
  forall z, In z steps ->
    z = 0%Z \/ (rf = th /\ z = py_int (th / dt)).
Proof.
  intros Hrf Hrun z Hz.
  destruct (rebalance_loop_inversion _ _ _ _ _ _ _ _ Hrun z Hz)
    as [[] | (k & Hk & ->)].
  destruct k as [| k].
  - left. cbn. replace ((0 + 0 * rf) / dt) with 0 by (unfold Rdiv; ring).
    apply py_int_0.
  - pose proof (Hk 0%nat ltac:(lia)) as H0.
    pose proof (Hk 1%nat ltac:(lia)) as H1.
    pose proof (Hk (S k) ltac:(lia)) as HS.
    cbn [INR] in H0, H1. rewrite S_INR in HS.
    assert (Erf : rf = th) by lra.
    destruct (Req_dec_T rf 0) as [E0 | Hne].
    + left. rewrite E0. replace ((0 + INR (S k) * 0) / dt) with 0
        by (unfold Rdiv; ring).
      apply py_int_0.
    + right. split; [exact Erf |].
      assert (Hk0 : INR k = 0).
      { pose proof (pos_INR k). nra. }
      rewrite S_INR, Hk0. do 2 f_equal. lra.
Qed.

(** With a positive rebalancing period, [fuel] passes are enough as soon
    as [fuel] periods from the current time exceed the horizon. *)
Lemma rebalance_loop_terminates dt th rf ts :
  dt <> 0 -> 0 < rf ->
  forall fuel ct acc,
    th - ct < INR fuel * rf ->
    returns (HedgingSimulator.rebalance_loop fuel dt th rf ts ct acc).
Proof.
  intros Hdt Hrf. induction fuel as [| fuel IH]; intros ct acc Hf;
    cbn [HedgingSimulator.rebalance_loop];
    destruct (Rle_dec ct th) as [Hle | Hgt];
    try (eexists; reflexivity).
  - cbn in Hf. lra.
  - unfold CIR.float_div. destruct (Req_dec_T dt 0); [contradiction |].
    cbn [bind]. apply IH. rewrite S_INR in Hf. lra.
Qed.

(** *** The shape of the simulated array *)

Lemma simulate_loop_length `{NumpyRandom} (m : CIR.t) n_paths :
  forall steps col g cols g',
    CIR.simulate_loop m n_paths steps col g = Ok (cols, g') ->
    length cols = steps.
Proof.
  induction steps as [| k IH]; intros col g cols g' Hrun;
    cbn [CIR.simulate_loop] in Hrun.
  - now injection Hrun as <- <-.
  - destruct (np_random_normal _ _ n_paths g) as [dW g1].
    bind_inv Hrun. injection Hrun as <- <-.
    destruct a0 as [rest g2]. cbn [fst length]. f_equal. eapply IH; eassumption.
Qed.

Lemma simulate_rates_shape `{NumpyRandom} (m : CIR.t) n_paths seed g rates g' :
  CIR.simulate_rates m n_paths seed g = Ok (rates, g') ->
  (0 <= CIR.timesteps m)%Z /\
  length rates = n_paths /\
  Forall (fun row => length row = (Z.to_nat (CIR.timesteps m) + 1)%nat) rates.
Proof.
  intros Hrun. unfold CIR.simulate_rates in Hrun.
  destruct (match seed with Some s => np_random_seed s | None => Ok g end)
    as [g0 | e' |]; cbn [bind] in Hrun; try discriminate.
  destruct (Z_lt_dec (CIR.timesteps m + 1) 0); [discriminate |].
  destruct (Z.eq_dec (CIR.timesteps m + 1) 0); [discriminate |].
  bind_inv Hrun. injection Hrun as <- <-. destruct a as [cols g1].
  apply simulate_loop_length in E. cbn [fst].
  split; [lia |]. unfold rows_of_columns.
  split; [now rewrite length_map, length_seq |].
  apply Forall_forall. intros row Hrow.
  apply in_map_iff in Hrow as (p & <- & _).
  rewrite length_map. cbn [length]. lia.
Qed.

Lemma np_linspace_length start stop num :
  length (np_linspace start stop num) = num.
Proof. unfold np_linspace. now rewrite length_map, length_seq. Qed.

(** *** What a returned simulation establishes *)

Lemma adapt_horizon_inversion (m m1 : CIR.t) th :
  HedgingSimulator.adapt_horizon m th = Ok m1 ->
  CIR.r0 m1 = CIR.r0 m /\ CIR.kappa m1 = CIR.kappa m /\
  CIR.theta m1 = CIR.theta m /\ CIR.sigma m1 = CIR.sigma m /\
  CIR.dt m1 = CIR.dt m /\ CIR.time_horizon m1 = th /\
  (th = CIR.time_horizon m -> CIR.timesteps m1 = CIR.timesteps m) /\
  (th <> CIR.time_horizon m ->
   CIR.dt m <> 0 /\ CIR.timesteps m1 = py_int (th / CIR.dt m)).
Proof.
  unfold HedgingSimulator.adapt_horizon, CIR.float_div.
  destruct (Req_dec_T th (CIR.time_horizon m)) as [-> | Hne].
  - intros E. injection E as <-.
    do 6 (split; [reflexivity |]). split; [reflexivity |].
    intros Hc. contradiction.
  - destruct (Req_dec_T (CIR.dt m) 0); cbn [bind]; [discriminate |].
    intros E. injection E as <-.
    do 6 (split; [reflexivity |]). split; [intros Hc; contradiction |].
    intros _. split; [assumption | reflexivity].
Qed.

Lemma simulate_inversion `{NumpyRandom} fuel sim m n_paths time_horizon seed g
  res m' g' :
  HedgingSimulator.simulate fuel sim m n_paths time_horizon seed g
  = Ok (res, m', g') ->
  let th := HedgingSimulator.horizon_or_default m time_horizon in
  exists m1 steps rows,
    HedgingSimulator.adapt_horizon m th = Ok m1 /\
    CIR.simulate_rates m1 n_paths seed g
    = Ok (HedgingSimulator.rates res, g') /\
    HedgingSimulator.rebalance_loop fuel (CIR.dt m1) th
      (HedgingSimulator.rebalance_frequency sim) (CIR.timesteps m1) 0 []
    = Ok steps /\
    for_each
      (HedgingSimulator.path_body sim (Z.to_nat (CIR.timesteps m1))
         (np_linspace 0 th (Z.to_nat (CIR.timesteps m1 + 1))) steps)
      (HedgingSimulator.rates res) (m1, []) = Ok (m', rows) /\
    HedgingSimulator.hedge_costs res
    = map HedgingSimulator.row_hedge_costs rows.
Proof.
  intros Hrun th. unfold HedgingSimulator.simulate in Hrun. fold th in Hrun.
  destruct (HedgingSimulator.adapt_horizon m th) as [m1 | e |] eqn:Ha;
    cbn [bind] in Hrun; try discriminate.
  destruct (CIR.simulate_rates m1 n_paths seed g) as [[rates g1] | e |] eqn:Hr;
    cbn [bind fst snd] in Hrun; try discriminate.
  destruct (HedgingSimulator.rebalance_loop _ _ _ _ _ _ _)
    as [steps | e |] eqn:Hs; cbn [bind] in Hrun; try discriminate.
  destruct (for_each _ rates (m1, [])) as [[m2 rows] | e |] eqn:Hp;
    cbn [bind fst snd] in Hrun; try discriminate.
  injection Hrun as <- <- <-. cbn [HedgingSimulator.rates
                                    HedgingSimulator.hedge_costs].
  exists m1, steps, rows. repeat split; assumption.
Qed.

Lemma same_but_r0_fields (m1 m2 : CIR.t) :
  same_but_r0 m1 m2 ->
  CIR.kappa m1 = CIR.kappa m2 /\ CIR.theta m1 = CIR.theta m2 /\
  CIR.sigma m1 = CIR.sigma m2 /\ CIR.timesteps m1 = CIR.timesteps m2 /\
  CIR.time_horizon m1 = CIR.time_horizon m2 /\ CIR.dt m1 = CIR.dt m2.
Proof.
  intros Hs. specialize (Hs NaN). unfold CIR.set_r0 in Hs.
  injection Hs as -> -> -> -> -> ->. repeat split.
Qed.

Lemma is_rebalance_step_In j steps :
  HedgingSimulator.is_rebalance_step j steps = true -> In (Z.of_nat j) steps.
Proof.
  unfold HedgingSimulator.is_rebalance_step. intros Hj.
  apply existsb_exists in Hj as (z & Hz & Heq).
  apply Z.eqb_eq in Heq. now subst.
Qed.

(** Where the hedge costs of a returned simulation can be non-zero when
    the rebalancing period is no shorter than the horizon. *)
Lemma hedge_costs_sparse `{NumpyRandom}
  (fuel : nat) (sim : HedgingSimulator.t) (m : CIR.t) (n_paths : nat)
  (time_horizon : option R) (seed : option Z) (g : rng)
  (res : HedgingSimulator.results npfloat) (m' : CIR.t) (g' : rng) :
  HedgingSimulator.simulate fuel sim m n_paths time_horizon seed g
  = Ok (res, m', g') ->
  let th := HedgingSimulator.horizon_or_default m time_horizon in
  th <= HedgingSimulator.rebalance_frequency sim ->
  length (HedgingSimulator.hedge_costs res) = n_paths /\
  Forall (fun costs =>
            length costs = (Z.to_nat (CIR.timesteps m') + 1)%nat /\
            nth_error costs 0 = Some (Fin 0) /\
            (forall j v,
                nth_error costs j = Some v -> v <> Fin 0 ->
                HedgingSimulator.rebalance_frequency sim = th /\
                Z.of_nat j = py_int (th / CIR.dt m)) /\
            (forall i j vi vj,
                nth_error costs i = Some vi -> vi <> Fin 0 ->
                nth_error costs j = Some vj -> vj <> Fin 0 -> i = j))
         (HedgingSimulator.hedge_costs res).
Proof.
  intros Hrun th Hrf.
  destruct (simulate_inversion _ _ _ _ _ _ _ _ _ _ Hrun)
    as (m1 & steps & rows & Ha & Hr & Hs & Hp & ->).
  fold th in Ha, Hs, Hp.
  destruct (adapt_horizon_inversion _ _ _ Ha) as (_ & _ & _ & _ & Hdt & _).
  destruct (simulate_rates_shape _ _ _ _ _ _ Hr) as (_ & Hn & _).
  destruct (path_loop_inversion _ _ _ _ _ _ _ _ Hp) as (Hlen & Hall & Hsame & _).
  destruct (same_but_r0_fields _ _ Hsame) as (_ & _ & _ & Hts & _).
  split; [rewrite length_map; congruence |].
  rewrite Hts. rewrite <- Hdt.
  eapply Forall_impl; [| exact Hall]. intros costs [Hl Hz].
  assert (Hnz : forall j v,
             nth_error costs j = Some v -> v <> Fin 0 ->
             HedgingSimulator.rebalance_frequency sim = th /\
             Z.of_nat j = py_int (th / CIR.dt m1)).
  { intros j v Hj Hv.
    assert (Hjl : (j < Z.to_nat (CIR.timesteps m1) + 1)%nat).
    { rewrite <- Hl. apply nth_error_Some. congruence. }
    destruct (HedgingSimulator.is_rebalance_step j steps) eqn:Hreb.
    - apply is_rebalance_step_In in Hreb.
      destruct (rebalance_steps_sparse _ _ _ _ _ _ Hrf Hs _ Hreb)
        as [H0 | [E1 E2]]; [| now split].
      exfalso. apply Hv. assert (j = 0%nat) by lia. subst j.
      rewrite Hz in Hj by (auto; lia). congruence.
    - exfalso. apply Hv. rewrite Hz in Hj by auto. congruence. }
  split; [exact Hl |]. split; [apply Hz; [now left | lia] |].
  split; [exact Hnz |].
  intros i j vi vj Hi Hvi Hj Hvj.
  destruct (Hnz i vi Hi Hvi) as [_ Ei]. destruct (Hnz j vj Hj Hvj) as [_ Ej].
  lia.
Qed.

(** C10.  When [simulate] returns after simulating at least one path,
    the rate model it shares with its callers is left with the last
    simulated rate of the last path as its current rate [r0], with the
    horizon of the simulation as its [time_horizon] and, when that
    horizon differs from the one the model had, with
    [int(time_horizon / dt)] as its [timesteps]; the other fields are
    those it had. *)
Theorem simulate_overwrites_rate_model `{NumpyRandom}
  (fuel : nat) (sim : HedgingSimulator.t) (m : CIR.t) (n_paths : nat)
  (time_horizon : option R) (seed : option Z) (g : rng)
  (res : HedgingSimulator.results npfloat) (m' : CIR.t) (g' : rng) :
  (1 <= n_paths)%nat ->
  HedgingSimulator.simulate fuel sim m n_paths time_horizon seed g
  = Ok (res, m', g') ->
  let th := HedgingSimulator.horizon_or_default m time_horizon in
  (exists row r,
      nth_error (HedgingSimulator.rates res) (n_paths - 1) = Some row /\
      nth_error row (Z.to_nat (CIR.timesteps m')) = Some r /\
      CIR.r0 m' = r) /\
  CIR.time_horizon m' = th /\
  (th <> CIR.time_horizon m -> CIR.timesteps m' = py_int (th / CIR.dt m)) /\
  (th = CIR.time_horizon m -> CIR.timesteps m' = CIR.timesteps m) /\
  CIR.kappa m' = CIR.kappa m /\ CIR.theta m' = CIR.theta m /\
  CIR.sigma m' = CIR.sigma m /\ CIR.dt m' = CIR.dt m.
Proof.
  intros Hn Hrun th.
  destruct (simulate_inversion _ _ _ _ _ _ _ _ _ _ Hrun)
    as (m1 & steps & rows & Ha & Hr & Hs & Hp & _).
  fold th in Ha, Hs, Hp.
  destruct (adapt_horizon_inversion _ _ _ Ha)
    as (_ & Hk & Hth & Hsg & Hdt & Hh & Hsame_h & Hdiff_h).
  destruct (simulate_rates_shape _ _ _ _ _ _ Hr) as (_ & Hlen & _).
  destruct (path_loop_inversion _ _ _ _ _ _ _ _ Hp)
    as (_ & _ & Hsame & Hlast).
  destruct (same_but_r0_fields _ _ Hsame) as (Ek & Et & Es & Ets & Eh & Ed).
  split.
  - destruct (exists_last (l := HedgingSimulator.rates res))
      as (init & last_row & Hrates).
    { intros Hnil. rewrite Hnil in Hlen. cbn in Hlen. lia. }
    destruct (Hlast init last_row Hrates) as (r & Hr' & ->).
    exists last_row, r. rewrite Hrates in Hlen |- *.
    rewrite length_app in Hlen. cbn in Hlen.
    split; [| split; [exact Hr' | reflexivity]].
    rewrite nth_error_app2 by lia.
    replace (n_paths - 1 - length init)%nat with 0%nat by lia. reflexivity.
  - repeat split; try congruence.
    + intros Hne. destruct (Hdiff_h Hne) as [_ E]. congruence.
    + intros He. rewrite Ets. now apply Hsame_h.
Qed.

(** *** The simulation returns *)

Section HedgingReturns.

Import HedgingSimulator.

Variable sim : HedgingSimulator.t.
Variable T : nat.
Variable time_grid : list R.
Variable rebalance_steps : list Z.

Hypothesis price_returns : forall m d, returns (instrument_price sim m d).
Hypothesis ratio_returns : forall d r, returns (compute_hedge_ratio sim d r).
Hypothesis grid_length : length time_grid = (T + 1)%nat.

(** Reads and writes inside the arrays succeed. *)
Ltac ok_get :=
  match goal with
  | |- context [bind (get ?l ?i) _] =>
      let v := fresh "v" in
      let E := fresh "E" in
      destruct (get_returns l i) as [v E];
      [ lia | rewrite E; cbn [bind] ]
  end.

Ltac ok_set :=
  match goal with
  | |- context [bind (set ?l ?i ?x) _] =>
      let l' := fresh "l" in
      let E := fresh "E" in
      let Hl := fresh "Hl" in
      destruct (set_returns l i x) as [l' E];
      [ lia
      | rewrite E; cbn [bind]; apply set_Ok in E; destruct E as (Hl & _ & _) ]
  end.

Lemma step_returns rates_row m a t :
  (1 <= t <= T)%nat ->
  length rates_row = (T + 1)%nat ->
  rows_length (T + 1) a ->
  exists s', step sim rates_row time_grid rebalance_steps (m, a) t = Ok s' /\
             rows_length (T + 1) (snd s').
Proof.
  intros Ht Hrow (H1 & H2 & H3 & H4 & H5). unfold step.
  ok_get. ok_get.
  destruct (price_returns (CIR.set_r0 m v) v0) as [value ->]. cbn [bind].
  ok_set. ok_get. ok_set. ok_get. ok_get. ok_get. ok_get.
  destruct (is_rebalance_step t rebalance_steps).
  - destruct (ratio_returns v0 v) as [ratio ->]. cbn [bind].
    ok_set. ok_set. ok_get. ok_set.
    eexists. split; [reflexivity |]. repeat split; cbn; congruence.
  - ok_set. ok_get. ok_set.
    eexists. split; [reflexivity |]. repeat split; cbn; congruence.
Qed.

Lemma simulate_path_returns m rates_row :
  length rates_row = (T + 1)%nat ->
  returns (simulate_path sim T time_grid rebalance_steps m rates_row).
Proof.
  intros Hrow. unfold simulate_path.
  assert (Hz : length (np_zeros (T + 1)) = (T + 1)%nat)
    by apply repeat_length.
  ok_get. ok_get.
  destruct (price_returns (CIR.set_r0 m v) v0) as [value ->]. cbn [bind].
  ok_set.
  destruct (ratio_returns v0 v) as [ratio ->]. cbn [bind].
  ok_set. ok_set. ok_set.
  match goal with
  | |- returns (for_each ?body ?l ?st) =>
      assert (Hloop : exists s', for_each body l st = Ok s' /\
                                 rows_length (T + 1) (snd s'))
  end.
  { apply (for_each_returns _ (fun s => rows_length (T + 1) (snd s))).
    - intros [m1 a1] t Hin Ha. apply in_seq in Hin.
      apply step_returns; [lia | exact Hrow | exact Ha].
    - repeat split; cbn; congruence. }
  destruct Hloop as (s' & Hs' & _). eexists; eassumption.
Qed.

Lemma path_loop_returns rates :
  Forall (fun row => length row = (T + 1)%nat) rates ->
  forall s,
    returns (for_each (path_body sim T time_grid rebalance_steps) rates s).
Proof.
  intros Hall s.
  assert (Hloop : exists s',
             for_each (path_body sim T time_grid rebalance_steps) rates s
             = Ok s' /\ True).
  { apply (for_each_returns _ (fun _ => True)); [| exact I].
    intros s1 row Hin _. unfold path_body.
    destruct (simulate_path_returns (fst s1) row) as [[m1 a1] ->].
    { rewrite Forall_forall in Hall. now apply Hall. }
    cbn [bind]. eexists. split; [reflexivity | exact I]. }
  destruct Hloop as (s' & Hs' & _). eexists; eassumption.
Qed.

End HedgingReturns.

(** [simulate] returns when the instrument's price and the hedging
    strategy do, the model is non-degenerate ([sigma] and [dt] not
    zero, a number of steps that is not negative), the seed, if any, is
    accepted, the rebalancing period is positive and the bound on the
    [while] loop is large enough. *)
Lemma simulate_returns `{NumpyRandom} fuel sim m n_paths time_horizon seed g :
  (forall m d, returns (HedgingSimulator.instrument_price sim m d)) ->
  (forall d r, returns (HedgingSimulator.compute_hedge_ratio sim d r)) ->
  CIR.sigma m <> 0 -> CIR.dt m <> 0 ->
  0 < HedgingSimulator.rebalance_frequency sim ->
  let th := HedgingSimulator.horizon_or_default m time_horizon in
  (0 <= CIR.timesteps m)%Z -> (0 <= py_int (th / CIR.dt m))%Z ->
  (forall s, seed = Some s -> returns (np_random_seed s)) ->
  th < INR fuel * HedgingSimulator.rebalance_frequency sim ->
  returns (HedgingSimulator.simulate fuel sim m n_paths time_horizon seed g).
Proof.
  intros Hprice Hratio Hsig Hdt Hrf th Hts Hts' Hseed Hfuel.
  unfold HedgingSimulator.simulate. fold th.
  assert (Ha : exists m1, HedgingSimulator.adapt_horizon m th = Ok m1 /\
                          CIR.sigma m1 = CIR.sigma m /\
                          CIR.dt m1 = CIR.dt m /\
                          (0 <= CIR.timesteps m1)%Z).
  { unfold HedgingSimulator.adapt_horizon, CIR.float_div.
    destruct (Req_dec_T th (CIR.time_horizon m)); [now exists m |].
    destruct (Req_dec_T (CIR.dt m) 0); [contradiction |]. cbn [bind].
    eexists. split; [reflexivity |]. now cbn. }
  destruct Ha as (m1 & -> & Es & Ed & Hts1). cbn [bind].
  destruct (simulate_rates_returns m1 n_paths seed g) as [[rates g1] Hr];
    [congruence | exact Hts1 | exact Hseed |].
  rewrite Hr. cbn [bind fst snd].
  destruct (simulate_rates_shape _ _ _ _ _ _ Hr) as (_ & _ & Hrows).
  destruct (rebalance_loop_terminates (CIR.dt m1) th
              (HedgingSimulator.rebalance_frequency sim) (CIR.timesteps m1)
              ltac:(congruence) Hrf fuel 0 []) as [steps ->]; [lra |].
  cbn [bind].
  match goal with
  | |- context [for_each ?body rates ?st] =>
      destruct (path_loop_returns sim (Z.to_nat (CIR.timesteps m1))
                  (np_linspace 0 th (Z.to_nat (CIR.timesteps m1 + 1)))
                  steps Hprice Hratio) with (rates := rates) (s := st)
        as [[m2 rows] ->]
  end.
  - rewrite np_linspace_length. lia.
  - exact Hrows.
  - cbn [bind]. eexists; reflexivity.
Qed.

(** C6 (as the code has it).  In every simulation returned with
    [rebalance_frequency >= time_horizon], each path's hedge-cost array
    has one entry per time step; its entry at the first rebalancing
    step (step 0) is zero; a non-zero entry can only sit at step
    [int(time_horizon / dt)], and only when [rebalance_frequency] equals
    [time_horizon]; so there is at most one non-zero entry, and none
    when [rebalance_frequency > time_horizon]. *)
Theorem hedge_costs_with_rare_rebalancing `{NumpyRandom}
  (fuel : nat) (sim : HedgingSimulator.t) (m : CIR.t) (n_paths : nat)
  (time_horizon : option R) (seed : option Z) (g : rng)
  (res : HedgingSimulator.results npfloat) (m' : CIR.t) (g' : rng) :
  HedgingSimulator.simulate fuel sim m n_paths time_horizon seed g
  = Ok (res, m', g') ->
  let th := HedgingSimulator.horizon_or_default m time_horizon in
  th <= HedgingSimulator.rebalance_frequency sim ->
  length (HedgingSimulator.hedge_costs res) = n_paths /\
  Forall (fun costs =>
            length costs = (Z.to_nat (CIR.timesteps m') + 1)%nat /\
            nth_error costs 0 = Some (Fin 0) /\
            (forall j v,
                nth_error costs j = Some v -> v <> Fin 0 ->
                HedgingSimulator.rebalance_frequency sim = th /\
                Z.of_nat j = py_int (th / CIR.dt m)) /\
            (forall i j vi vj,
                nth_error costs i = Some vi -> vi <> Fin 0 ->
                nth_error costs j = Some vj -> vj <> Fin 0 -> i = j))
         (HedgingSimulator.hedge_costs res).
Proof. exact (hedge_costs_sparse fuel sim m n_paths time_horizon seed g res m' g'). Qed.

Lemma py_int_nonneg x : 0 <= x -> (0 <= py_int x)%Z.
Proof.
  intros Hx. unfold py_int. destruct (Rle_dec 0 x); [| lra].
  destruct (base_Int_part x) as [_ Hlow].
  assert (IZR (-1) < IZR (Int_part x)) by (cbn; lra).
  apply lt_IZR in H. lia.
Qed.

(** The example simulation over the model's own horizon of one year:
    two paths, rebalancing every two years. *)
Lemma simulate_example_returns :
  returns (HedgingSimulator.simulate (H := counter_random) 1
             simulator_example cir_example 2 None (Some 42%Z) 0%nat).
Proof.
  apply simulate_returns; cbn.
  - intros m d. eexists; reflexivity.
  - intros d r. eexists; reflexivity.
  - lra.
  - lra.
  - lra.
  - lia.
  - apply py_int_nonneg. lra.
  - intros s [= <-]. eexists; reflexivity.
  - lra.
Qed.

Lemma hedge_costs_with_rare_rebalancing_witness :
  exists res m' g',
    HedgingSimulator.simulate (H := counter_random) 1 simulator_example
      cir_example 2 None (Some 42%Z) 0%nat = Ok (res, m', g') /\
    length (HedgingSimulator.hedge_costs res) = 2%nat /\
    Forall (fun costs =>
              length costs = (Z.to_nat (CIR.timesteps m') + 1)%nat /\
              nth_error costs 0 = Some (Fin 0) /\
              (forall j v,
                  nth_error costs j = Some v -> v <> Fin 0 ->
                  2 = 1 /\ Z.of_nat j = py_int (1 / (1 / 100))) /\
              (forall i j vi vj,
                  nth_error costs i = Some vi -> vi <> Fin 0 ->
                  nth_error costs j = Some vj -> vj <> Fin 0 -> i = j))
           (HedgingSimulator.hedge_costs res).
Proof.
  destruct simulate_example_returns as [[[res m'] g'] Hrun].
  exists res, m', g'. split; [exact Hrun |].
  apply (hedge_costs_with_rare_rebalancing (H := counter_random) 1
           simulator_example cir_example 2 None (Some 42%Z) 0%nat res m' g'
           Hrun).
  cbn. lra.
Defined.

(** C6 (as stated) fails: in the example simulation, whose rebalancing
    period of two years exceeds the horizon of one year, the hedge-cost
    array of each of the two paths has no non-zero entry at all. *)
Lemma hedge_costs_all_zero_in_example :
  exists res m' g',
    HedgingSimulator.simulate (H := counter_random) 1 simulator_example
      cir_example 2 None (Some 42%Z) 0%nat = Ok (res, m', g') /\
    HedgingSimulator.horizon_or_default cir_example None
    <= HedgingSimulator.rebalance_frequency simulator_example /\
    length (HedgingSimulator.hedge_costs res) = 2%nat /\
    Forall (fun costs =>
              length costs = 101%nat /\
              forall j v, nth_error costs j = Some v -> v = Fin 0)
           (HedgingSimulator.hedge_costs res).
Proof.
  destruct simulate_example_returns as [[[res m'] g'] Hrun].
  exists res, m', g'. split; [exact Hrun |]. split; [cbn; lra |].
  destruct (hedge_costs_sparse (H := counter_random) 1 simulator_example
              cir_example 2 None (Some 42%Z) 0%nat res m' g' Hrun)
    as [Hlen Hall]; [cbn; lra |].
  split; [exact Hlen |].
  assert (Hts : CIR.timesteps m' = 100%Z).
  { destruct (simulate_inversion _ _ _ _ _ _ _ _ _ _ Hrun)
      as (m1 & steps & rows & Ha & _ & _ & Hp & _).
    destruct (adapt_horizon_inversion _ _ _ Ha)
      as (_ & _ & _ & _ & _ & _ & Hkeep & _).
    destruct (path_loop_inversion _ _ _ _ _ _ _ _ Hp) as (_ & _ & Hsame & _).
    destruct (same_but_r0_fields _ _ Hsame) as (_ & _ & _ & -> & _).
    now apply Hkeep. }
  eapply Forall_impl; [| exact Hall]. cbn beta.
  intros costs (Hl & _ & Hnz & _). rewrite Hts in Hl. split; [exact Hl |].
  intros j v Hj. destruct v as [x | | |].
  - destruct (Req_dec_T x 0) as [-> | Hx]; [reflexivity |].
    destruct (Hnz j (Fin x) Hj) as [E _]; [congruence |]. cbn in E. lra.
  - destruct (Hnz j PInf Hj) as [E _]; [discriminate |]. cbn in E. lra.
  - destruct (Hnz j NInf Hj) as [E _]; [discriminate |]. cbn in E. lra.
  - destruct (Hnz j NaN Hj) as [E _]; [discriminate |]. cbn in E. lra.
Qed.

Lemma simulate_overwrites_rate_model_witness :
  exists res m' g' row r,
    HedgingSimulator.simulate (H := counter_random) 2 simulator_example
      cir_example 3 (Some 2) (Some 42%Z) 0%nat = Ok (res, m', g') /\
    nth_error (HedgingSimulator.rates res) 2 = Some row /\
    nth_error row (Z.to_nat (CIR.timesteps m')) = Some r /\
    CIR.r0 m' = r /\
    CIR.time_horizon m' = 2 /\
    CIR.timesteps m' = py_int (2 / (1 / 100)).
Proof.
  destruct (simulate_returns (H := counter_random) 2 simulator_example
              cir_example 3 (Some 2) (Some 42%Z) 0%nat)
    as [[[res m'] g'] Hrun]; cbn.
  - intros m d. eexists; reflexivity.
  - intros d r. eexists; reflexivity.
  - lra.
  - lra.
  - lra.
  - lia.
  - apply py_int_nonneg. lra.
  - intros s [= <-]. eexists; reflexivity.
  - lra.
  - destruct (simulate_overwrites_rate_model (H := counter_random) 2
                simulator_example cir_example 3 (Some 2) (Some 42%Z) 0%nat
                res m' g' ltac:(lia) Hrun)
      as ((row & r & Hrow & Hr & Hr0) & Hth & Hts & _).
    exists res, m', g', row, r. cbn in Hth, Hts.
    repeat split; try assumption. apply Hts. lra.
Defined.

(** ** The analytics *)

Section Analytics.

Import HedgingSimulator.



Lemma get_last (row : list R) :
  row <> [] -> get row (length row - 1) = Ok (last row 0).
Proof.
  intros Hne. apply get_Ok.
  rewrite (app_removelast_last 0 Hne) at 1 2.
  rewrite length_app, nth_error_app2 by (cbn; lia).
  cbn [length]. replace (_ - _)%nat with 0%nat by lia. reflexivity.
Qed.

Lemma last_column_final (a : list (list R)) :
  Forall (fun row => row <> []) a -> last_column a = Ok (final_step a).
Proof.
  induction 1 as [| row a Hrow _ IH]; cbn [last_column]; [reflexivity |].
  rewrite (get_last row Hrow), IH. reflexivity.
Qed.

(** *** Sorting *)

Lemma insert_sorted_In x y l : In y (insert_sorted x l) <-> y = x \/ In y l.
Proof.
  induction l as [| z l IH]; cbn.
  - intuition.
  - destruct (Rle_dec x z); cbn; [intuition | rewrite IH; intuition].
Qed.

Lemma np_sort_In y a : In y (np_sort a) <-> In y a.
Proof.
  induction a as [| x a IH]; cbn; [reflexivity |].
  rewrite insert_sorted_In, IH. intuition.
Qed.

Lemma insert_sorted_length x l : length (insert_sorted x l) = S (length l).
Proof.
  induction l as [| z l IH]; cbn; [reflexivity |].
  destruct (Rle_dec x z); cbn; [reflexivity | now rewrite IH].
Qed.

Lemma np_sort_length a : length (np_sort a) = length a.
Proof.
  induction a as [| x a IH]; cbn; [reflexivity |].
  now rewrite insert_sorted_length, IH.
Qed.

Lemma insert_sorted_sorted x l :
  StronglySorted Rle l -> StronglySorted Rle (insert_sorted x l).
Proof.
  induction 1 as [| z l Hl IH Hz]; cbn.
  - repeat constructor.
  - destruct (Rle_dec x z) as [Hxz | Hxz].
    + constructor; [now constructor |].
      constructor; [exact Hxz |].
      eapply Forall_impl; [| exact Hz]. intros; lra.
    + constructor; [exact IH |].
      apply Forall_forall. intros y Hy.
      apply insert_sorted_In in Hy as [-> | Hy]; [lra |].
      rewrite Forall_forall in Hz. now apply Hz.
Qed.

Lemma np_sort_sorted a : StronglySorted Rle (np_sort a).
Proof.
  induction a as [| x a IH]; cbn; [constructor | now apply insert_sorted_sorted].
Qed.

Lemma sorted_nth l : StronglySorted Rle l ->
  forall i j, (i <= j < length l)%nat -> nth i l 0 <= nth j l 0.
Proof.
  induction 1 as [| z l Hl IH Hz]; intros i j Hij; cbn in Hij; [lia |].
  destruct i as [| i], j as [| j]; cbn; try lia; try lra.
  - rewrite Forall_forall in Hz. apply Hz, nth_In. lia.
  - apply IH. lia.
Qed.





End Analytics.



(* ================================================================= *)
(** * Further properties *)

(** ** Payment schedules *)

Lemma ceilR_spec x : IZR (ceilR x) - 1 < x <= IZR (ceilR x).
Proof.
  unfold ceilR. destruct (archimed (- x)) as [Hup Hlow].
  rewrite minus_IZR. lra.
Qed.

(** With a positive step the values of [np.arange] start at [start],
    stay below [stop] and are one step apart. *)
Lemma np_arange_spec start stop step l :
  0 < step -> np_arange start stop step = Ok l ->
  (forall i, (i < length l)%nat -> nth i l 0 = start + INR i * step) /\
  Forall (fun x => start <= x < stop) l.
Proof.
  intros Hs. unfold np_arange. destruct (Req_dec_T step 0); [lra |].
  intros E. injection E as <-.
  set (q := (stop - start) / step).
  split.
  - intros i Hi. rewrite length_map, length_seq in Hi.
    rewrite (nth_indep _ 0 (start + INR 0 * step))
      by now rewrite length_map, length_seq.
    rewrite (map_nth (fun i => start + INR i * step)), seq_nth by exact Hi.
    reflexivity.
  - apply Forall_forall. intros x Hx.
    apply in_map_iff in Hx as (i & <- & Hi). apply in_seq in Hi.
    pose proof (pos_INR i) as Hi0.
    destruct (ceilR_spec q) as [Hlo _].
    assert (Hz : (0 < ceilR q)%Z) by lia.
    assert (Hi1 : INR i <= IZR (ceilR q) - 1).
    { rewrite INR_IZR_INZ, <- minus_IZR. apply IZR_le. lia. }
    assert (Hq : INR i * step < stop - start).
    { apply Rmult_lt_reg_r with (/ step); [now apply Rinv_0_lt_compat |].
      replace (INR i * step * / step) with (INR i) by (field; lra).
      fold (Rdiv (stop - start) step). fold q. lra. }
    split; [nra | lra].
Qed.

(** With a negative step and a stop that is not below the start there is
    no value at all. *)
Lemma np_arange_backwards start stop step :
  step < 0 -> start <= stop -> np_arange start stop step = Ok [].
Proof.
  intros Hs Hle. unfold np_arange. destruct (Req_dec_T step 0); [lra |].
  set (q := (stop - start) / step).
  assert (Hq : q <= 0).
  { unfold q, Rdiv. assert (/ step < 0) by now apply Rinv_lt_0_compat. nra. }
  destruct (ceilR_spec q) as [Hlo _].
  assert (Hz : (ceilR q <= 0)%Z).
  { apply Z.lt_succ_r. apply lt_IZR. rewrite succ_IZR. lra. }
  replace (Z.to_nat (ceilR q)) with 0%nat by lia. reflexivity.
Qed.

(** When the stop is a whole number [n] of steps after the start, up to
    the guard [eps] that the sources add to it, [np.arange] has exactly
    [n] values: the end point is kept. *)
Lemma np_arange_whole_periods start step n :
  eps <= step ->
  np_arange (start + step) (start + INR n * step + eps) step
  = Ok (map (fun i => start + step + INR i * step) (seq 0 n)).
Proof.
  intros Hs. assert (He : 0 < eps) by (unfold eps; lra).
  unfold np_arange. destruct (Req_dec_T step 0); [lra |].
  rewrite (ceilR_eq _ (Z.of_nat n)); [now rewrite Nat2Z.id |].
  rewrite <- INR_IZR_INZ.
  replace ((start + INR n * step + eps - (start + step)) / step)
    with (INR n - 1 + eps / step) by (field; lra).
  assert (H0 : 0 < eps / step) by (apply Rdiv_lt_0_compat; lra).
  assert (H1 : eps / step <= 1).
  { apply Rmult_le_reg_r with step; [lra |].
    replace (eps / step * step) with eps by (field; lra). lra. }
  lra.
Qed.

(** Every coupon date of a bond that has not matured lies after the
    valuation date. *)
Lemma coupon_dates_after_valuation v M fq dates :
  v < M -> BondPricer.coupon_dates v M fq = Ok dates ->
  Forall (fun d => v < d) dates.
Proof.
  intros HM. unfold BondPricer.coupon_dates.
  destruct (np_arange (v + fq) (M + eps) fq) as [d1 | e |] eqn:E1;
    cbn [bind]; try discriminate.
  destruct (Rgt_dec v 0) as [Hv | Hv].
  - destruct (np_arange fq (M + eps) fq) as [d2 | e |]; cbn [bind];
      try discriminate.
    intros E. injection E as <-. apply Forall_forall. intros d Hd.
    apply filter_In in Hd as [_ Hd]. destruct (Rgt_dec d v); [lra | discriminate].
  - intros E. injection E as <-.
    assert (He : 0 < eps) by (unfold eps; lra).
    destruct (Rtotal_order fq 0) as [Hneg | [H0 | Hpos]].
    + rewrite np_arange_backwards in E1 by lra. injection E1 as <-.
      constructor.
    + unfold np_arange in E1. destruct (Req_dec_T fq 0); [discriminate | lra].
    + destruct (np_arange_spec _ _ _ _ Hpos E1) as [_ Hall].
      eapply Forall_impl; [| exact Hall]. cbn beta. intros d Hd. lra.
Qed.

(** ** Bond prices *)

Section BondPrices.

Import BondPricer.

Variable p : BondPricer.t.

Lemma discount_coupon_flows_strip v ca dates :
  Forall (fun d => v < d) dates ->
  forall acc,
    discount_coupon_flows p v ca dates acc
    = for_each (add_zero_coupon p ca v) dates acc.
Proof.
  induction 1 as [| d rest Hd _ IH]; intros acc; cbn [discount_coupon_flows
    for_each]; [reflexivity |].
  unfold add_zero_coupon at 1, price_zero_coupon_bond.
  destruct (Rle_dec d v); [lra |].
  destruct (rm_zero_coupon_bond_price (rate_model_of p) v d
              (rm_r0 (rate_model_of p))) as [df | e |]; cbn [bind];
    [apply IH | reflexivity | reflexivity].
Qed.

End BondPrices.

(** The schedule of a bond with a single annual coupon, one year from
    maturity. *)
Lemma coupon_dates_one_year :
  BondPricer.coupon_dates 0 1 1 = Ok [0 + 1 + INR 0 * 1].
Proof.
  unfold BondPricer.coupon_dates, np_arange.
  destruct (Req_dec_T 1 0); [lra |].
  rewrite (ceilR_eq _ 1) by (unfold eps; lra). cbn [bind].
  destruct (Rgt_dec 0 0); [lra | reflexivity].
Qed.

(** X1.  A fixed-coupon bond that has not matured is priced as a strip
    of zero-coupon bonds: [price_fixed_coupon_bond] is the sum, in the
    order of the coupon dates, of [price_zero_coupon_bond] at each
    coupon date for the coupon amount
    [notional * coupon_rate * frequency], plus [price_zero_coupon_bond]
    at the maturity for the notional, with the same credit spread
    treatment and the same exceptions. *)
Theorem fixed_coupon_bond_is_strip_of_zero_coupon_bonds
  (p : BondPricer.t) (maturity coupon_rate frequency notional
   valuation_date : R) (dates : list R) :
  valuation_date < maturity ->
  BondPricer.coupon_dates valuation_date maturity frequency = Ok dates ->
  BondPricer.price_fixed_coupon_bond p maturity coupon_rate frequency notional
    valuation_date
  = strip_of_zero_coupon_bonds p dates maturity
      (notional * coupon_rate * frequency) notional valuation_date.
Proof.
  intros HM Hd.
  unfold BondPricer.price_fixed_coupon_bond, strip_of_zero_coupon_bonds.
  destruct (Rle_dec maturity valuation_date); [lra |].
  rewrite Hd. cbn [bind].
  rewrite (discount_coupon_flows_strip p) by
    (eapply coupon_dates_after_valuation; eassumption).
  destruct (for_each _ dates (Fin 0)) as [coupons | e |]; cbn [bind];
    try reflexivity.
  unfold BondPricer.price_zero_coupon_bond.
  destruct (Rle_dec maturity valuation_date); [lra |]. 
  destruct (rm_zero_coupon_bond_price _ _ _ _) as [df | e |]; reflexivity.
Qed.

Lemma fixed_coupon_bond_is_strip_of_zero_coupon_bonds_witness :
  BondPricer.price_fixed_coupon_bond bond_pricer_example 1 0.04 1 100 0
  = strip_of_zero_coupon_bonds bond_pricer_example [0 + 1 + INR 0 * 1] 1
      (100 * 0.04 * 1) 100 0.
Proof.
  apply (fixed_coupon_bond_is_strip_of_zero_coupon_bonds bond_pricer_example
           1 0.04 1 100 0 [0 + 1 + INR 0 * 1]);
    [lra | exact coupon_dates_one_year].
Defined.

(** ** The yield search: its bracket and its accuracy *)

Section YieldSearch.

Lemma exp_monotone a b : a <= b -> exp a <= exp b.
Proof.
  intros [Hlt | ->]; [left; now apply exp_increasing | right; reflexivity].
Qed.

(** The search never leaves the interior of its bracket. *)
Lemma spec_bisection_bracket (f : R -> R) precision :
  forall n low high,
    low < high -> low < spec_bisection f precision n low high < high.
Proof.
  induction n as [| n IH]; intros low high Hlh; cbn [spec_bisection].
  - lra.
  - destruct (Rlt_dec _ precision); [lra |].
    destruct (Rge_dec _ 0).
    + destruct (IH ((low + high) / 2) high) as [H1 H2]; lra.
    + destruct (IH low ((low + high) / 2)) as [H1 H2]; lra.
Qed.

(** On a strictly decreasing function with a root [ystar] in the
    bracket, away from its lower end, the search keeps the root in the
    bracket, which it halves at each pass. *)
Lemma spec_bisection_converges (f : R -> R) precision ystar :
  0 < precision ->
  (forall x y, x < y -> f y < f x) ->
  f ystar = 0 ->
  forall n low high,
    low < ystar <= high ->
    Rabs (f (spec_bisection f precision n low high)) < precision \/
    Rabs (spec_bisection f precision n low high - ystar)
    <= (high - low) / 2 ^ (n + 1).
Proof.
  intros Hp Hdec Hroot. induction n as [| n IH]; intros low high [Hl Hh];
    cbn [spec_bisection].
  - right. cbn. apply Rabs_le. lra.
  - set (mid := (low + high) / 2).
    assert (Hlow : 0 < f low) by (rewrite <- Hroot; now apply Hdec).
    destruct (Rlt_dec (Rabs (f mid)) precision) as [Hm | Hm]; [now left |].
    assert (Hmid : f mid <> 0).
    { intros E. rewrite E, Rabs_R0 in Hm. lra. }
    assert (Hpow : 0 < 2 ^ (n + 1)) by (apply pow_lt; lra).
    replace ((high - low) / 2 ^ (S n + 1))
      with ((high - low) / 2 / 2 ^ (n + 1))
      by (cbn [Nat.add pow]; field; lra).
    destruct (Rge_dec (f mid * f low) 0) as [Hs | Hs].
    + assert (Hpos : 0 < f mid) by nra.
      assert (Hlt : mid < ystar).
      { destruct (Rlt_dec mid ystar) as [? | Hge]; [assumption |].
        exfalso. destruct (Req_dec mid ystar) as [E | Hne].
        - rewrite E in Hpos. lra.
        - assert (f mid < f ystar) by (apply Hdec; lra). lra. }
      replace ((high - low) / 2) with (high - mid) by (unfold mid; lra).
      apply IH. lra.
    + assert (Hneg : f mid < 0) by nra.
      assert (Hgt : ystar < mid).
      { destruct (Rlt_dec ystar mid) as [? | Hge]; [assumption |].
        exfalso. destruct (Req_dec mid ystar) as [E | Hne].
        - rewrite E in Hneg. lra.
        - assert (f ystar < f mid) by (apply Hdec; lra). lra. }
      replace ((high - low) / 2) with (mid - low) by (unfold mid; lra).
      apply IH. lra.
Qed.

(** The flat-rate price of a bond with non-negative coupons and a
    positive notional falls strictly as the rate rises. *)
Lemma flat_rate_price_function_decreasing dates ca N M v P :
  Forall (fun d => v < d) dates -> 0 <= ca -> 0 < N -> v < M ->
  forall x y, x < y ->
    flat_rate_price_function dates ca N M v P y
    < flat_rate_price_function dates ca N M v P x.
Proof.
  intros Hd Hca HN HM x y Hxy. unfold flat_rate_price_function.
  assert (Hsum :
    np_sum (map (fun d => ca * exp (- y * (d - v))) dates)
    <= np_sum (map (fun d => ca * exp (- x * (d - v))) dates)).
  { induction Hd as [| d rest Hdv _ IH]; cbn; [lra |].
    assert (exp (- y * (d - v)) <= exp (- x * (d - v)))
      by (apply exp_monotone; nra).
    unfold np_sum in IH. nra. }
  assert (Hprin : exp (- y * (M - v)) < exp (- x * (M - v)))
    by (apply exp_increasing; nra).
  nra.
Qed.

End YieldSearch.

(** The search returns, and its result is inside the initial bracket. *)
Lemma yield_search_in_bracket P M c fq N v n precision :
  v < M -> fq <> 0 ->
  exists y,
    BondPricer.calculate_yield_to_maturity P M c fq N v n precision = Ok y /\
    0.0001 < y < 0.5.
Proof.
  intros HM Hfq.
  destruct (coupon_dates_returns v M fq Hfq) as [dates Hd].
  unfold BondPricer.calculate_yield_to_maturity.
  destruct (Rle_dec M v); [lra |].
  rewrite (bisection_refines _
             (flat_rate_price_function dates (N * c * fq) N M v P))
    by (intros y; now apply price_difference_flat).
  eexists. split; [reflexivity |]. apply spec_bisection_bracket. lra.
Qed.

(** X2.  For every bond that has not matured and every non-zero coupon
    frequency, [calculate_yield_to_maturity] returns a yield within its
    initial bracket, from 0.01% to 50%, whatever the observed price, the
    number of iterations and the precision: a yield outside that range
    is never reported, however low or high the observed price. *)
Theorem yield_to_maturity_within_bracket
  (bond_price maturity coupon_rate frequency notional valuation_date : R)
  (max_iterations : Z) (precision : R) :
  valuation_date < maturity ->
  frequency <> 0 ->
  exists y,
    BondPricer.calculate_yield_to_maturity bond_price maturity coupon_rate
      frequency notional valuation_date max_iterations precision = Ok y /\
    0.0001 <= y <= 0.5.
Proof.
  intros HM Hfq.
  destruct (yield_search_in_bracket bond_price maturity coupon_rate frequency
              notional valuation_date max_iterations precision HM Hfq)
    as (y & Hy & Hlo & Hhi).
  exists y. split; [exact Hy | lra].
Qed.

Lemma yield_to_maturity_within_bracket_witness :
  exists y,
    BondPricer.calculate_yield_to_maturity 250 5 0.05 1 100 0 100 1e-8 = Ok y /\
    0.0001 <= y <= 0.5.
Proof.
  apply (yield_to_maturity_within_bracket 250 5 0.05 1 100 0 100 1e-8); lra.
Defined.

(** X3.  Round trip of the yield search.  Take a bond that has not
    matured, with a non-negative coupon amount and a positive notional,
    whose observed price is its flat-rate price at some yield [ystar]
    with [0.0001 < ystar <= 0.5], and a positive precision.  Then
    [calculate_yield_to_maturity] returns a yield [y] that either
    reprices the bond within the precision, or lies within
    [0.4999 / 2^(max_iterations + 1)] of [ystar]. *)
Theorem yield_to_maturity_recovers_flat_yield
  (bond_price maturity coupon_rate frequency notional valuation_date : R)
  (max_iterations : Z) (precision : R) (dates : list R) (ystar : R) :
  valuation_date < maturity ->
  BondPricer.coupon_dates valuation_date maturity frequency = Ok dates ->
  0 <= notional * coupon_rate * frequency ->
  0 < notional ->
  0 < precision ->
  0.0001 < ystar <= 0.5 ->
  flat_rate_price_function dates (notional * coupon_rate * frequency)
    notional maturity valuation_date bond_price ystar = 0 ->
  exists y,
    BondPricer.calculate_yield_to_maturity bond_price maturity coupon_rate
      frequency notional valuation_date max_iterations precision = Ok y /\
    (Rabs (flat_rate_price_function dates
             (notional * coupon_rate * frequency) notional maturity
             valuation_date bond_price y) < precision \/
     Rabs (y - ystar) <= 0.4999 / 2 ^ (Z.to_nat max_iterations + 1)).
Proof.
  intros HM Hd Hca HN Hp Hy Hroot.
  set (f := flat_rate_price_function dates
              (notional * coupon_rate * frequency) notional maturity
              valuation_date bond_price) in *.
  unfold BondPricer.calculate_yield_to_maturity.
  destruct (Rle_dec maturity valuation_date); [lra |].
  rewrite (bisection_refines _ f)
    by (intros y; now apply price_difference_flat).
  eexists. split; [reflexivity |].
  replace 0.4999 with (0.5 - 0.0001) by lra.
  apply spec_bisection_converges; try assumption.
  apply flat_rate_price_function_decreasing; try assumption.
  eapply coupon_dates_after_valuation; eassumption.
Qed.

Lemma yield_to_maturity_recovers_flat_yield_witness :
  exists bond_price y,
    flat_rate_price_function [0 + 1 + INR 0 * 1] (100 * 0.04 * 1) 100 1 0
      bond_price 0.05 = 0 /\
    BondPricer.calculate_yield_to_maturity bond_price 1 0.04 1 100 0 100 1e-8
    = Ok y /\
    (Rabs (flat_rate_price_function [0 + 1 + INR 0 * 1] (100 * 0.04 * 1) 100
             1 0 bond_price y) < 1e-8 \/
     Rabs (y - 0.05) <= 0.4999 / 2 ^ (Z.to_nat 100 + 1)).
Proof.
  set (P := flat_rate_price_function [0 + 1 + INR 0 * 1] (100 * 0.04 * 1)
              100 1 0 0 0.05).
  assert (Hroot : flat_rate_price_function [0 + 1 + INR 0 * 1]
                    (100 * 0.04 * 1) 100 1 0 P 0.05 = 0)
    by (unfold P, flat_rate_price_function; lra).
  destruct (yield_to_maturity_recovers_flat_yield P 1 0.04 1 100 0 100 1e-8
              [0 + 1 + INR 0 * 1] 0.05) as (y & Hy & Hacc);
    [lra | exact coupon_dates_one_year | lra | lra | lra | lra | exact Hroot |].
  exists P, y. repeat split; assumption.
Defined.

(** ** Discount factors of the square-root model *)

Section DiscountFactors.

Variable m : CIR.t.
Let kappa := CIR.kappa m.
Let theta := CIR.theta m.
Let sigma := CIR.sigma m.
Let h := sqrt (kappa ^ 2 + 2 * sigma ^ 2).

Hypothesis sigma_nonzero : sigma <> 0.

Lemma cir_h_above_kappa : kappa < h.
Proof.
  destruct (cir_h_facts m sigma_nonzero) as [Hh _]. fold kappa sigma h in Hh.
  destruct (Rle_dec kappa 0) as [Hk | Hk]; [lra |].
  assert (Hs : 0 < sigma ^ 2).
  { destruct (Rtotal_order sigma 0) as [? | [? | ?]];
      [nra | contradiction | nra]. }
  assert (Hsq : h * h = kappa ^ 2 + 2 * sigma ^ 2)
    by (apply sqrt_sqrt; nra).
  apply Rsqr_incrst_0; [unfold Rsqr; nra | lra | lra].
Qed.

(** The base of the power [A] is below one: by [1 + x < exp x] at
    [x = - (kappa + h) tau / 2] and at [x = (h - kappa) tau / 2]. *)
Lemma cir_base_below_one tau :
  0 < tau ->
  2 * h * exp ((kappa + h) * tau / 2)
  / (2 * h + (kappa + h) * (exp (h * tau) - 1)) < 1.
Proof.
  intros Ht.
  destruct (cir_h_facts m sigma_nonzero) as [Hh Hkh].
  fold kappa sigma h in Hh, Hkh.
  pose proof cir_h_above_kappa as Hhk.
  pose proof (cir_denominator_pos m sigma_nonzero tau Ht) as Hden.
  fold kappa sigma h in Hden.
  set (a := (kappa + h) / 2). set (b := (h - kappa) / 2).
  assert (Ha : 0 < a) by (unfold a; lra).
  assert (Hb : 0 < b) by (unfold b; lra).
  assert (HX : 1 + - (a * tau) < exp (- (a * tau)))
    by (apply exp_ineq1; nra).
  assert (HY : 1 + b * tau < exp (b * tau)) by (apply exp_ineq1; nra).
  assert (HE : 0 < exp (a * tau)) by apply exp_pos.
  assert (HXE : exp (- (a * tau)) * exp (a * tau) = 1).
  { rewrite <- exp_plus. replace (- (a * tau) + a * tau) with 0 by ring.
    apply exp_0. }
  assert (Hh_split : exp (h * tau) = exp (a * tau) * exp (b * tau)).
  { rewrite <- exp_plus. f_equal. unfold a, b. lra. }
  replace ((kappa + h) * tau / 2) with (a * tau) by (unfold a; lra).
  apply Rmult_lt_reg_r
    with (2 * h + (kappa + h) * (exp (h * tau) - 1)); [exact Hden |].
  unfold Rdiv. rewrite Rmult_assoc, Rinv_l, Rmult_1_r, Rmult_1_l by lra.
  rewrite Hh_split.
  replace (kappa + h) with (2 * a) by (unfold a; lra).
  replace h with (a + b) by (unfold a, b; lra).
  set (X := exp (- (a * tau))) in *. set (E := exp (a * tau)) in *.
  set (Y := exp (b * tau)) in *.
  assert (Hkey : (a + b) * E < (b * X + a * Y) * E).
  { apply Rmult_lt_compat_r; [exact HE |]. nra. }
  replace ((b * X + a * Y) * E) with (b * (X * E) + a * (E * Y)) in Hkey
    by ring.
  rewrite HXE in Hkey. lra.
Qed.

Lemma cir_B_pos tau :
  0 < tau ->
  0 < 2 * (exp (h * tau) - 1)
      / (2 * h + (kappa + h) * (exp (h * tau) - 1)).
Proof.
  intros Ht. destruct (cir_h_facts m sigma_nonzero) as [Hh _].
  fold kappa sigma h in Hh.
  pose proof (cir_denominator_pos m sigma_nonzero tau Ht) as Hden.
  fold kappa sigma h in Hden.
  apply Rdiv_lt_0_compat; [| exact Hden].
  assert (1 < exp (h * tau)).
  { rewrite <- exp_0. apply exp_increasing. nra. }
  lra.
Qed.

(** The closed form, as a value. *)
Lemma cir_price_value t T r :
  t < T ->
  CIR.zero_coupon_bond_price m t T (Fin r)
  = Ok (Fin (Rpower (2 * h * exp ((kappa + h) * (T - t) / 2)
                     / (2 * h + (kappa + h) * (exp (h * (T - t)) - 1)))
                    (2 * kappa * theta / sigma ^ 2)
             * exp (- (2 * (exp (h * (T - t)) - 1)
                       / (2 * h + (kappa + h) * (exp (h * (T - t)) - 1)))
                    * r))).
Proof.
  intros Hlt. unfold CIR.zero_coupon_bond_price, CIR.float_div.
  destruct (Rge_dec t T); [lra |].
  destruct (Req_dec_T (CIR.sigma m ^ 2) 0) as [E | _].
  { exfalso. apply sigma_nonzero. unfold sigma. nra. }
  reflexivity.
Qed.

End DiscountFactors.

(** Under the Feller condition, at a non-negative rate, the price of a
    bond that has not matured is a number strictly between 0 and 1. *)
Lemma cir_price_in_unit_interval (m : CIR.t) (t T r : R) :
  CIR.sigma m <> 0 ->
  CIR.sigma m ^ 2 < 2 * CIR.kappa m * CIR.theta m ->
  t < T ->
  0 <= r ->
  exists P, CIR.zero_coupon_bond_price m t T (Fin r) = Ok (Fin P) /\ 0 < P < 1.
Proof.
  intros Hs HF Hlt Hr.
  assert (Htau : 0 < T - t) by lra.
  rewrite (cir_price_value m Hs t T r Hlt).
  eexists. split; [reflexivity |].
  pose proof (cir_base_pos m Hs (T - t) Htau) as Hb0.
  pose proof (cir_base_below_one m Hs (T - t) Htau) as Hb1.
  pose proof (cir_B_pos m Hs (T - t) Htau) as HB.
  set (base := 2 * sqrt (CIR.kappa m ^ 2 + 2 * CIR.sigma m ^ 2) * _ / _) in *.
  set (B := 2 * (exp _ - 1) / _) in *.
  set (e := 2 * CIR.kappa m * CIR.theta m / CIR.sigma m ^ 2).
  assert (Hs2 : 0 < CIR.sigma m ^ 2).
  { destruct (Rtotal_order (CIR.sigma m) 0) as [? | [? | ?]];
      [nra | contradiction | nra]. }
  assert (He : 0 < e).
  { unfold e. apply Rdiv_lt_0_compat; lra. }
  assert (Hln : ln base < 0).
  { rewrite <- ln_1. apply ln_increasing; assumption. }
  assert (HA : 0 < Rpower base e < 1).
  { unfold Rpower. split; [apply exp_pos |].
    rewrite <- exp_0. apply exp_increasing. nra. }
  assert (HE : 0 < exp (- B * r) <= 1).
  { split; [apply exp_pos |]. rewrite <- exp_0. apply exp_monotone. nra. }
  nra.
Qed.





(** X6.  A zero volatility passes the checks of the constructor (with
    [r0 > 0] and [kappa * theta > 0] the Feller test succeeds), and the
    model it builds can then neither price nor simulate: for every
    maturity after the current date [zero_coupon_bond_price] raises
    [ZeroDivisionError], and so does [simulate_rates] as soon as there
    is one time step to simulate and the seed, if any, is accepted. *)
Theorem cir_zero_volatility_accepted_then_fails `{NumpyRandom}
  (r0 kappa theta : R) (timesteps : Z) (time_horizon : R) :
  0 < r0 -> 0 < kappa * theta -> (1 <= timesteps)%Z ->
  exists m,
    CIR.init r0 kappa theta 0 timesteps time_horizon = Ok m /\
    (forall t T r, t < T ->
       CIR.zero_coupon_bond_price m t T r = Raise ZeroDivisionError) /\
    (forall n_paths seed g,
       (forall s, seed = Some s -> returns (np_random_seed s)) ->
       CIR.simulate_rates m n_paths seed g = Raise ZeroDivisionError).
Proof.
  intros Hr0 Hkt Hts.
  rewrite init_succeeds by (try lra; lia).
  eexists. split; [reflexivity |]. split.
  - intros t T r Hlt. now apply zero_coupon_bond_price_sigma_zero.
  - intros n_paths seed g Hseed. unfold CIR.simulate_rates.
    assert (Hg : returns (match seed with
                          | Some s => np_random_seed s
                          | None => Ok g
                          end)).
    { destruct seed as [s |]; [now apply Hseed | eexists; reflexivity]. }
    destruct Hg as [g0 ->]. cbn [bind CIR.timesteps].
    destruct (Z_lt_dec (timesteps + 1) 0); [lia |].
    destruct (Z.eq_dec (timesteps + 1) 0); [lia |].
    destruct (Z.to_nat timesteps) as [| k] eqn:Ek; [lia |].
    cbn [CIR.simulate_loop].
    destruct (np_random_normal _ _ n_paths g0) as [dW g1].
    unfold CIR.float_div. cbn [CIR.sigma].
    destruct (Req_dec_T (0 ^ 2) 0) as [_ | Hne]; [reflexivity |].
    exfalso. apply Hne. ring.
Qed.

Lemma cir_zero_volatility_accepted_then_fails_witness :
  exists m,
    CIR.init 0.03 0.5 0.05 0 100 1 = Ok m /\
    CIR.zero_coupon_bond_price m 0 5 (Fin 0.03) = Raise ZeroDivisionError /\
    CIR.simulate_rates (H := counter_random) m 10 (Some 42%Z) 0%nat
    = Raise ZeroDivisionError.
Proof.
  destruct (cir_zero_volatility_accepted_then_fails (H := counter_random)
              0.03 0.5 0.05 100 1) as (m & Hm & Hp & Hs); [lra | lra | lia |].
  exists m. split; [exact Hm |]. split; [apply Hp; lra |].
  apply Hs. intros s [= <-]. eexists; reflexivity.
Defined.

(** X7.  A bond at or past its maturity is no error: whatever the rate
    model and the coupon frequency, [price_zero_coupon_bond] and
    [price_fixed_coupon_bond] return the notional,
    [calculate_yield_to_maturity] returns 0 and [calculate_duration]
    returns 0, without consulting the rate model.
    [calculate_modified_duration] returns 0 too, except with a coupon
    frequency of zero, where it raises [ZeroDivisionError]. *)
Theorem matured_bond_sentinels (p : BondPricer.t)
  (maturity coupon_rate frequency notional valuation_date : R) :
  maturity <= valuation_date ->
  BondPricer.price_zero_coupon_bond p maturity notional valuation_date
  = Ok (Fin notional) /\
  BondPricer.price_fixed_coupon_bond p maturity coupon_rate frequency
    notional valuation_date = Ok (Fin notional) /\
  (forall bond_price max_iterations precision,
     BondPricer.calculate_yield_to_maturity bond_price maturity coupon_rate
       frequency notional valuation_date max_iterations precision = Ok 0) /\
  BondPricer.calculate_duration p maturity coupon_rate frequency notional
    valuation_date = Ok (PyFloat (Fin 0)) /\
  (frequency <> 0 ->
   BondPricer.calculate_modified_duration p maturity coupon_rate frequency
     notional valuation_date = Ok (Fin 0)) /\
  (frequency = 0 ->
   BondPricer.calculate_modified_duration p maturity coupon_rate frequency
     notional valuation_date = Raise ZeroDivisionError).
Proof.
  intros HM.
  unfold BondPricer.calculate_modified_duration, BondPricer.calculate_duration,
    BondPricer.calculate_yield_to_maturity_np,
    BondPricer.calculate_yield_to_maturity,
    BondPricer.price_fixed_coupon_bond, BondPricer.price_zero_coupon_bond.
  destruct (Rle_dec maturity valuation_date); [| lra]. cbn [bind].
  unfold CIR.float_div.
  repeat split; try reflexivity.
  - intros Hfq. destruct (Req_dec_T frequency 0); [contradiction |].
    cbn [bind true_div is_zero].
    destruct (Req_dec_T (1 + 0 / frequency) 0) as [E | Hne].
    { exfalso. unfold Rdiv in E. rewrite Rmult_0_l in E. lra. }
    rewrite np_div_fin by exact Hne. do 2 f_equal. unfold Rdiv. ring.
  - intros Hfq. destruct (Req_dec_T frequency 0); [reflexivity | contradiction].
Qed.

Lemma matured_bond_sentinels_witness :
  BondPricer.price_fixed_coupon_bond bond_pricer_example 5 0.04 0 100 5
  = Ok (Fin 100) /\
  BondPricer.calculate_duration bond_pricer_example 5 0.04 0 100 5
  = Ok (PyFloat (Fin 0)) /\
  BondPricer.calculate_modified_duration bond_pricer_example 5 0.04 0 100 5
  = Raise ZeroDivisionError.
Proof.
  destruct (matured_bond_sentinels bond_pricer_example 5 0.04 0 100 5)
    as (_ & Hp & _ & Hd & _ & Hm); [lra |].
  split; [exact Hp |]. split; [exact Hd |]. now apply Hm.
Defined.

(** ** Durations *)

Section Durations.

Import BondPricer.

(** At a finite observed price the search on NumPy scalars is the
    search on reals. *)
Lemma bisection_np_fin (fnp : R -> result npfloat) (f : R -> result R)
  precision :
  (forall y, fnp y = (d <- f y ;; Ok (Fin d))) ->
  forall n low high,
    bisection_np fnp precision n low high = bisection f precision n low high.
Proof.
  intros Hf. induction n as [| n IH]; intros low high;
    cbn [bisection_np bisection]; [reflexivity |].
  rewrite !Hf.
  destruct (f ((low + high) / 2)) as [dm | e |]; cbn [bind]; try reflexivity.
  cbn [np_abs np_ltb].
  destruct (Rlt_dec (Rabs dm) precision); [reflexivity |].
  destruct (f low) as [dl | e |]; cbn [bind]; try reflexivity.
  cbn [np_mul np_ltb].
  destruct (Rlt_dec (dm * dl) 0); apply IH.
Qed.

Lemma calculate_yield_to_maturity_np_fin P M c fq N v n precision :
  calculate_yield_to_maturity_np (Fin P) M c fq N v n precision
  = calculate_yield_to_maturity P M c fq N v n precision.
Proof.
  unfold calculate_yield_to_maturity_np, calculate_yield_to_maturity.
  destruct (Rle_dec M v); [reflexivity |].
  apply bisection_np_fin. intros y.
  unfold price_difference_np, price_difference.
  destruct (coupon_dates v M fq); reflexivity.
Qed.

Variable p : BondPricer.t.
Variable v : R.

(** The rate model quotes a positive, finite discount factor for every
    date after the valuation date. *)
Hypothesis discounts :
  forall T, v < T ->
    exists df,
      rm_zero_coupon_bond_price (rate_model_of p) v T (rm_r0 (rate_model_of p))
      = Ok (Fin df) /\ 0 < df.

Lemma credit_discounted_pos df time :
  0 < df ->
  exists df', credit_discounted p (Fin df) time = Fin df' /\ 0 < df'.
Proof.
  intros Hdf. unfold credit_discounted.
  destruct (Rgt_dec (credit_spread p) 0).
  - cbn [np_mul]. eexists. split; [reflexivity |].
    apply Rmult_lt_0_compat; [exact Hdf | apply exp_pos].
  - now exists df.
Qed.

Lemma discount_coupon_flows_pos ca dates :
  0 <= ca -> Forall (fun d => v < d) dates ->
  forall acc, exists acc',
    discount_coupon_flows p v ca dates (Fin acc) = Ok (Fin acc') /\
    acc <= acc'.
Proof.
  intros Hca. induction 1 as [| d rest Hd _ IH]; intros acc;
    cbn [discount_coupon_flows].
  - exists acc. split; [reflexivity | lra].
  - destruct (discounts d Hd) as (df & -> & Hdf). cbn [bind].
    destruct (credit_discounted_pos df (d - v) Hdf) as (df' & -> & Hdf').
    cbn [np_mul np_add].
    destruct (IH (acc + ca * df')) as (acc' & -> & Hacc).
    exists acc'. split; [reflexivity | nra].
Qed.

(** The price of a bond with non-negative coupons and a positive
    notional is a positive number. *)
Lemma price_fixed_coupon_bond_pos M c fq N :
  v < M -> fq <> 0 -> 0 <= N * c * fq -> 0 < N ->
  exists P, price_fixed_coupon_bond p M c fq N v = Ok (Fin P) /\ 0 < P.
Proof.
  intros HM Hfq Hca HN. unfold price_fixed_coupon_bond.
  destruct (Rle_dec M v); [lra |].
  destruct (coupon_dates_returns v M fq Hfq) as [dates Hd].
  rewrite Hd. cbn [bind].
  destruct (discount_coupon_flows_pos (N * c * fq) dates Hca
              (coupon_dates_after_valuation v M fq dates HM Hd) 0)
    as (acc & -> & Hacc).
  cbn [bind]. destruct (discounts M HM) as (df & -> & Hdf). cbn [bind].
  destruct (credit_discounted_pos df (M - v) Hdf) as (df' & -> & Hdf').
  cbn [np_mul np_add]. eexists. split; [reflexivity |].
  assert (0 < N * df') by (apply Rmult_lt_0_compat; assumption). lra.
Qed.

Lemma weigh_coupons_nonneg y ca dates :
  0 <= ca -> Forall (fun d => v < d) dates ->
  forall acc, acc <= weigh_coupons y ca v dates acc.
Proof.
  intros Hca. induction 1 as [| d rest Hd _ IH]; intros acc;
    cbn [weigh_coupons]; [lra |].
  pose proof (exp_pos (- y * (d - v))) as He.
  assert (0 <= ca * exp (- y * (d - v))) by (apply Rmult_le_pos; lra).
  eapply Rle_trans; [| apply IH]. nra.
Qed.

End Durations.

(** The durations of a bond that has not matured are positive numbers,
    the modified one strictly below the other. *)
Lemma duration_values_positive (p : BondPricer.t)
  (maturity coupon_rate frequency notional valuation_date : R) :
  valuation_date < maturity ->
  0 < frequency ->
  0 <= coupon_rate ->
  0 < notional ->
  (forall T, valuation_date < T ->
     exists df,
       rm_zero_coupon_bond_price (BondPricer.rate_model_of p) valuation_date T
         (rm_r0 (BondPricer.rate_model_of p)) = Ok (Fin df) /\ 0 < df) ->
  exists d md,
    BondPricer.calculate_duration p maturity coupon_rate frequency notional
      valuation_date = Ok (NpFloat64 (Fin d)) /\
    BondPricer.calculate_modified_duration p maturity coupon_rate frequency
      notional valuation_date = Ok (Fin md) /\
    0 < md < d.
Proof.
  intros HM Hfq Hc HN Hdisc.
  assert (Hfq0 : frequency <> 0) by lra.
  assert (Hca : 0 <= notional * coupon_rate * frequency).
  { apply Rmult_le_pos; [apply Rmult_le_pos |]; lra. }
  destruct (price_fixed_coupon_bond_pos p valuation_date Hdisc maturity
              coupon_rate frequency notional HM Hfq0 Hca HN)
    as (P & HP & HPpos).
  destruct (yield_search_in_bracket P maturity coupon_rate frequency notional
              valuation_date 100 1e-8 HM Hfq0) as (y & Hy & Hy0 & Hy1).
  destruct (coupon_dates_returns valuation_date maturity frequency Hfq0)
    as [dates Hd].
  set (w := BondPricer.weigh_coupons y (notional * coupon_rate * frequency)
              valuation_date dates 0
            + (maturity - valuation_date)
              * (notional * exp (- y * (maturity - valuation_date)))).
  assert (Hw : 0 < w).
  { pose proof (weigh_coupons_nonneg valuation_date y _ dates Hca
                  (coupon_dates_after_valuation _ _ _ _ HM Hd) 0) as H0.
    pose proof (exp_pos (- y * (maturity - valuation_date))) as He.
    assert (0 < notional * exp (- y * (maturity - valuation_date)))
      by (apply Rmult_lt_0_compat; assumption).
    unfold w. nra. }
  assert (Hdur : BondPricer.calculate_duration p maturity coupon_rate
                   frequency notional valuation_date
                 = Ok (NpFloat64 (Fin (w / P)))).
  { unfold BondPricer.calculate_duration.
    destruct (Rle_dec maturity valuation_date); [lra |].
    rewrite HP. cbn [bind].
    rewrite calculate_yield_to_maturity_np_fin, Hy. cbn [bind].
    rewrite Hd. cbn [bind]. rewrite np_div_fin by lra. reflexivity. }
  assert (Hd0 : 0 < w / P) by (apply Rdiv_lt_0_compat; assumption).
  assert (Hq : 0 < y / frequency) by (apply Rdiv_lt_0_compat; lra).
  exists (w / P), (w / P / (1 + y / frequency)).
  split; [exact Hdur |]. split.
  - unfold BondPricer.calculate_modified_duration.
    rewrite HP. cbn [bind].
    rewrite calculate_yield_to_maturity_np_fin, Hy. cbn [bind].
    rewrite Hdur. cbn [bind]. unfold CIR.float_div.
    destruct (Req_dec_T frequency 0); [contradiction |].
    cbn [bind true_div num_val]. rewrite np_div_fin by lra. reflexivity.
  - split; [apply Rdiv_lt_0_compat; lra |].
    apply Rmult_lt_reg_r with (1 + y / frequency); [lra |].
    unfold Rdiv at 1. rewrite Rmult_assoc, Rinv_l, Rmult_1_r by lra. nra.
Qed.

(** X8.  For a bond that has not matured, with a positive coupon
    frequency, a non-negative coupon rate and a positive notional,
    priced on a rate model that quotes positive finite discount
    factors, [calculate_duration] returns a positive finite Macaulay
    duration and [calculate_modified_duration] a positive finite value
    strictly below it. *)
Theorem durations_are_positive (p : BondPricer.t)
  (maturity coupon_rate frequency notional valuation_date : R) :
  valuation_date < maturity ->
  0 < frequency ->
  0 <= coupon_rate ->
  0 < notional ->
  (forall T, valuation_date < T ->
     exists df,
       rm_zero_coupon_bond_price (BondPricer.rate_model_of p) valuation_date T
         (rm_r0 (BondPricer.rate_model_of p)) = Ok (Fin df) /\ 0 < df) ->
  exists d md,
    BondPricer.calculate_duration p maturity coupon_rate frequency notional
      valuation_date = Ok (NpFloat64 (Fin d)) /\
    BondPricer.calculate_modified_duration p maturity coupon_rate frequency
      notional valuation_date = Ok (Fin md) /\
    0 < md < d.
Proof.
  exact (duration_values_positive p maturity coupon_rate frequency notional
           valuation_date).
Qed.

Lemma durations_are_positive_witness :
  exists d md,
    BondPricer.calculate_duration bond_pricer_example 5 0.04 1 100 0
    = Ok (NpFloat64 (Fin d)) /\
    BondPricer.calculate_modified_duration bond_pricer_example 5 0.04 1 100 0
    = Ok (Fin md) /\
    0 < md < d.
Proof.
  apply (durations_are_positive bond_pricer_example 5 0.04 1 100 0);
    try lra.
  intros T _. cbn. eexists. split; [reflexivity | apply exp_pos].
Defined.

(** ** Payer and receiver swaptions *)

Section SwaptionParity.

Import SwaptionPricer.

(** The Black prices of the payer and of the receiver swaption differ by
    the annuity times forward rate minus strike, unless the time to
    expiry is positive, the volatility zero and the forward rate equal
    to the strike. *)
Lemma black_payer_receiver_parity (F K : pynum) f k A tau vol :
  num_val F = Fin f -> num_val K = Fin k -> 0 < f -> 0 < k ->
  (0 < tau -> vol <> 0 \/ f <> k) ->
  exists payer receiver,
    black_price F K (Fin A) tau vol true = Ok (Fin payer) /\
    black_price F K (Fin A) tau vol false = Ok (Fin receiver) /\
    payer - receiver = A * (f - k).
Proof.
  intros HF HK Hf Hk Hdom. unfold black_price.
  destruct (Rle_dec tau 0) as [Hle | Hgt].
  - rewrite HF, HK. cbn [np_sub np_add np_neg]. rewrite !py_max0_fin.
    cbn [np_mul]. eexists _, _. split; [reflexivity |].
    split; [reflexivity |].
    assert (E : Rmax 0 (f + - k) - Rmax 0 (k + - f) = f - k).
    { unfold Rmax. destruct (Rle_dec 0 (f + - k)), (Rle_dec 0 (k + - f)); lra. }
    replace (f - k) with (Rmax 0 (f + - k) - Rmax 0 (k + - f)). ring.
  - assert (Ht : 0 < tau) by lra.
    assert (Hk0 : k <> 0) by lra.
    assert (Hr : 0 < f / k) by (apply Rdiv_lt_0_compat; assumption).
    rewrite (true_div_fin F K f k HF HK Hk0). cbn [bind].
    rewrite (np_log_pos _ Hr), (np_sqrt_nonneg tau) by lra.
    rewrite HF, HK. cbn [np_add np_mul].
    assert (Hsq : 0 < sqrt tau) by now apply sqrt_lt_R0.
    destruct (Req_dec_T vol 0) as [Hv | Hv].
    + subst vol. destruct (Hdom Ht) as [Hv | Hfk]; [contradiction |].
      destruct (ln_ratio_sign f k Hf Hk) as [Hup Hdown].
      unfold np_div. destruct (Req_dec_T (0 * sqrt tau) 0) as [_ | Hn];
        [| exfalso; apply Hn; ring].
      unfold inf_times.
      destruct (Rtotal_order f k) as [Hlt | [Heq | Hlt]]; [| contradiction |].
      * specialize (Hdown Hlt).
        destruct (Rlt_dec 0 (ln (f / k) + 0 ^ 2 / 2 * tau)); [lra |].
        destruct (Rlt_dec (ln (f / k) + 0 ^ 2 / 2 * tau) 0); [| lra].
        cbn. eexists _, _. split; [reflexivity |]. split; [reflexivity |]. ring.
      * specialize (Hup Hlt).
        destruct (Rlt_dec 0 (ln (f / k) + 0 ^ 2 / 2 * tau)); [| lra].
        cbn. eexists _, _. split; [reflexivity |]. split; [reflexivity |]. ring.
    + assert (Hden : vol * sqrt tau <> 0).
      { intros E. apply Rmult_integral in E. lra. }
      rewrite (np_div_fin _ _ Hden).
      set (d1 := (ln (f / k) + vol ^ 2 / 2 * tau) / (vol * sqrt tau)).
      cbn [np_sub np_add np_neg np_mul norm_cdf].
      set (d2 := d1 + - (vol * sqrt tau)).
      eexists _, _. split; [reflexivity |]. split; [reflexivity |].
      pose proof (Phi_symmetry d1) as S1. pose proof (Phi_symmetry d2) as S2.
      replace (A * (f - k))
        with (A * (f * (Phi d1 + Phi (- d1)) - k * (Phi d2 + Phi (- d2))))
        by (rewrite S1, S2; ring).
      ring.
Qed.

(** The annuity loop adds [payment_frequency * discount_factor *
    notional] per payment date. *)
Lemma annuity_loop_sum (m : rate_model) v fq N dates dfs :
  Forall2 (fun d df =>
             rm_zero_coupon_bond_price m v d (rm_r0 m) = Ok (Fin df))
          dates dfs ->
  forall acc,
    annuity_loop m v fq N dates (Fin acc)
    = Ok (Fin (acc + swap_annuity_of fq N dfs)).
Proof.
  unfold swap_annuity_of.
  induction 1 as [| d df dates dfs Hd _ IH]; intros acc; cbn.
  - do 2 f_equal. lra.
  - rewrite Hd. cbn [bind np_mul np_add]. rewrite IH. do 2 f_equal.
    unfold np_sum. lra.
Qed.

End SwaptionParity.

(** X9.  Payer-receiver parity.  When the expiry check passes, the swap
    pricer quotes a positive finite par rate [f], the strike [k] is
    positive, the rate model quotes a finite discount factor for every
    payment date of the underlying swap, and the case of a positive
    time to expiry with zero volatility and [f = k] is excluded,
    [SwaptionPricer.price] for the payer swaption minus the same for
    the receiver swaption is the swap annuity, the sum of
    [payment_frequency * discount_factor * notional] over the payment
    dates, times [f - k]. *)
Theorem swaption_payer_receiver_parity (p : SwaptionPricer.t)
  (valuation_date expiry_date underlying_swap_start underlying_swap_end : R)
  (strike : pynum) (k payment_frequency notional : R) (volatility : option R)
  (forward_swap_rate : pynum) (f : R) (payment_dates discount_factors : list R) :
  underlying_swap_start <= expiry_date ->
  SwaptionPricer.par_rate p underlying_swap_start underlying_swap_end
    payment_frequency = Ok forward_swap_rate ->
  num_val forward_swap_rate = Fin f -> 0 < f ->
  num_val strike = Fin k -> 0 < k ->
  np_arange (underlying_swap_start + payment_frequency)
    (underlying_swap_end + eps) payment_frequency = Ok payment_dates ->
  Forall2 (fun d df =>
             rm_zero_coupon_bond_price (SwaptionPricer.rate_model_of p)
               valuation_date d (rm_r0 (SwaptionPricer.rate_model_of p))
             = Ok (Fin df))
          payment_dates discount_factors ->
  (valuation_date < expiry_date ->
   CapFloorPricer.vol_or_default volatility <> 0 \/ f <> k) ->
  exists payer receiver,
    SwaptionPricer.price p valuation_date expiry_date underlying_swap_start
      underlying_swap_end strike payment_frequency notional volatility true
    = Ok (Fin payer) /\
    SwaptionPricer.price p valuation_date expiry_date underlying_swap_start
      underlying_swap_end strike payment_frequency notional volatility false
    = Ok (Fin receiver) /\
    payer - receiver
    = swap_annuity_of payment_frequency notional discount_factors * (f - k).
Proof.
  intros He Hpar HF Hf HK Hk Hdates Hdfs Hdom.
  rewrite !swaption_price_late_expiry by exact He.
  unfold SwaptionPricer.valuation. rewrite Hpar, Hdates. cbn [bind].
  rewrite (annuity_loop_sum _ _ _ _ _ _ Hdfs). cbn [bind].
  replace (0 + swap_annuity_of payment_frequency notional discount_factors)
    with (swap_annuity_of payment_frequency notional discount_factors) by lra.
  apply black_payer_receiver_parity; try assumption.
  intros Hpos. apply Hdom. rewrite py_max_Rmax in Hpos.
  unfold Rmax in Hpos. destruct (Rle_dec 0 (expiry_date - valuation_date)); lra.
Qed.

Lemma swaption_payer_receiver_parity_witness :
  exists payer receiver,
    SwaptionPricer.price flat_swaption_pricer_example 0 1 1 1.5
      (PyFloat (Fin 0.04)) 0.5 1 None true = Ok (Fin payer) /\
    SwaptionPricer.price flat_swaption_pricer_example 0 1 1 1.5
      (PyFloat (Fin 0.04)) 0.5 1 None false = Ok (Fin receiver) /\
    payer - receiver
    = swap_annuity_of 0.5 1 [exp (Ropp 0.05 * (1 + 0.5 + INR 0 * 0.5 - 0))]
      * (0.03 - 0.04).
Proof.
  apply (swaption_payer_receiver_parity flat_swaption_pricer_example 0 1 1 1.5
           (PyFloat (Fin 0.04)) 0.04 0.5 1 None (NpFloat64 (Fin 0.03)) 0.03
           [1 + 0.5 + INR 0 * 0.5]).
  - lra.
  - reflexivity.
  - reflexivity.
  - lra.
  - reflexivity.
  - lra.
  - exact np_arange_one_period.
  - constructor; [reflexivity | constructor].
  - intros _. left. cbn. lra.
Defined.

(** X10.  A swaption built by the class [Swaption] starts its underlying
    swap at its own expiry date and ends it [underlying_swap_maturity]
    later, so that pricing it through [Swaption.price] never fails the
    expiry check of [SwaptionPricer.price]: the result is the Black
    valuation itself. *)
Theorem swaption_object_passes_expiry_check {swap : Type}
  (InterestRateSwap : R -> R -> pynum -> R -> R -> bool -> result swap)
  (expiry_date underlying_swap_maturity : R) (strike_rate : pynum)
  (is_payer : bool) (payment_frequency notional : R)
  (s : Swaption.t swap) (pricer : SwaptionPricer.t) (valuation_date : R)
  (volatility : option R) :
  Swaption.init InterestRateSwap expiry_date underlying_swap_maturity
    strike_rate is_payer payment_frequency notional = Ok s ->
  Swaption.underlying_swap_start s = expiry_date /\
  Swaption.underlying_swap_end s = expiry_date + underlying_swap_maturity /\
  Swaption.price s pricer valuation_date volatility
  = SwaptionPricer.valuation pricer valuation_date expiry_date expiry_date
      (expiry_date + underlying_swap_maturity) strike_rate payment_frequency
      notional volatility is_payer.
Proof.
  unfold Swaption.init.
  destruct (InterestRateSwap _ _ _ _ _ _) as [sw | e |]; cbn [bind];
    try discriminate.
  intros E. injection E as <-.
  split; [reflexivity |]. split; [reflexivity |].
  unfold Swaption.price. cbn.
  apply swaption_price_late_expiry. lra.
Qed.

Lemma swaption_object_passes_expiry_check_witness :
  exists s,
    Swaption.init (fun _ _ _ _ _ _ => Ok tt) 1 2 (PyFloat (Fin 0.04)) true
      0.5 1 = Ok s /\
    Swaption.price s flat_swaption_pricer_example 0 None
    = SwaptionPricer.valuation flat_swaption_pricer_example 0 1 1 (1 + 2)
        (PyFloat (Fin 0.04)) 0.5 1 None true.
Proof.
  eexists. split; [reflexivity |].
  apply (swaption_object_passes_expiry_check (fun _ _ _ _ _ _ => Ok tt)
           1 2 (PyFloat (Fin 0.04)) true 0.5 1 _
           flat_swaption_pricer_example 0 None eq_refl).
Defined.

(** ** Caps, floors and collars as objects *)

Lemma np_arange_empty start stop step :
  0 < step -> stop <= start -> np_arange start stop step = Ok [].
Proof.
  intros Hs Hle. unfold np_arange. destruct (Req_dec_T step 0); [lra |].
  set (q := (stop - start) / step).
  assert (Hq : q <= 0).
  { unfold q, Rdiv. assert (0 < / step) by now apply Rinv_0_lt_compat. nra. }
  destruct (ceilR_spec q) as [Hlo _].
  assert (Hz : (ceilR q <= 0)%Z).
  { apply Z.lt_succ_r. apply lt_IZR. rewrite succ_IZR. lra. }
  replace (Z.to_nat (ceilR q)) with 0%nat by lia. reflexivity.
Qed.

(** What a successful construction of a collar establishes: both legs
    hold the arguments and one and the same schedule. *)
Lemma collar_init_inversion start maturity Kc Kf fq N c :
  Collar.init start maturity Kc Kf fq N = Ok c ->
  exists dates,
    np_arange (start + fq) (maturity + eps) fq = Ok dates /\
    Collar.cap c = Cap.mk start maturity Kc fq N dates /\
    Collar.floor c = Floor.mk start maturity Kf fq N dates.
Proof.
  unfold Collar.init, Cap.init, Floor.init, Cap.generate_payment_schedule,
    Floor.generate_payment_schedule.
  destruct (np_arange (start + fq) (maturity + eps) fq) as [dates | e |];
    cbn [bind]; try discriminate.
  intros E. injection E as <-. exists dates. repeat split.
Qed.

(** X11.  A collar whose cap and floor have the same strike [k] is a
    strip of forwards.  When all the forward rates and [k] are
    positive, the quotes of the rate model over the schedule held by
    the collar are finite, and no period combines a positive time to
    fixing, a zero volatility and a forward rate equal to [k],
    [Collar.price] returns the sum over the periods of
    [discount_factor * notional * payment_frequency * (forward - k)]. *)
Theorem collar_at_equal_strikes_is_strip_of_forwards (m : rate_model)
  (valuation_date start_date maturity_date : R) (strike : pynum) (k : R)
  (payment_frequency notional : R) (volatility : option R) (c : Collar.t)
  (qs : list (R * R * R)) :
  Collar.init start_date maturity_date strike strike payment_frequency
    notional = Ok c ->
  period_quotes m valuation_date start_date
    (Cap.payment_dates (Collar.cap c)) qs ->
  num_val strike = Fin k -> 0 < k ->
  Forall (fun q => let '(fixing_start, f, _) := q in
                   0 < f /\
                   (valuation_date < fixing_start ->
                    CapFloorPricer.vol_or_default volatility <> 0 \/ f <> k))
         qs ->
  Collar.price c m valuation_date volatility
  = Ok (Fin (forward_minus_strike_flows k payment_frequency notional qs)).
Proof.
  intros Hinit Hq HK Hk Hall.
  destruct (collar_init_inversion _ _ _ _ _ _ _ Hinit)
    as (dates & Hdates & Hcap & Hfloor).
  rewrite Hcap in Hq. cbn [Cap.payment_dates] in Hq.
  unfold Collar.price, Cap.price, Floor.price. rewrite Hcap, Hfloor.
  cbn [Cap.start_date Cap.maturity_date Cap.strike Cap.payment_frequency
       Cap.notional Floor.start_date Floor.maturity_date Floor.strike
       Floor.payment_frequency Floor.notional].
  unfold CapFloorPricer.price_cap, CapFloorPricer.price_floor.
  rewrite Hdates. cbn [bind].
  destruct (loops_parity m valuation_date strike k payment_frequency notional
              volatility HK Hk dates start_date qs 0 0 Hq Hall)
    as (cp & fl & -> & -> & Hsum).
  cbn [bind np_sub np_add np_neg]. do 2 f_equal. lra.
Qed.

Lemma collar_at_equal_strikes_is_strip_of_forwards_witness :
  exists c,
    Collar.init 1 1.5 (PyFloat (Fin 0.04)) (PyFloat (Fin 0.04)) 0.5 1 = Ok c /\
    Collar.price c (flat_curve 0.05) 0 None
    = Ok (Fin (forward_minus_strike_flows 0.04 0.5 1 one_period_quotes)).
Proof.
  assert (Hinit : Collar.init 1 1.5 (PyFloat (Fin 0.04)) (PyFloat (Fin 0.04))
                    0.5 1
                  = Ok (Collar.mk
                          (Cap.mk 1 1.5 (PyFloat (Fin 0.04)) 0.5 1
                             [1 + 0.5 + INR 0 * 0.5])
                          (Floor.mk 1 1.5 (PyFloat (Fin 0.04)) 0.5 1
                             [1 + 0.5 + INR 0 * 0.5]))).
  { unfold Collar.init, Cap.init, Floor.init, Cap.generate_payment_schedule,
      Floor.generate_payment_schedule.
    rewrite np_arange_one_period. reflexivity. }
  eexists. split; [exact Hinit |].
  apply (collar_at_equal_strikes_is_strip_of_forwards (flat_curve 0.05) 0 1
           1.5 (PyFloat (Fin 0.04)) 0.04 0.5 1 None _ one_period_quotes Hinit).
  - econstructor; [reflexivity | reflexivity | reflexivity | constructor].
  - reflexivity.
  - lra.
  - constructor; [| constructor]. split; [lra |]. intros _. left. cbn. lra.
Defined.

(** X12.  An instrument too short for a single payment period is free.
    With a positive payment frequency and a maturity before the first
    payment date (up to the guard of [1e-10]), the schedule of a cap, a
    floor or a collar is empty and [price] returns exactly 0, whatever
    the strikes, the volatility and the rate model, which is never
    consulted. *)
Theorem instruments_without_period_are_free (m : rate_model)
  (valuation_date start_date maturity_date : R) (cap_strike floor_strike : pynum)
  (payment_frequency notional : R) (volatility : option R) :
  0 < payment_frequency ->
  maturity_date + eps <= start_date + payment_frequency ->
  exists c,
    Collar.init start_date maturity_date cap_strike floor_strike
      payment_frequency notional = Ok c /\
    Cap.payment_dates (Collar.cap c) = [] /\
    Floor.payment_dates (Collar.floor c) = [] /\
    Cap.price (Collar.cap c) m valuation_date volatility = Ok (Fin 0) /\
    Floor.price (Collar.floor c) m valuation_date volatility = Ok (Fin 0) /\
    Collar.price c m valuation_date volatility = Ok (Fin 0).
Proof.
  intros Hfq Hshort.
  pose proof (np_arange_empty (start_date + payment_frequency)
                (maturity_date + eps) payment_frequency Hfq Hshort) as He.
  unfold Collar.init, Cap.init, Floor.init, Cap.generate_payment_schedule,
    Floor.generate_payment_schedule.
  rewrite He. cbn [bind]. eexists. split; [reflexivity |].
  unfold Collar.price, Cap.price, Floor.price.
  cbn [Collar.cap Collar.floor Cap.payment_dates Floor.payment_dates
       Cap.start_date Cap.maturity_date Cap.strike Cap.payment_frequency
       Cap.notional Floor.start_date Floor.maturity_date Floor.strike
       Floor.payment_frequency Floor.notional].
  unfold CapFloorPricer.price_cap, CapFloorPricer.price_floor.
  rewrite He. cbn [bind CapFloorPricer.price_cap_loop
                   CapFloorPricer.price_floor_loop np_sub np_add np_neg].
  repeat split. do 2 f_equal. lra.
Qed.

Lemma instruments_without_period_are_free_witness :
  exists c,
    Collar.init 1 1.2 (PyFloat (Fin 0.05)) (PyFloat (Fin 0.03)) 0.5 1 = Ok c /\
    Collar.price c (flat_curve 0.05) 0 None = Ok (Fin 0).
Proof.
  destruct (instruments_without_period_are_free (flat_curve 0.05) 0 1 1.2
              (PyFloat (Fin 0.05)) (PyFloat (Fin 0.03)) 0.5 1 None)
    as (c & Hc & _ & _ & _ & _ & Hp); [lra | unfold eps; lra |].
  exists c. split; assumption.
Defined.

(** ** The arrays of a simulated path *)

(** Names the outcome of the first call a returned result is bound to. *)
Ltac bind_step H x E :=
  match type of H with
  | bind ?c _ = Ok _ =>
      destruct c as [x | ? |] eqn:E; cbn [bind] in H;
      [| discriminate H | discriminate H]
  end.

Lemma get_entry l j v : get l j = Ok v -> entry l j = v.
Proof. intros H. apply get_Ok in H. unfold entry. now apply nth_error_nth. Qed.

Lemma set_entry l t v l' :
  set l t v = Ok l' ->
  length l' = length l /\ entry l' t = v /\
  forall j, j <> t -> entry l' j = entry l j.
Proof.
  intros H. apply set_Ok in H as (Hl & Ht & Ho). split; [exact Hl |]. split.
  - unfold entry. now apply nth_error_nth.
  - intros j Hj. unfold entry. rewrite <- !nth_default_eq.
    unfold nth_default. now rewrite (Ho j Hj).
Qed.

Section PathArrays.

Import HedgingSimulator.

Variable sim : HedgingSimulator.t.
Variable T : nat.
Variable time_grid : list R.
Variable rebalance_steps : list Z.

(** One pass of the inner loop at step [t >= 1], on rows whose cost at
    [t] is still zero: the model takes the rate of the step, the rows
    keep their lengths and every entry other than [t], and their
    entries at [t] are as [path_step_ok] says. *)
Lemma step_rows rates_row m a t m' a' :
  (1 <= t)%nat ->
  entry (row_hedge_costs a) t = Fin 0 ->
  step sim rates_row time_grid rebalance_steps (m, a) t = Ok (m', a') ->
  m' = CIR.set_r0 m (entry rates_row t) /\
  (forall n, rows_length n a -> rows_length n a') /\
  (forall k, (k < t)%nat -> agree_upto k a a') /\
  (forall j, (t < j)%nat ->
     entry (row_hedge_costs a') j = entry (row_hedge_costs a) j) /\
  path_step_ok sim m time_grid rebalance_steps rates_row a' t.
Proof.
  intros Ht Hzero Hstep. unfold step in Hstep.
  assert (Hne : (t - 1 <> t)%nat) by lia.
  bind_step Hstep rate_t Erate. apply get_entry in Erate.
  bind_step Hstep time_t Etime. apply get_Ok in Etime.
  apply (nth_error_nth _ _ 0) in Etime.
  bind_step Hstep value_t Evalue.
  bind_step Hstep ivs Eivs. apply set_entry in Eivs as (Livs & Tivs & Oivs).
  bind_step Hstep ratio_prev Eratio. apply get_entry in Eratio.
  bind_step Hstep hvs Ehvs. apply set_entry in Ehvs as (Lhvs & Thvs & Ohvs).
  bind_step Hstep iv_t Eivt. apply get_entry in Eivt.
  bind_step Hstep iv_prev Eivp. apply get_entry in Eivp.
  bind_step Hstep hv_t Ehvt. apply get_entry in Ehvt.
  bind_step Hstep hv_prev Ehvp. apply get_entry in Ehvp.
  unfold path_step_ok. cbn zeta.
  destruct (is_rebalance_step t rebalance_steps) eqn:Hreb.
  - bind_step Hstep new_ratio Enew.
    bind_step Hstep hcs Ehcs. apply set_entry in Ehcs as (Lhcs & Thcs & Ohcs).
    bind_step Hstep hrs Ehrs. apply set_entry in Ehrs as (Lhrs & Thrs & Ohrs).
    bind_step Hstep pnl_prev Epp. apply get_entry in Epp.
    bind_step Hstep pnls Epnls.
    apply set_entry in Epnls as (Lpnls & Tpnls & Opnls).
    injection Hstep as <- <-.
    cbn [row_instrument_values row_hedge_values row_hedge_ratios row_pnl
         row_hedge_costs].
    split; [now rewrite Erate |].
    split; [intros n (H1 & H2 & H3 & H4 & H5); repeat split; cbn; congruence |].
    split; [intros k Hk j Hj;
            cbn [row_instrument_values row_hedge_values row_hedge_ratios
                 row_pnl row_hedge_costs];
            rewrite Oivs, Ohvs, Ohrs, Opnls, Ohcs by lia; repeat split |].
    split; [intros j Hj; apply Ohcs; lia |].
    rewrite (Oivs _ Hne), (Ohvs _ Hne), (Ohrs _ Hne), (Opnls _ Hne).
    rewrite Tivs in Eivt. rewrite (Oivs _ Hne) in Eivp.
    rewrite Thvs in Ehvt. rewrite (Ohvs _ Hne) in Ehvp.
    subst iv_t iv_prev hv_t hv_prev rate_t time_t ratio_prev pnl_prev.
    rewrite Tpnls, Thcs, Thrs, Thvs, Tivs.
    repeat split; try assumption; reflexivity.
  - bind_step Hstep hrs Ehrs. apply set_entry in Ehrs as (Lhrs & Thrs & Ohrs).
    bind_step Hstep pnl_prev Epp. apply get_entry in Epp.
    bind_step Hstep pnls Epnls.
    apply set_entry in Epnls as (Lpnls & Tpnls & Opnls).
    injection Hstep as <- <-.
    cbn [row_instrument_values row_hedge_values row_hedge_ratios row_pnl
         row_hedge_costs].
    split; [now rewrite Erate |].
    split; [intros n (H1 & H2 & H3 & H4 & H5); repeat split; cbn; congruence |].
    split; [intros k Hk j Hj;
            cbn [row_instrument_values row_hedge_values row_hedge_ratios
                 row_pnl row_hedge_costs];
            rewrite Oivs, Ohvs, Ohrs, Opnls by lia; repeat split |].
    split; [reflexivity |].
    rewrite (Oivs _ Hne), (Ohvs _ Hne), (Ohrs _ Hne), (Opnls _ Hne).
    rewrite Tivs in Eivt. rewrite (Oivs _ Hne) in Eivp.
    rewrite Thvs in Ehvt. rewrite (Ohvs _ Hne) in Ehvp.
    subst iv_t iv_prev hv_t hv_prev rate_t time_t ratio_prev pnl_prev.
    rewrite Tpnls, Thrs, Thvs, Tivs.
    repeat split; try assumption; reflexivity.
Qed.

End PathArrays.

Section PathPostcondition.

Import HedgingSimulator.

Variable sim : HedgingSimulator.t.
Variable T : nat.
Variable time_grid : list R.
Variable rebalance_steps : list Z.

Lemma agree_upto_trans t a1 a2 a3 :
  agree_upto t a1 a2 -> agree_upto t a2 a3 -> agree_upto t a1 a3.
Proof.
  intros H12 H23 j Hj.
  destruct (H12 j Hj) as (A1 & A2 & A3 & A4 & A5).
  destruct (H23 j Hj) as (B1 & B2 & B3 & B4 & B5).
  repeat split; congruence.
Qed.

Lemma path_start_ok_frame m rates_row a a' :
  agree_upto 0 a a' ->
  path_start_ok sim m time_grid rates_row a ->
  path_start_ok sim m time_grid rates_row a'.
Proof.
  intros Hag. destruct (Hag 0%nat (le_n 0)) as (E1 & E2 & E3 & E4 & E5).
  unfold path_start_ok. cbn zeta. rewrite E1, E2, E3, E4, E5. exact (fun H => H).
Qed.

Lemma path_step_ok_frame m rates_row a a' t :
  agree_upto t a a' ->
  path_step_ok sim m time_grid rebalance_steps rates_row a t ->
  path_step_ok sim m time_grid rebalance_steps rates_row a' t.
Proof.
  intros Hag. destruct (Hag t (le_n t)) as (E1 & E2 & E3 & E4 & E5).
  destruct (Hag (t - 1)%nat ltac:(lia)) as (F1 & F2 & F3 & F4 & F5).
  unfold path_step_ok. cbn zeta.
  rewrite E1, E2, E3, E4, E5, F1, F2, F3, F4. exact (fun H => H).
Qed.

(** The postconditions only depend on the rate model up to its current
    rate, which every step overwrites. *)
Lemma path_start_ok_model m1 m2 rates_row a :
  same_but_r0 m1 m2 ->
  path_start_ok sim m1 time_grid rates_row a ->
  path_start_ok sim m2 time_grid rates_row a.
Proof.
  intros Hs. unfold path_start_ok. cbn zeta. now rewrite (Hs _).
Qed.

Lemma path_step_ok_model m1 m2 rates_row a t :
  same_but_r0 m1 m2 ->
  path_step_ok sim m1 time_grid rebalance_steps rates_row a t ->
  path_step_ok sim m2 time_grid rebalance_steps rates_row a t.
Proof.
  intros Hs. unfold path_step_ok. cbn zeta. now rewrite (Hs _).
Qed.

(** The inner loop of one path, from rows whose costs after step 0 are
    still zero. *)
Lemma inner_loop_rows rates_row m0 a0 :
  rows_length (T + 1) a0 ->
  (forall j, (1 <= j <= T)%nat -> entry (row_hedge_costs a0) j = Fin 0) ->
  forall steps m' a',
    (steps <= T)%nat ->
    for_each (step sim rates_row time_grid rebalance_steps) (seq 1 steps)
      (m0, a0) = Ok (m', a') ->
    same_but_r0 m' m0 /\
    rows_length (T + 1) a' /\
    agree_upto 0 a0 a' /\
    (forall j, (steps < j <= T)%nat -> entry (row_hedge_costs a') j = Fin 0) /\
    forall t, (1 <= t <= steps)%nat ->
      path_step_ok sim m0 time_grid rebalance_steps rates_row a' t.
Proof.
  intros Hlen Hzero. induction steps as [| k IH]; intros m' a' Hk Hrun.
  - cbn in Hrun. injection Hrun as <- <-.
    split; [intros r; reflexivity |]. split; [exact Hlen |].
    split; [intros j _; repeat split |].
    split; [intros j Hj; apply Hzero; lia | intros t Ht; lia].
  - rewrite seq_S, for_each_app in Hrun.
    destruct (for_each _ (seq 1 k) (m0, a0)) as [[m1 a1] | e |] eqn:E;
      cbn [bind for_each] in Hrun; try discriminate.
    destruct (IH m1 a1 ltac:(lia) eq_refl) as (Hs1 & Hl1 & Hag1 & Hz1 & Hok1).
    destruct (step sim rates_row time_grid rebalance_steps (m1, a1) (1 + k))
      as [[m2 a2] | e |] eqn:Hstep; cbn [bind] in Hrun; try discriminate.
    injection Hrun as <- <-.
    destruct (step_rows sim time_grid rebalance_steps rates_row m1 a1 (1 + k)
                m2 a2 ltac:(lia) (Hz1 (1 + k)%nat ltac:(lia)) Hstep)
      as (-> & Hl2 & Hag2 & Hz2 & Hok2).
    split; [intros r; cbn; apply (Hs1 r) |].
    split; [now apply Hl2 |].
    split; [eapply agree_upto_trans; [exact Hag1 | apply Hag2; lia] |].
    split; [intros j Hj; rewrite Hz2 by lia; apply Hz1; lia |].
    intros t Ht. destruct (Nat.eq_dec t (1 + k)) as [-> | Hne].
    + eapply path_step_ok_model; [exact Hs1 | exact Hok2].
    + eapply path_step_ok_frame; [apply Hag2; lia | apply Hok1; lia].
Qed.

End PathPostcondition.

Section PathLoops.

Import HedgingSimulator.

Variable sim : HedgingSimulator.t.
Variable T : nat.
Variable time_grid : list R.
Variable rebalance_steps : list Z.

Lemma entry_zeros n j : (j < n)%nat -> entry (np_zeros n) j = Fin 0.
Proof.
  intros Hj. unfold entry, np_zeros.
  rewrite (nth_indep _ NaN (Fin 0)) by now rewrite repeat_length.
  apply nth_repeat.
Qed.

(** One path, run with the rate model [m]. *)
Lemma simulate_path_rows m rates_row m' a' :
  simulate_path sim T time_grid rebalance_steps m rates_row = Ok (m', a') ->
  same_but_r0 m' m /\
  path_ok sim m T time_grid rebalance_steps rates_row a'.
Proof.
  intros Hrun. unfold simulate_path in Hrun.
  assert (Hz : length (np_zeros (T + 1)) = (T + 1)%nat) by apply repeat_length.
  bind_step Hrun rate_0 Erate. apply get_entry in Erate.
  bind_step Hrun time_0 Etime. apply get_Ok in Etime.
  apply (nth_error_nth _ _ 0) in Etime.
  bind_step Hrun value_0 Evalue.
  bind_step Hrun ivs Eivs. apply set_entry in Eivs as (Livs & Tivs & _).
  bind_step Hrun ratio_0 Eratio.
  bind_step Hrun hrs Ehrs. apply set_entry in Ehrs as (Lhrs & Thrs & _).
  bind_step Hrun hvs Ehvs. apply set_entry in Ehvs as (Lhvs & Thvs & _).
  bind_step Hrun pnls Epnls. apply set_entry in Epnls as (Lpnls & Tpnls & _).
  set (a0 := mk_rows ivs hvs hrs pnls (np_zeros (T + 1))) in Hrun.
  assert (Hs0 : same_but_r0 (CIR.set_r0 m rate_0) m) by (intros r; reflexivity).
  assert (Hstart : path_start_ok sim (CIR.set_r0 m rate_0) time_grid
                     rates_row a0).
  { unfold path_start_ok. cbn zeta.
    cbn [a0 row_instrument_values row_hedge_values row_hedge_ratios row_pnl
         row_hedge_costs].
    rewrite Tivs, Thrs, Thvs, Tpnls, Erate, Etime, entry_zeros by lia.
    repeat split; assumption. }
  destruct (inner_loop_rows sim T time_grid rebalance_steps rates_row
              (CIR.set_r0 m rate_0) a0) with (steps := T) (m' := m') (a' := a')
    as (Hs & Hl & Hag & _ & Hok).
  - repeat split; cbn; congruence.
  - intros j Hj. cbn. apply entry_zeros. lia.
  - lia.
  - exact Hrun.
  - split; [intros r; rewrite (Hs r); apply Hs0 |].
    split; [exact Hl |]. split.
    + eapply path_start_ok_model; [exact Hs0 |].
      eapply path_start_ok_frame; eassumption.
    + intros t Ht. eapply path_step_ok_model; [exact Hs0 | now apply Hok].
Qed.

(** The outer loop: the rows of every path are as [path_ok] says, with
    the rate model the loop started with. *)
Lemma path_loop_rows m : forall rates m' rows,
  for_each (path_body sim T time_grid rebalance_steps) rates (m, [])
  = Ok (m', rows) ->
  same_but_r0 m' m /\
  Forall2 (path_ok sim m T time_grid rebalance_steps) rates rows.
Proof.
  intros rates. induction rates as [| row rates IH] using rev_ind;
    intros m' rows Hrun.
  - cbn in Hrun. injection Hrun as <- <-.
    split; [intros r; reflexivity | constructor].
  - rewrite for_each_app in Hrun.
    destruct (for_each _ rates (m, [])) as [[m1 rows1] | e |] eqn:E;
      cbn [bind for_each] in Hrun; try discriminate.
    destruct (IH m1 rows1 eq_refl) as (Hs1 & Hall).
    unfold path_body in Hrun at 1. cbn [fst snd] in Hrun.
    destruct (simulate_path sim T time_grid rebalance_steps m1 row)
      as [[m2 a2] | e |] eqn:Hpath; cbn [bind fst snd] in Hrun;
      try discriminate.
    injection Hrun as <- <-.
    destruct (simulate_path_rows _ _ _ _ Hpath) as (Hs2 & Hl & Hstart & Hok).
    split; [intros r; rewrite (Hs2 r); apply Hs1 |].
    apply Forall2_app; [exact Hall |]. constructor; [| constructor].
    split; [exact Hl |]. split.
    + eapply path_start_ok_model; eassumption.
    + intros t Ht. eapply path_step_ok_model; [exact Hs1 | now apply Hok].
Qed.

End PathLoops.

Lemma Forall2_nth_error {A B} (P : A -> B -> Prop) l1 l2 :
  Forall2 P l1 l2 ->
  forall p x y, nth_error l1 p = Some x -> nth_error l2 p = Some y -> P x y.
Proof.
  induction 1 as [| a b l1 l2 Hab _ IH]; intros [| p] x y Hx Hy; cbn in *;
    try discriminate.
  - injection Hx as <-. injection Hy as <-. exact Hab.
  - eapply IH; eassumption.
Qed.

Lemma nth_error_map_Some {A B} (f : A -> B) l p y :
  nth_error (map f l) p = Some y ->
  exists a, nth_error l p = Some a /\ f a = y.
Proof.
  revert p. induction l as [| a l IH]; intros [| p] H; cbn in *;
    try discriminate.
  - injection H as <-. now exists a.
  - now apply IH.
Qed.

(** What a returned simulation establishes about its arrays: with the
    rate model as the call leaves it, the rebalancing steps collected
    by the [while] loop and the time grid of the result, every path has
    its rows as [path_ok] says. *)
Lemma simulate_paths_ok `{NumpyRandom} fuel sim m n_paths time_horizon seed g
  res m' g' :
  HedgingSimulator.simulate fuel sim m n_paths time_horizon seed g
  = Ok (res, m', g') ->
  let th := HedgingSimulator.horizon_or_default m time_horizon in
  let T := Z.to_nat (CIR.timesteps m') in
  exists steps rows,
    HedgingSimulator.rebalance_loop fuel (CIR.dt m') th
      (HedgingSimulator.rebalance_frequency sim) (CIR.timesteps m') 0 []
    = Ok steps /\
    (0 <= CIR.timesteps m')%Z /\
    HedgingSimulator.times res = np_linspace 0 th (T + 1) /\
    length (HedgingSimulator.rates res) = n_paths /\
    Forall2 (path_ok sim m' T (HedgingSimulator.times res) steps)
      (HedgingSimulator.rates res) rows /\
    HedgingSimulator.instrument_values res
    = map HedgingSimulator.row_instrument_values rows /\
    HedgingSimulator.hedge_values res
    = map HedgingSimulator.row_hedge_values rows /\
    HedgingSimulator.hedge_ratios res
    = map HedgingSimulator.row_hedge_ratios rows /\
    HedgingSimulator.pnl res = map HedgingSimulator.row_pnl rows /\
    HedgingSimulator.hedge_costs res
    = map HedgingSimulator.row_hedge_costs rows.
Proof.
  intros Hrun th T. unfold HedgingSimulator.simulate in Hrun. fold th in Hrun.
  destruct (HedgingSimulator.adapt_horizon m th) as [m1 | e |] eqn:Ha;
    cbn [bind] in Hrun; try discriminate.
  destruct (CIR.simulate_rates m1 n_paths seed g) as [[rates g1] | e |] eqn:Hr;
    cbn [bind fst snd] in Hrun; try discriminate.
  destruct (HedgingSimulator.rebalance_loop _ _ _ _ _ _ _)
    as [steps | e |] eqn:Hs; cbn [bind] in Hrun; try discriminate.
  destruct (for_each _ rates (m1, [])) as [[m2 rows] | e |] eqn:Hp;
    cbn [bind fst snd] in Hrun; try discriminate.
  injection Hrun as <- <- <-.
  cbn [HedgingSimulator.times HedgingSimulator.rates
       HedgingSimulator.instrument_values HedgingSimulator.hedge_values
       HedgingSimulator.hedge_ratios HedgingSimulator.pnl
       HedgingSimulator.hedge_costs].
  destruct (simulate_rates_shape _ _ _ _ _ _ Hr) as (Hts & Hn & _).
  destruct (path_loop_rows _ _ _ _ _ _ _ _ Hp) as (Hsame & Hall).
  destruct (same_but_r0_fields _ _ Hsame) as (_ & _ & _ & Ets & _ & Edt).
  unfold T. rewrite Ets, Edt.
  replace (Z.to_nat (CIR.timesteps m1) + 1)%nat
    with (Z.to_nat (CIR.timesteps m1 + 1)) by lia.
  exists steps, rows. repeat split; try assumption.
  eapply Forall2_impl; [| exact Hall].
  intros rates_row a (Hl & Hstart & Hok). split; [exact Hl |]. split.
  - eapply path_start_ok_model; [| exact Hstart].
    intros r. symmetry. apply Hsame.
  - intros t Ht. eapply path_step_ok_model; [| now apply Hok].
    intros r. symmetry. apply Hsame.
Qed.

(** X13.  The shared rate model does not leak between paths.  In every
    returned simulation, each entry of [instrument_values] is the price
    of the instrument at the time of its step on the rate model with
    the rate of its own path and step as current rate, all other fields
    being those of the rate model as [simulate] leaves it: no entry
    depends on the rates of another path or of another step. *)
Theorem instrument_values_depend_on_own_rate `{NumpyRandom}
  (fuel : nat) (sim : HedgingSimulator.t) (m : CIR.t) (n_paths : nat)
  (time_horizon : option R) (seed : option Z) (g : rng)
  (res : HedgingSimulator.results npfloat) (m' : CIR.t) (g' : rng) :
  HedgingSimulator.simulate fuel sim m n_paths time_horizon seed g
  = Ok (res, m', g') ->
  forall p rates_row values,
    nth_error (HedgingSimulator.rates res) p = Some rates_row ->
    nth_error (HedgingSimulator.instrument_values res) p = Some values ->
    forall t, (t <= Z.to_nat (CIR.timesteps m'))%nat ->
      HedgingSimulator.instrument_price sim
        (CIR.set_r0 m' (entry rates_row t))
        (nth t (HedgingSimulator.times res) 0)
      = Ok (entry values t).
Proof.
  intros Hrun p rates_row values Hrow Hval t Ht.
  destruct (simulate_paths_ok _ _ _ _ _ _ _ _ _ _ Hrun)
    as (steps & rows & _ & _ & _ & _ & Hall & Eiv & _).
  rewrite Eiv in Hval. apply nth_error_map_Some in Hval as (a & Ha & <-).
  destruct (Forall2_nth_error _ _ _ Hall p rates_row a Hrow Ha)
    as (_ & Hstart & Hok).
  destruct t as [| t].
  - apply Hstart.
  - apply (Hok (S t)). lia.
Qed.

Lemma instrument_values_depend_on_own_rate_witness :
  exists res m' g',
    HedgingSimulator.simulate (H := counter_random) 1 simulator_example
      cir_example 2 None (Some 42%Z) 0%nat = Ok (res, m', g') /\
    forall p rates_row values,
      nth_error (HedgingSimulator.rates res) p = Some rates_row ->
      nth_error (HedgingSimulator.instrument_values res) p = Some values ->
      forall t, (t <= Z.to_nat (CIR.timesteps m'))%nat ->
        Ok (np_exp (- entry rates_row t
                    * Fin (5 - nth t (HedgingSimulator.times res) 0))%np)
        = Ok (entry values t).
Proof.
  destruct simulate_example_returns as [[[res m'] g'] Hrun].
  exists res, m', g'. split; [exact Hrun |].
  exact (instrument_values_depend_on_own_rate (H := counter_random) 1
           simulator_example cir_example 2 None (Some 42%Z) 0%nat res m' g'
           Hrun).
Defined.




(** ** The accounting identity of the P&L *)

Lemma entry_map_Fin xs j :
  (j < length xs)%nat -> entry (map Fin xs) j = Fin (nth j xs 0).
Proof.
  intros Hj. unfold entry.
  rewrite (nth_indep _ NaN (Fin 0)) by now rewrite length_map.
  apply (map_nth Fin).
Qed.

Lemma np_sum_firstn_S l : forall t,
  (t < length l)%nat ->
  np_sum (firstn (S t) l) = np_sum (firstn t l) + nth t l 0.
Proof.
  unfold np_sum. induction l as [| x l IH]; intros t Ht; cbn in Ht; [lia |].
  destruct t as [| t].
  - cbn. lra.
  - rewrite !firstn_cons. cbn [fold_right nth]. rewrite IH by lia. lra.
Qed.

(** With finite instrument values, hedge values and hedge costs, the
    recurrences of a path telescope. *)
Lemma pnl_telescopes sim m T time_grid steps rates_row a ivR hvR hcR :
  path_ok sim m T time_grid steps rates_row a ->
  HedgingSimulator.row_instrument_values a = map Fin ivR ->
  HedgingSimulator.row_hedge_values a = map Fin hvR ->
  HedgingSimulator.row_hedge_costs a = map Fin hcR ->
  forall t, (t <= T)%nat ->
    entry (HedgingSimulator.row_pnl a) t
    = Fin ((nth t ivR 0 - nth 0 ivR 0) - (nth t hvR 0 - nth 0 hvR 0)
           - np_sum (firstn (t + 1) hcR)).
Proof.
  intros ((L1 & L2 & _ & _ & L5) & Hstart & Hok) Eiv Ehv Ehc.
  rewrite Eiv, length_map in L1. rewrite Ehv, length_map in L2.
  rewrite Ehc, length_map in L5.
  induction t as [| t IH]; intros Ht.
  - destruct Hstart as (_ & _ & _ & Hp0 & Hc0). rewrite Hp0.
    rewrite Ehc, entry_map_Fin in Hc0 by lia. injection Hc0 as Hc0.
    cbn [Nat.add]. rewrite np_sum_firstn_S by lia. rewrite firstn_O, Hc0.
    f_equal. cbn. lra.
  - specialize (IH ltac:(lia)). specialize (Hok (S t) ltac:(lia)).
    unfold path_step_ok in Hok. cbn zeta in Hok.
    replace (S t - 1)%nat with t in Hok by lia.
    rewrite Eiv, Ehv, Ehc in Hok. rewrite !entry_map_Fin in Hok by lia.
    replace (S t + 1)%nat with (S (t + 1)) by lia.
    rewrite np_sum_firstn_S by lia.
    replace (t + 1)%nat with (S t) in * by lia.
    destruct (HedgingSimulator.is_rebalance_step (S t) steps).
    + destruct Hok as (_ & _ & _ & _ & ->). rewrite IH.
      cbn [np_add np_sub np_neg]. f_equal. lra.
    + destruct Hok as (_ & _ & _ & Hc & ->). rewrite IH.
      injection Hc as Hc. rewrite Hc.
      cbn [np_add np_sub np_neg]. f_equal. lra.
Qed.

(** X15.  The accounting identity of the simulation.  In every returned
    simulation and for every path whose instrument values, hedge values
    and hedge costs are finite, the cumulative P&L at each step [t] is
    the change of the instrument value since step 0, minus the change
    of the hedge value since step 0, minus the hedge costs charged up
    to [t]. *)
Theorem pnl_is_value_change_net_of_costs `{NumpyRandom}
  (fuel : nat) (sim : HedgingSimulator.t) (m : CIR.t) (n_paths : nat)
  (time_horizon : option R) (seed : option Z) (g : rng)
  (res : HedgingSimulator.results npfloat) (m' : CIR.t) (g' : rng) :
  HedgingSimulator.simulate fuel sim m n_paths time_horizon seed g
  = Ok (res, m', g') ->
  forall p values hedges costs pnl_row,
    nth_error (HedgingSimulator.instrument_values res) p
    = Some (map Fin values) ->
    nth_error (HedgingSimulator.hedge_values res) p = Some (map Fin hedges) ->
    nth_error (HedgingSimulator.hedge_costs res) p = Some (map Fin costs) ->
    nth_error (HedgingSimulator.pnl res) p = Some pnl_row ->
    forall t, (t <= Z.to_nat (CIR.timesteps m'))%nat ->
      entry pnl_row t
      = Fin ((nth t values 0 - nth 0 values 0)
             - (nth t hedges 0 - nth 0 hedges 0)
             - np_sum (firstn (t + 1) costs)).
Proof.
  intros Hrun p values hedges costs pnl_row Hiv Hhv Hhc Hpnl t Ht.
  destruct (simulate_paths_ok _ _ _ _ _ _ _ _ _ _ Hrun)
    as (steps & rows & _ & _ & _ & _ & Hall & Eiv & Ehv & _ & Epnl & Ehc).
  rewrite Eiv in Hiv. apply nth_error_map_Some in Hiv as (a & Ha & Eiv').
  rewrite Ehv in Hhv. apply nth_error_map_Some in Hhv as (a2 & Ha2 & Ehv').
  rewrite Ehc in Hhc. apply nth_error_map_Some in Hhc as (a3 & Ha3 & Ehc').
  rewrite Epnl in Hpnl. apply nth_error_map_Some in Hpnl as (a4 & Ha4 & <-).
  assert (a2 = a) by congruence. assert (a3 = a) by congruence.
  assert (a4 = a) by congruence. subst a2 a3 a4.
  assert (Hrow : exists rates_row,
             nth_error (HedgingSimulator.rates res) p = Some rates_row).
  { destruct (nth_error (HedgingSimulator.rates res) p) eqn:E; [eauto |].
    apply nth_error_None in E. apply Forall2_length in Hall.
    assert (p < length rows)%nat by (apply nth_error_Some; congruence). lia. }
  destruct Hrow as [rates_row Hrow].
  pose proof (Forall2_nth_error _ _ _ Hall p rates_row a Hrow Ha) as Hpath.
  eapply pnl_telescopes; eassumption.
Qed.

(** *** When the arrays are finite *)

Lemma finite_row l :
  (forall j, (j < length l)%nat -> exists x, entry l j = Fin x) ->
  exists xs, l = map Fin xs.
Proof.
  induction l as [| a l IH]; intros Hall; [now exists [] |].
  destruct (Hall 0%nat ltac:(cbn; lia)) as [x Hx]. cbn in Hx. subst a.
  destruct IH as [xs ->].
  { intros j Hj. apply (Hall (S j)). cbn. lia. }
  now exists (x :: xs).
Qed.

(** The simulated rates of a model with a finite current rate and a
    non-negative time step are finite. *)
Lemma simulate_rates_finite `{NumpyRandom} (m : CIR.t) n_paths seed g rates g'
  r :
  CIR.r0 m = Fin r -> 0 <= CIR.dt m ->
  CIR.simulate_rates m n_paths seed g = Ok (rates, g') ->
  Forall (fun row => exists xs, row = map Fin xs) rates.
Proof.
  intros Hr0 Hdt Hrun. unfold CIR.simulate_rates in Hrun.
  destruct (match seed with Some s => np_random_seed s | None => Ok g end)
    as [g0 | e' |]; cbn [bind] in Hrun; try discriminate.
  destruct (Z_lt_dec (CIR.timesteps m + 1) 0); [discriminate |].
  destruct (Z.eq_dec (CIR.timesteps m + 1) 0); [discriminate |].
  rewrite Hr0 in Hrun.
  replace (repeat (Fin r) n_paths) with (map Fin (repeat r n_paths)) in Hrun
    by apply map_repeat.
  match type of Hrun with
  | context [CIR.simulate_loop ?a ?b ?c ?d ?e] =>
      destruct (CIR.simulate_loop a b c d e) as [[cols g1] | e' |] eqn:Hloop
  end; cbn [bind fst snd] in Hrun; try discriminate.
  injection Hrun as <- <-.
  destruct (simulate_loop_draws m n_paths _ _ _ _ _ Hdt
              (repeat_length r n_paths) Hloop)
    as (colsR & -> & _ & _ & Hall & _).
  assert (Hch : Forall (fun c => length c = n_paths) colsR).
  { eapply Forall_impl; [| exact Hall]. cbn beta. intros c Hc. apply Hc. }
  assert (Hcols : Forall (fun c => length c = n_paths)
                    (repeat r n_paths :: colsR))
    by (constructor; [apply repeat_length | exact Hch]).
  unfold rows_of_columns. apply Forall_forall. intros row Hrow.
  apply in_map_iff in Hrow as (p & <- & Hp). apply in_seq in Hp.
  exists (map (fun c => nth p c 0) (repeat r n_paths :: colsR)).
  change (map Fin (repeat r n_paths) :: map (map Fin) colsR)
    with (map (map Fin) (repeat r n_paths :: colsR)).
  rewrite !map_map. apply map_ext_in. intros c Hc.
  rewrite Forall_forall in Hcols. specialize (Hcols c Hc).
  apply entry_map_Fin. lia.
Qed.

Section FiniteRows.

Import HedgingSimulator.

Variable sim : HedgingSimulator.t.

(** The instrument has a finite price on every model with a finite
    current rate, and the strategy a finite ratio at every finite
    rate. *)
Hypothesis finite_prices :
  forall m d x, CIR.r0 m = Fin x ->
    exists v, instrument_price sim m d = Ok (Fin v).
Hypothesis finite_ratios :
  forall d x, exists v, compute_hedge_ratio sim d (Fin x) = Ok (Fin v).

Lemma path_rows_finite m T time_grid steps rates_row a :
  (exists xs, rates_row = map Fin xs) ->
  length rates_row = (T + 1)%nat ->
  path_ok sim m T time_grid steps rates_row a ->
  exists values hedges costs,
    row_instrument_values a = map Fin values /\
    row_hedge_values a = map Fin hedges /\
    row_hedge_costs a = map Fin costs.
Proof.
  intros [xs ->] Hlen ((L1 & L2 & L3 & L4 & L5) & Hstart & Hok).
  rewrite length_map in Hlen.
  assert (Hrate : forall t, (t <= T)%nat ->
            entry (map Fin xs) t = Fin (nth t xs 0))
    by (intros t Ht; apply entry_map_Fin; lia).
  destruct Hstart as (Hp0 & Hr0 & Hv0 & _ & Hc0).
  rewrite (Hrate 0%nat) in Hp0, Hr0, Hv0 by lia.
  assert (Hhr : forall t, (t <= T)%nat ->
            exists x, entry (row_hedge_ratios a) t = Fin x).
  { intros k. induction k as [| k IH]; intros Ht.
    - destruct (finite_ratios (nth 0 time_grid 0) (nth 0 xs 0)) as [v Hv].
      exists v. congruence.
    - destruct (IH ltac:(lia)) as [x Hx].
      specialize (Hok (S k) ltac:(lia)). unfold path_step_ok in Hok.
      cbn zeta in Hok. rewrite (Hrate (S k)) in Hok by lia.
      replace (S k - 1)%nat with k in Hok by lia.
      destruct (is_rebalance_step (S k) steps).
      + destruct Hok as (_ & _ & Hr & _).
        destruct (finite_ratios (nth (S k) time_grid 0) (nth (S k) xs 0))
          as [v Hv].
        exists v. congruence.
      + destruct Hok as (_ & _ & -> & _). now exists x. }
  assert (Hfacts : forall t, (1 <= t <= T)%nat ->
            (exists x, entry (row_instrument_values a) t = Fin x) /\
            (exists x, entry (row_hedge_values a) t = Fin x) /\
            (exists x, entry (row_hedge_costs a) t = Fin x)).
  { intros t Ht. specialize (Hok t Ht). unfold path_step_ok in Hok.
    cbn zeta in Hok. rewrite (Hrate t) in Hok by lia.
    destruct (Hhr (t - 1)%nat ltac:(lia)) as [hp Hhp].
    destruct (Hhr t ltac:(lia)) as [ht Hht].
    rewrite Hhp, Hht in Hok.
    destruct Hok as (Hp & Hv & Hrest).
    destruct (finite_prices (CIR.set_r0 m (Fin (nth t xs 0)))
                (nth t time_grid 0) (nth t xs 0) eq_refl) as [v Hpv].
    split; [exists v; congruence |].
    split; [rewrite Hv; cbn; eauto |].
    destruct (is_rebalance_step t steps).
    - destruct Hrest as (_ & -> & _). cbn. eauto.
    - destruct Hrest as (_ & -> & _). eauto. }
  destruct (finite_row (row_instrument_values a)) as [values Ev].
  { intros [| j] Hj.
    - destruct (finite_prices (CIR.set_r0 m (Fin (nth 0 xs 0)))
                  (nth 0 time_grid 0) (nth 0 xs 0) eq_refl) as [v Hpv].
      exists v. congruence.
    - apply (Hfacts (S j)). lia. }
  destruct (finite_row (row_hedge_values a)) as [hedges Eh].
  { intros [| j] Hj.
    - destruct (Hhr 0%nat ltac:(lia)) as [x Hx]. rewrite Hv0, Hx. cbn. eauto.
    - apply (Hfacts (S j)). lia. }
  destruct (finite_row (row_hedge_costs a)) as [costs Ec].
  { intros [| j] Hj; [rewrite Hc0; eauto | apply (Hfacts (S j)); lia]. }
  now exists values, hedges, costs.
Qed.

End FiniteRows.

(** The arrays of a returned simulation are finite when the instrument
    and the strategy return finite values, the model has a finite
    current rate and its time step is not negative. *)
Lemma simulate_arrays_finite `{NumpyRandom} fuel sim m n_paths time_horizon
  seed g res m' g' r :
  (forall m d x, CIR.r0 m = Fin x ->
     exists v, HedgingSimulator.instrument_price sim m d = Ok (Fin v)) ->
  (forall d x,
     exists v, HedgingSimulator.compute_hedge_ratio sim d (Fin x) = Ok (Fin v)) ->
  CIR.r0 m = Fin r -> 0 <= CIR.dt m ->
  HedgingSimulator.simulate fuel sim m n_paths time_horizon seed g
  = Ok (res, m', g') ->
  forall p iv hv hc,
    nth_error (HedgingSimulator.instrument_values res) p = Some iv ->
    nth_error (HedgingSimulator.hedge_values res) p = Some hv ->
    nth_error (HedgingSimulator.hedge_costs res) p = Some hc ->
    exists values hedges costs,
      iv = map Fin values /\ hv = map Fin hedges /\ hc = map Fin costs.
Proof.
  intros Hprice Hratio Hr0 Hdt Hrun p iv hv hc Hiv Hhv Hhc.
  destruct (simulate_inversion _ _ _ _ _ _ _ _ _ _ Hrun)
    as (m1 & steps0 & rows0 & Ha & Hr & _ & Hp & _).
  destruct (adapt_horizon_inversion _ _ _ Ha) as (Er0 & _ & _ & _ & Edt & _).
  destruct (path_loop_inversion _ _ _ _ _ _ _ _ Hp) as (_ & _ & Hsame & _).
  destruct (same_but_r0_fields _ _ Hsame) as (_ & _ & _ & Ets & _).
  pose proof (simulate_rates_finite m1 n_paths seed g _ _ r
                ltac:(congruence) ltac:(rewrite Edt; exact Hdt) Hr) as Hfin.
  destruct (simulate_rates_shape _ _ _ _ _ _ Hr) as (_ & _ & Hshape).
  destruct (simulate_paths_ok _ _ _ _ _ _ _ _ _ _ Hrun)
    as (steps & rows & _ & _ & _ & _ & Hall & Eiv & Ehv & _ & _ & Ehc).
  rewrite Eiv in Hiv. apply nth_error_map_Some in Hiv as (a & Ha1 & <-).
  rewrite Ehv in Hhv. apply nth_error_map_Some in Hhv as (a2 & Ha2 & <-).
  rewrite Ehc in Hhc. apply nth_error_map_Some in Hhc as (a3 & Ha3 & <-).
  assert (a2 = a) by congruence. assert (a3 = a) by congruence. subst a2 a3.
  assert (Hrow : exists rates_row,
             nth_error (HedgingSimulator.rates res) p = Some rates_row).
  { destruct (nth_error (HedgingSimulator.rates res) p) eqn:E; [eauto |].
    apply nth_error_None in E. apply Forall2_length in Hall.
    assert (p < length rows)%nat by (apply nth_error_Some; congruence). lia. }
  destruct Hrow as [rates_row Hrow].
  pose proof (Forall2_nth_error _ _ _ Hall p rates_row a Hrow Ha1) as Hpath.
  apply nth_error_In in Hrow. rewrite Forall_forall in Hfin, Hshape.
  eapply path_rows_finite; try eassumption.
  - now apply Hfin.
  - rewrite Ets. now apply Hshape.
Qed.

Lemma pnl_is_value_change_net_of_costs_witness :
  exists res m' g',
    HedgingSimulator.simulate (H := counter_random) 1 simulator_example
      cir_example 2 None (Some 42%Z) 0%nat = Ok (res, m', g') /\
    forall p iv hv hc pnl_row,
      nth_error (HedgingSimulator.instrument_values res) p = Some iv ->
      nth_error (HedgingSimulator.hedge_values res) p = Some hv ->
      nth_error (HedgingSimulator.hedge_costs res) p = Some hc ->
      nth_error (HedgingSimulator.pnl res) p = Some pnl_row ->
      exists values hedges costs,
        iv = map Fin values /\ hv = map Fin hedges /\ hc = map Fin costs /\
        forall t, (t <= Z.to_nat (CIR.timesteps m'))%nat ->
          entry pnl_row t
          = Fin ((nth t values 0 - nth 0 values 0)
                 - (nth t hedges 0 - nth 0 hedges 0)
                 - np_sum (firstn (t + 1) costs)).
Proof.
  destruct simulate_example_returns as [[[res m'] g'] Hrun].
  exists res, m', g'. split; [exact Hrun |].
  intros p iv hv hc pnl_row Hiv Hhv Hhc Hpnl.
  destruct (simulate_arrays_finite (H := counter_random) 1 simulator_example
              cir_example 2 None (Some 42%Z) 0%nat res m' g' 0.03)
    with (p := p) (iv := iv) (hv := hv) (hc := hc)
    as (values & hedges & costs & -> & -> & ->); try assumption.
  - intros m d x Hx. cbn. rewrite Hx. cbn. eauto.
  - intros d x. cbn. eauto.
  - reflexivity.
  - cbn. lra.
  - exists values, hedges, costs. repeat split.
    exact (pnl_is_value_change_net_of_costs (H := counter_random) 1
             simulator_example cir_example 2 None (Some 42%Z) 0%nat res m' g'
             Hrun p values hedges costs pnl_row Hiv Hhv Hhc Hpnl).
Defined.

(** ** A rebalancing period that is not positive *)

(** From a time within the horizon, a period that is not positive never
    takes the [while] loop past the horizon. *)
Lemma rebalance_loop_never_returns dt th rf ts :
  rf <= 0 ->
  forall fuel ct acc,
    ct <= th ->
    ~ returns (HedgingSimulator.rebalance_loop fuel dt th rf ts ct acc).
Proof.
  intros Hrf. induction fuel as [| fuel IH]; intros ct acc Hct [steps Hrun];
    cbn [HedgingSimulator.rebalance_loop] in Hrun;
    destruct (Rle_dec ct th); try lra; try discriminate.
  unfold CIR.float_div in Hrun.
  destruct (Req_dec_T dt 0); cbn [bind] in Hrun; [discriminate |].
  eapply IH; [| eexists; exact Hrun]. lra.
Qed.

Lemma rebalance_loop_out_of_fuel dt th rf ts :
  rf <= 0 -> dt <> 0 ->
  forall fuel ct acc,
    ct <= th ->
    HedgingSimulator.rebalance_loop fuel dt th rf ts ct acc = OutOfFuel.
Proof.
  intros Hrf Hdt. induction fuel as [| fuel IH]; intros ct acc Hct;
    cbn [HedgingSimulator.rebalance_loop];
    destruct (Rle_dec ct th); try lra; try reflexivity.
  unfold CIR.float_div. destruct (Req_dec_T dt 0); [contradiction |].
  cbn [bind]. apply IH. lra.
Qed.

(** X16.  With a rebalancing period that is zero or negative and a time
    horizon that is not negative, [simulate] never returns: the loop
    that collects the rebalancing steps never leaves the horizon.
    Whatever bound is put on the number of its passes, the call does not
    return; and when the rates are simulated and the time step is not
    zero, it is that bound which the call exhausts. *)
Theorem simulate_hangs_without_positive_rebalancing_period `{NumpyRandom}
  (sim : HedgingSimulator.t) (m : CIR.t) (n_paths : nat)
  (time_horizon : option R) (seed : option Z) (g : rng) :
  HedgingSimulator.rebalance_frequency sim <= 0 ->
  0 <= HedgingSimulator.horizon_or_default m time_horizon ->
  (forall fuel,
     ~ returns (HedgingSimulator.simulate fuel sim m n_paths time_horizon
                  seed g)) /\
  (forall m1,
     HedgingSimulator.adapt_horizon m
       (HedgingSimulator.horizon_or_default m time_horizon) = Ok m1 ->
     returns (CIR.simulate_rates m1 n_paths seed g) ->
     CIR.dt m <> 0 ->
     forall fuel,
       HedgingSimulator.simulate fuel sim m n_paths time_horizon seed g
       = OutOfFuel).
Proof.
  intros Hrf Hth. split.
  - intros fuel [[[res m'] g'] Hrun].
    destruct (simulate_inversion _ _ _ _ _ _ _ _ _ _ Hrun)
      as (m1 & steps & rows & _ & _ & Hs & _).
    eapply rebalance_loop_never_returns; [exact Hrf | exact Hth |].
    eexists; exact Hs.
  - intros m1 Ha [[rates g1] Hr] Hdt fuel.
    destruct (adapt_horizon_inversion _ _ _ Ha) as (_ & _ & _ & _ & Edt & _).
    unfold HedgingSimulator.simulate. rewrite Ha. cbn [bind].
    rewrite Hr. cbn [bind fst snd].
    rewrite rebalance_loop_out_of_fuel; [reflexivity | exact Hrf | | exact Hth].
    congruence.
Qed.

Lemma simulate_hangs_without_positive_rebalancing_period_witness :
  HedgingSimulator.simulate (H := counter_random) 1000
    (HedgingSimulator.mk
       (HedgingSimulator.instrument_price simulator_example)
       (HedgingSimulator.compute_hedge_ratio simulator_example) 0)
    cir_example 2 None (Some 42%Z) 0%nat = OutOfFuel.
Proof.
  destruct (simulate_hangs_without_positive_rebalancing_period
              (H := counter_random)
              (HedgingSimulator.mk
                 (HedgingSimulator.instrument_price simulator_example)
                 (HedgingSimulator.compute_hedge_ratio simulator_example) 0)
              cir_example 2 None (Some 42%Z) 0%nat) as [_ Hout];
    [cbn; lra | cbn; lra |].
  apply (fun a b c => Hout cir_example a b c 1000%nat).
  - unfold HedgingSimulator.adapt_horizon. cbn.
    destruct (Req_dec_T 1 1); [reflexivity | lra].
  - apply simulate_rates_returns; [cbn; lra | cbn; lia |].
    intros s [= <-]. eexists; reflexivity.
  - cbn. lra.
Defined.

(** ** The shape of the result *)

Lemma np_linspace_ends start stop n :
  nth 0 (np_linspace start stop (n + 1)) 0 = start /\
  ((1 <= n)%nat -> nth n (np_linspace start stop (n + 1)) 0 = stop).
Proof.
  unfold np_linspace.
  assert (Hnth : forall i, (i < n + 1)%nat ->
            nth i (map (fun i => start + INR i * ((stop - start)
                                                  / INR (n + 1 - 1)))
                     (seq 0 (n + 1))) 0
            = start + INR i * ((stop - start) / INR (n + 1 - 1))).
  { intros i Hi.
    rewrite (nth_indep _ 0 (start + INR 0 * ((stop - start)
                                              / INR (n + 1 - 1))))
      by now rewrite length_map, length_seq.
    rewrite (map_nth (fun i => start + INR i * ((stop - start)
                                                / INR (n + 1 - 1)))).
    now rewrite seq_nth. }
  split.
  - rewrite Hnth by lia. cbn [INR]. lra.
  - intros Hn. rewrite Hnth by lia.
    replace (n + 1 - 1)%nat with n by lia.
    assert (0 < INR n) by (apply lt_0_INR; lia). field. lra.
Qed.

(** X17.  The arrays of a returned simulation are aligned.  With
    [timesteps] the number of steps of the rate model as [simulate]
    leaves it, the time grid has [timesteps + 1] entries, starts at 0
    and, when there is at least one step, ends at the time horizon;
    and each of [rates], [instrument_values], [hedge_ratios],
    [hedge_values], [hedge_costs] and [pnl] has [n_paths] rows of
    [timesteps + 1] entries. *)
Theorem simulation_arrays_are_aligned `{NumpyRandom}
  (fuel : nat) (sim : HedgingSimulator.t) (m : CIR.t) (n_paths : nat)
  (time_horizon : option R) (seed : option Z) (g : rng)
  (res : HedgingSimulator.results npfloat) (m' : CIR.t) (g' : rng) :
  HedgingSimulator.simulate fuel sim m n_paths time_horizon seed g
  = Ok (res, m', g') ->
  let th := HedgingSimulator.horizon_or_default m time_horizon in
  let T := Z.to_nat (CIR.timesteps m') in
  length (HedgingSimulator.times res) = (T + 1)%nat /\
  nth 0 (HedgingSimulator.times res) 0 = 0 /\
  ((1 <= T)%nat -> nth T (HedgingSimulator.times res) 0 = th) /\
  forall array,
    In array [HedgingSimulator.rates res;
              HedgingSimulator.instrument_values res;
              HedgingSimulator.hedge_ratios res;
              HedgingSimulator.hedge_values res;
              HedgingSimulator.hedge_costs res;
              HedgingSimulator.pnl res] ->
    length array = n_paths /\
    Forall (fun row => length row = (T + 1)%nat) array.
Proof.
  intros Hrun th T.
  destruct (simulate_inversion _ _ _ _ _ _ _ _ _ _ Hrun)
    as (m1 & steps0 & rows0 & _ & Hr & _ & Hp & _).
  destruct (path_loop_inversion _ _ _ _ _ _ _ _ Hp) as (_ & _ & Hsame & _).
  destruct (same_but_r0_fields _ _ Hsame) as (_ & _ & _ & Ets & _).
  destruct (simulate_rates_shape _ _ _ _ _ _ Hr) as (_ & _ & Hshape).
  rewrite <- Ets in Hshape. fold T in Hshape.
  destruct (simulate_paths_ok _ _ _ _ _ _ _ _ _ _ Hrun)
    as (steps & rows & _ & _ & Et & Hn & Hall & Eiv & Ehv & Ehr & Epnl & Ehc).
  fold th T in Et, Hall.
  assert (Hlen : length rows = n_paths)
    by (apply Forall2_length in Hall; lia).
  assert (Hrows : Forall (rows_length (T + 1)) rows).
  { clear - Hall. induction Hall as [| x a l1 l2 (Hl & _) _ IH];
      constructor; assumption. }
  rewrite Et. split; [apply np_linspace_length |].
  destruct (np_linspace_ends 0 th T) as [H0 HT].
  split; [exact H0 |]. split; [exact HT |].
  assert (Hproj : forall proj : HedgingSimulator.path_rows -> list npfloat,
            (forall a, rows_length (T + 1) a -> length (proj a) = (T + 1)%nat) ->
            length (map proj rows) = n_paths /\
            Forall (fun row => length row = (T + 1)%nat) (map proj rows)).
  { intros proj Hproj. split; [now rewrite length_map |].
    apply Forall_map. eapply Forall_impl; [| exact Hrows]. exact Hproj. }
  intros array [<- | [<- | [<- | [<- | [<- | [<- | []]]]]]].
  - split; assumption.
  - rewrite Eiv. apply Hproj. now intros a (? & ? & ? & ? & ?).
  - rewrite Ehr. apply Hproj. now intros a (? & ? & ? & ? & ?).
  - rewrite Ehv. apply Hproj. now intros a (? & ? & ? & ? & ?).
  - rewrite Ehc. apply Hproj. now intros a (? & ? & ? & ? & ?).
  - rewrite Epnl. apply Hproj. now intros a (? & ? & ? & ? & ?).
Qed.

Lemma simulation_arrays_are_aligned_witness :
  exists res m' g',
    HedgingSimulator.simulate (H := counter_random) 1 simulator_example
      cir_example 2 None (Some 42%Z) 0%nat = Ok (res, m', g') /\
    length (HedgingSimulator.times res) = (Z.to_nat (CIR.timesteps m') + 1)%nat /\
    nth 0 (HedgingSimulator.times res) 0 = 0 /\
    length (HedgingSimulator.pnl res) = 2%nat.
Proof.
  destruct simulate_example_returns as [[[res m'] g'] Hrun].
  exists res, m', g'. split; [exact Hrun |].
  destruct (simulation_arrays_are_aligned (H := counter_random) 1
              simulator_example cir_example 2 None (Some 42%Z) 0%nat res m' g'
              Hrun) as (Hl & H0 & _ & Harr).
  split; [exact Hl |]. split; [exact H0 |].
  apply (Harr (HedgingSimulator.pnl res)). cbn. tauto.
Defined.

(** ** The risk statistics *)

Section RiskStatistics.

Import HedgingSimulator.

(** The percentile of a non-empty sample at a level within [[0, 100]]
    lies between two entries of the sample. *)
Lemma np_percentile_between a q :
  a <> [] -> 0 <= q <= 100 ->
  exists v lo hi,
    np_percentile a q = Ok (Fin v) /\ In lo a /\ In hi a /\ lo <= v <= hi.
Proof.
  intros Hne [Hq0 Hq1]. unfold np_percentile.
  destruct (Rlt_dec q 0) as [? | _]; [lra |].
  destruct (Rlt_dec 100 q) as [? | _]; [lra |].
  destruct a as [| y a']; [contradiction |].
  set (a := y :: a') in *. set (len := length a).
  assert (Hlen : (1 <= len)%nat) by (unfold len; cbn; lia).
  set (position := q / 100 * INR (len - 1)).
  assert (Hpos : 0 <= position <= INR (len - 1)).
  { pose proof (pos_INR (len - 1)). unfold position. split; [| nra].
    apply Rmult_le_pos; lra. }
  destruct (base_Int_part position) as [Hip1 Hip2].
  destruct (base_fp position) as [Hf0 Hf1].
  assert (Hz : (0 <= Int_part position)%Z).
  { apply le_IZR. pose proof (Rplus_Int_part_frac_part position).
    assert (Hlt : IZR (-1) < IZR (Int_part position)) by (cbn; lra).
    apply lt_IZR in Hlt. apply IZR_le. lia. }
  set (previous := Z.to_nat (Int_part position)).
  assert (Hprev : (previous <= len - 1)%nat).
  { apply INR_le. unfold previous. rewrite INR_IZR_INZ, Z2Nat.id by exact Hz.
    lra. }
  set (next := Nat.min (previous + 1) (len - 1)).
  exists (nth previous (np_sort a) 0
          + (nth next (np_sort a) 0 - nth previous (np_sort a) 0)
            * frac_part position),
    (nth previous (np_sort a) 0), (nth next (np_sort a) 0).
  split; [reflexivity |].
  split; [apply np_sort_In, nth_In; rewrite np_sort_length; fold len; lia |].
  split; [apply np_sort_In, nth_In; rewrite np_sort_length; fold len;
          unfold next; lia |].
  assert (Hle : nth previous (np_sort a) 0 <= nth next (np_sort a) 0).
  { apply sorted_nth; [apply np_sort_sorted |].
    rewrite np_sort_length. fold len. unfold next. lia. }
  fold position. nra.
Qed.

(** At a level whose position is a whole rank, the percentile is the
    entry of that rank in the sorted sample. *)
Lemma np_percentile_at_rank a q k :
  a <> [] -> 0 <= q <= 100 -> (k <= length a - 1)%nat ->
  q / 100 * INR (length a - 1) = INR k ->
  np_percentile a q = Ok (Fin (nth k (np_sort a) 0)).
Proof.
  intros Hne [Hq0 Hq1] Hk Hpos. unfold np_percentile.
  destruct (Rlt_dec q 0) as [? | _]; [lra |].
  destruct (Rlt_dec 100 q) as [? | _]; [lra |].
  destruct a as [| y a']; [contradiction |].
  set (a := y :: a') in *.
  change (insert_sorted y (np_sort a')) with (np_sort a).
  cbv zeta. rewrite Hpos, Int_part_INR, Nat2Z.id.
  assert (Hf : frac_part (INR k) = 0).
  { unfold frac_part. rewrite Int_part_INR, <- INR_IZR_INZ. ring. }
  rewrite Hf. do 2 f_equal. ring.
Qed.

(** The first and the last entry of the sorted sample are entries of
    the sample that bracket all the others. *)
Lemma np_sort_ends a :
  a <> [] ->
  let lo := nth 0 (np_sort a) 0 in
  let hi := nth (length a - 1) (np_sort a) 0 in
  In lo a /\ In hi a /\ forall x, In x a -> lo <= x <= hi.
Proof.
  intros Hne lo hi.
  assert (Hlen : (1 <= length a)%nat)
    by (destruct a; [contradiction | cbn; lia]).
  split; [apply np_sort_In, nth_In; rewrite np_sort_length; lia |].
  split; [apply np_sort_In, nth_In; rewrite np_sort_length; lia |].
  intros x Hx. apply np_sort_In in Hx.
  destruct (In_nth _ _ 0 Hx) as (i & Hi & <-).
  rewrite np_sort_length in Hi.
  split; apply sorted_nth; try apply np_sort_sorted;
    rewrite np_sort_length; lia.
Qed.

End RiskStatistics.

(** X18.  The VaR stays within the sample.  For a result of at least
    one path (each with at least one step) and a confidence level in
    [[0, 1]], [analyze_results] returns a finite VaR that lies between
    the smallest and the largest final P&L; it is the smallest final
    P&L at the confidence level 1 and the largest at the level 0. *)
Theorem value_at_risk_within_sample_range
  (res : HedgingSimulator.results R) (c : R) :
  let final := final_step (HedgingSimulator.pnl res) in
  (1 <= length (HedgingSimulator.pnl res))%nat ->
  Forall (fun path => path <> []) (HedgingSimulator.pnl res) ->
  0 <= c <= 1 ->
  exists a v lo hi,
    HedgingSimulator.analyze_results res c = Ok a /\
    HedgingSimulator.var a = Fin v /\
    In lo final /\ In hi final /\
    (forall x, In x final -> lo <= x <= hi) /\
    lo <= v <= hi /\
    (c = 1 -> v = lo) /\
    (c = 0 -> v = hi).
Proof.
  intros final Hn Hrows [Hc0 Hc1].
  assert (Hfinal : final <> []).
  { unfold final, final_step.
    destruct (HedgingSimulator.pnl res); [cbn in Hn; lia | discriminate]. }
  assert (Hlen : (1 <= length final)%nat)
    by (destruct final; [contradiction | cbn; lia]).
  destruct (np_percentile_between final ((1 - c) * 100) Hfinal)
    as (v & lo' & hi' & Hv & Hlo' & Hhi' & Hlv & Hvh); [lra |].
  destruct (np_sort_ends final Hfinal) as (Hlo & Hhi & Hall).
  set (lo := nth 0 (np_sort final) 0) in *.
  set (hi := nth (length final - 1) (np_sort final) 0) in *.
  unfold HedgingSimulator.analyze_results.
  rewrite (last_column_final _ Hrows). fold final. cbn [bind].
  rewrite Hv. cbn [bind].
  eexists _, v, lo, hi. split; [reflexivity |].
  cbn [HedgingSimulator.var].
  split; [reflexivity |]. split; [exact Hlo |]. split; [exact Hhi |].
  split; [exact Hall |]. split.
  { destruct (Hall lo' Hlo'), (Hall hi' Hhi'). lra. }
  split.
  - intros ->.
    rewrite (np_percentile_at_rank final _ 0 Hfinal) in Hv;
      [| lra | lia | cbn [INR]; lra].
    now injection Hv as <-.
  - intros ->.
    rewrite (np_percentile_at_rank final _ (length final - 1) Hfinal) in Hv;
      [| lra | lia | field].
    now injection Hv as <-.
Qed.

Lemma value_at_risk_within_sample_range_witness :
  exists a v lo hi,
    HedgingSimulator.analyze_results results_example 0.95 = Ok a /\
    HedgingSimulator.var a = Fin v /\
    In lo [1; 3] /\ In hi [1; 3] /\
    (forall x, In x [1; 3] -> lo <= x <= hi) /\
    lo <= v <= hi.
Proof.
  destruct (value_at_risk_within_sample_range results_example 0.95)
    as (a & v & lo & hi & Ha & Hv & Hlo & Hhi & Hall & Hb & _).
  - cbn. lia.
  - repeat constructor; discriminate.
  - lra.
  - exists a, v, lo, hi. split; [exact Ha |]. split; [exact Hv |].
    split; [exact Hlo |]. split; [exact Hhi |].
    split; [exact Hall | exact Hb].
Defined.

(** X19.  [analyze_results] makes no check of the confidence level: the
    only one is [np.percentile]'s check of the level
    [(1 - confidence_level) * 100] that the function computes.  When
    every path has at least one step, the call raises [ValueError] if
    that level is below 0 or above 100, and returns if it is within
    [[0, 100]] and there is at least one path. *)
Theorem analyze_results_percentile_level_range
  (res : HedgingSimulator.results R) (c : R) :
  let q := (1 - c) * 100 in
  Forall (fun path => path <> []) (HedgingSimulator.pnl res) ->
  (q < 0 \/ 100 < q ->
   HedgingSimulator.analyze_results res c = Raise ValueError) /\
  (0 <= q <= 100 -> (1 <= length (HedgingSimulator.pnl res))%nat ->
   returns (HedgingSimulator.analyze_results res c)).
Proof.
  intros q Hrows. unfold HedgingSimulator.analyze_results.
  rewrite (last_column_final _ Hrows). cbn [bind]. unfold np_percentile.
  fold q. split.
  - intros [Hq | Hq].
    + destruct (Rlt_dec q 0); [reflexivity | lra].
    + destruct (Rlt_dec q 0); [reflexivity |].
      destruct (Rlt_dec 100 q); [reflexivity | lra].
  - intros [Hq0 Hq1] Hn.
    destruct (Rlt_dec q 0); [lra |].
    destruct (Rlt_dec 100 q); [lra |].
    destruct (final_step (HedgingSimulator.pnl res)); eexists; reflexivity.
Qed.

Lemma analyze_results_percentile_level_range_witness :
  HedgingSimulator.analyze_results results_example 1.5 = Raise ValueError /\
  returns (HedgingSimulator.analyze_results results_example 0.95).
Proof.
  destruct (analyze_results_percentile_level_range results_example 1.5)
    as [Hr _].
  { repeat constructor; discriminate. }
  destruct (analyze_results_percentile_level_range results_example 0.95)
    as [_ Ho].
  { repeat constructor; discriminate. }
  split; [apply Hr; lra | apply Ho; [lra | cbn; lia]].
Defined.

(** X20.  The statistics of a single path are degenerate.  For a result
    of one path (with at least one step) and a confidence level in
    [[0, 1]], [analyze_results] returns the final P&L of that path as
    mean P&L, as VaR and as Expected Shortfall, a standard deviation of
    0, and a Sharpe ratio that is NaN. *)
Theorem single_path_statistics_are_degenerate
  (res : HedgingSimulator.results R) (c : R) (path : list R) :
  HedgingSimulator.pnl res = [path] ->
  path <> [] ->
  0 <= c <= 1 ->
  let x := last path 0 in
  exists a,
    HedgingSimulator.analyze_results res c = Ok a /\
    HedgingSimulator.final_pnl_distribution a = [x] /\
    HedgingSimulator.mean_pnl a = Fin x /\
    HedgingSimulator.std_pnl a = Fin 0 /\
    HedgingSimulator.var a = Fin x /\
    HedgingSimulator.expected_shortfall a = Fin x /\
    HedgingSimulator.sharpe_ratio a = NaN.
Proof.
  intros Hpnl Hpath [Hc0 Hc1] x.
  assert (Hrows : Forall (fun p => p <> []) (HedgingSimulator.pnl res))
    by (rewrite Hpnl; repeat constructor; exact Hpath).
  assert (Hfinal : final_step (HedgingSimulator.pnl res) = [x])
    by (rewrite Hpnl; reflexivity).
  assert (Hv : np_percentile [x] ((1 - c) * 100) = Ok (Fin x)).
  { rewrite (np_percentile_at_rank [x] _ 0);
      [reflexivity | discriminate | lra | cbn; lia | cbn; lra]. }
  assert (Hmean : np_sum [x] / INR (length [x]) = x) by (cbn; field).
  unfold HedgingSimulator.analyze_results.
  rewrite (last_column_final _ Hrows), Hfinal. cbn [bind].
  rewrite Hv. cbn [bind HedgingSimulator.at_or_below filter].
  destruct (Rle_dec x x) as [_ | Hxx]; [| lra].
  assert (Hstd : np_std [x] = Fin 0).
  { unfold np_std. cbn [map]. rewrite Hmean. f_equal.
    replace (x - x) with 0 by ring. rewrite Rabs_R0.
    replace (np_sum [0 ^ 2] / INR (length [x])) with 0 by (cbn; field).
    apply sqrt_0. }
  eexists. split; [reflexivity |].
  cbn [HedgingSimulator.final_pnl_distribution HedgingSimulator.mean_pnl
       HedgingSimulator.std_pnl HedgingSimulator.var
       HedgingSimulator.expected_shortfall HedgingSimulator.sharpe_ratio].
  rewrite Hstd. unfold np_mean. rewrite Hmean. cbn [np_ltb].
  destruct (Rlt_dec 0 0); [lra |]. repeat split.
Qed.

Lemma single_path_statistics_are_degenerate_witness :
  exists a,
    HedgingSimulator.analyze_results
      (HedgingSimulator.mk_results [0; 1] [[0.03; 0.04]] [[1; 2]] [[5; 4]]
         [[0.1; 0.2]] [[0; 0.1]] [[0; 1]]) 0.95 = Ok a /\
    HedgingSimulator.var a = Fin 1 /\
    HedgingSimulator.sharpe_ratio a = NaN.
Proof.
  destruct (single_path_statistics_are_degenerate
              (HedgingSimulator.mk_results [0; 1] [[0.03; 0.04]] [[1; 2]]
                 [[5; 4]] [[0.1; 0.2]] [[0; 0.1]] [[0; 1]]) 0.95 [0; 1])
    as (a & Ha & _ & _ & _ & Hv & _ & Hs).
  - reflexivity.
  - discriminate.
  - lra.
  - exists a. split; [exact Ha |]. split; [exact Hv | exact Hs].
Defined.

(** ** The schedule held by a cap, a floor or a collar *)

(** X21.  With a positive payment frequency, the cap and the floor of a
    collar hold one and the same schedule: its [i]-th date (from 0) is
    [start_date + (i + 1) * payment_frequency], and every date lies
    strictly after the start date and strictly before
    [maturity_date + 1e-10].  When the maturity is a whole number [n]
    of periods after the start and a period is at least [1e-10] long,
    there are exactly [n] dates and the last one is the maturity. *)
Theorem payment_schedule_is_regular (start_date maturity_date : R)
  (cap_strike floor_strike : pynum) (payment_frequency notional : R)
  (c : Collar.t) :
  0 < payment_frequency ->
  Collar.init start_date maturity_date cap_strike floor_strike
    payment_frequency notional = Ok c ->
  let dates := Cap.payment_dates (Collar.cap c) in
  Floor.payment_dates (Collar.floor c) = dates /\
  (forall i, (i < length dates)%nat ->
     nth i dates 0 = start_date + INR (i + 1) * payment_frequency) /\
  Forall (fun d => start_date < d < maturity_date + eps) dates /\
  (forall n, eps <= payment_frequency ->
     maturity_date = start_date + INR n * payment_frequency ->
     length dates = n /\
     ((1 <= n)%nat -> nth (n - 1) dates 0 = maturity_date)).
Proof.
  intros Hfq Hinit dates.
  destruct (collar_init_inversion _ _ _ _ _ _ _ Hinit)
    as (ds & Hds & Hcap & Hfloor).
  assert (Edates : dates = ds) by (unfold dates; now rewrite Hcap).
  rewrite Hfloor. cbn [Floor.payment_dates]. rewrite Edates. clear Edates dates.
  destruct (np_arange_spec _ _ _ _ Hfq Hds) as [Hnth Hall].
  assert (Hith : forall i, (i < length ds)%nat ->
            nth i ds 0 = start_date + INR (i + 1) * payment_frequency).
  { intros i Hi. rewrite (Hnth i Hi), plus_INR. cbn [INR]. lra. }
  split; [reflexivity |]. split; [exact Hith |]. split.
  - eapply Forall_impl; [| exact Hall]. cbn beta. intros d Hd. lra.
  - intros n Heps Hmat. subst maturity_date.
    rewrite np_arange_whole_periods in Hds by exact Heps.
    injection Hds as <-.
    assert (Hlen : length (map (fun i => start_date + payment_frequency
                                         + INR i * payment_frequency)
                              (seq 0 n)) = n)
      by now rewrite length_map, length_seq.
    split; [exact Hlen |]. intros Hn.
    rewrite Hith by (rewrite Hlen; lia).
    replace (n - 1 + 1)%nat with n by lia. reflexivity.
Qed.

Lemma payment_schedule_is_regular_witness :
  exists c,
    Collar.init 1 1.5 (PyFloat (Fin 0.04)) (PyFloat (Fin 0.03)) 0.5 1 = Ok c /\
    length (Cap.payment_dates (Collar.cap c)) = 1%nat /\
    nth 0 (Cap.payment_dates (Collar.cap c)) 0 = 1.5.
Proof.
  assert (Hinit : Collar.init 1 1.5 (PyFloat (Fin 0.04)) (PyFloat (Fin 0.03))
                    0.5 1
                  = Ok (Collar.mk
                          (Cap.mk 1 1.5 (PyFloat (Fin 0.04)) 0.5 1
                             [1 + 0.5 + INR 0 * 0.5])
                          (Floor.mk 1 1.5 (PyFloat (Fin 0.03)) 0.5 1
                             [1 + 0.5 + INR 0 * 0.5]))).
  { unfold Collar.init, Cap.init, Floor.init, Cap.generate_payment_schedule,
      Floor.generate_payment_schedule.
    rewrite np_arange_one_period. reflexivity. }
  eexists. split; [exact Hinit |].
  destruct (payment_schedule_is_regular 1 1.5 (PyFloat (Fin 0.04))
              (PyFloat (Fin 0.03)) 0.5 1 _ ltac:(lra) Hinit)
    as (_ & _ & _ & Hn).
  destruct (Hn 1%nat) as [Hlen Hlast].
  - unfold eps. lra.
  - cbn [INR]. lra.
  - split; [exact Hlen |]. apply (Hlast (le_n 1)).
Defined.

(** ** Bounds on bond prices *)

Section BondBounds.

Import BondPricer.

Variable p : BondPricer.t.
Variable v : R.

(** The rate model quotes a discount factor strictly between 0 and 1
    for every date after the valuation date. *)
Hypothesis discounts :
  forall T, v < T ->
    exists df,
      rm_zero_coupon_bond_price (rate_model_of p) v T (rm_r0 (rate_model_of p))
      = Ok (Fin df) /\ 0 < df < 1.

Lemma credit_discounted_unit df time :
  0 < df < 1 -> 0 < time ->
  exists df', credit_discounted p (Fin df) time = Fin df' /\ 0 < df' < 1.
Proof.
  intros Hdf Ht. unfold credit_discounted.
  destruct (Rgt_dec (credit_spread p) 0) as [Hs | Hs].
  - cbn [np_mul]. eexists. split; [reflexivity |].
    pose proof (exp_pos (- credit_spread p * time)) as He.
    assert (He1 : exp (- credit_spread p * time) < 1).
    { rewrite <- exp_0. apply exp_increasing. nra. }
    split; [apply Rmult_lt_0_compat; lra | nra].
  - now exists df.
Qed.

Lemma discount_coupon_flows_bounds ca dates :
  0 <= ca -> Forall (fun d => v < d) dates ->
  forall acc, exists acc',
    discount_coupon_flows p v ca dates (Fin acc) = Ok (Fin acc') /\
    acc <= acc' <= acc + ca * INR (length dates).
Proof.
  intros Hca. induction 1 as [| d rest Hd _ IH]; intros acc;
    cbn [discount_coupon_flows].
  - exists acc. split; [reflexivity | cbn; lra].
  - destruct (discounts d Hd) as (df & -> & Hdf). cbn [bind].
    destruct (credit_discounted_unit df (d - v) Hdf ltac:(lra))
      as (df' & -> & Hdf').
    cbn [np_mul np_add].
    destruct (IH (acc + ca * df')) as (acc' & -> & Hacc).
    exists acc'. split; [reflexivity |].
    change (length (d :: rest)) with (S (length rest)). rewrite S_INR.
    assert (0 <= ca * df') by (apply Rmult_le_pos; lra).
    assert (ca * df' <= ca) by nra.
    lra.
Qed.

End BondBounds.

(** X22.  On a rate model whose discount factors lie strictly between 0
    and 1, for a bond that has not matured, with a positive coupon
    frequency, a non-negative coupon rate and a positive notional: the
    zero-coupon price is a positive number that does not exceed the
    notional, and the price of the coupon bond is a number that is at
    least the zero-coupon price. *)
Theorem bond_price_bounds (p : BondPricer.t)
  (maturity coupon_rate frequency notional valuation_date : R) :
  valuation_date < maturity ->
  0 < frequency ->
  0 <= coupon_rate ->
  0 < notional ->
  (forall T, valuation_date < T ->
     exists df,
       rm_zero_coupon_bond_price (BondPricer.rate_model_of p) valuation_date T
         (rm_r0 (BondPricer.rate_model_of p)) = Ok (Fin df) /\ 0 < df < 1) ->
  exists z P,
    BondPricer.price_zero_coupon_bond p maturity notional valuation_date
    = Ok (Fin z) /\
    BondPricer.price_fixed_coupon_bond p maturity coupon_rate frequency
      notional valuation_date = Ok (Fin P) /\
    0 < z <= notional /\
    z <= P.
Proof.
  intros HM Hfq Hc HN Hdisc.
  assert (Hfq0 : frequency <> 0) by lra.
  assert (Hca : 0 <= notional * coupon_rate * frequency).
  { apply Rmult_le_pos; [apply Rmult_le_pos |]; lra. }
  destruct (coupon_dates_returns valuation_date maturity frequency Hfq0)
    as [dates Hd].
  destruct (Hdisc maturity HM) as (df & Hdf & Hdf01).
  destruct (credit_discounted_unit p df (maturity - valuation_date) Hdf01
              ltac:(lra)) as (df' & Hdf' & Hdf'01).
  destruct (discount_coupon_flows_bounds p valuation_date Hdisc
              (notional * coupon_rate * frequency) dates Hca
              (coupon_dates_after_valuation _ _ _ _ HM Hd) 0)
    as (acc & Hacc & Hbounds).
  exists (notional * df'), (acc + notional * df').
  split; [| split; [| split]].
  - unfold BondPricer.price_zero_coupon_bond.
    destruct (Rle_dec maturity valuation_date); [lra |].
    rewrite Hdf. cbn [bind]. rewrite Hdf'. reflexivity.
  - unfold BondPricer.price_fixed_coupon_bond.
    destruct (Rle_dec maturity valuation_date); [lra |].
    rewrite Hd. cbn [bind]. rewrite Hacc. cbn [bind].
    rewrite Hdf. cbn [bind]. rewrite Hdf'. reflexivity.
  - split; [apply Rmult_lt_0_compat; lra | nra].
  - lra.
Qed.

Lemma bond_price_bounds_witness :
  exists z P,
    BondPricer.price_zero_coupon_bond
      (BondPricer.mk (CIR.as_rate_model cir_example) 0.01) 5 100 0
    = Ok (Fin z) /\
    BondPricer.price_fixed_coupon_bond
      (BondPricer.mk (CIR.as_rate_model cir_example) 0.01) 5 0.04 1 100 0
    = Ok (Fin P) /\
    0 < z <= 100 /\
    z <= P.
Proof.
  apply (bond_price_bounds
           (BondPricer.mk (CIR.as_rate_model cir_example) 0.01) 5 0.04 1 100 0);
    try lra.
  intros T HT.
  apply (cir_price_in_unit_interval cir_example 0 T 0.03); cbn; lra.
Defined.

(** ** The credit spread *)

Section CreditSpread.

Import BondPricer.

Variable m : rate_model.
Variable s : R.
Variable v : R.

(** The rate model quotes a positive, finite discount factor for every
    date after the valuation date. *)
Hypothesis discounts :
  forall T, v < T ->
    exists df,
      rm_zero_coupon_bond_price m v T (rm_r0 m) = Ok (Fin df) /\ 0 < df.

(** What the spread does to one discount factor. *)
Lemma credit_discounted_compare df time :
  0 < df -> 0 < time ->
  exists df',
    credit_discounted (mk m s) (Fin df) time = Fin df' /\
    credit_discounted (mk m 0) (Fin df) time = Fin df /\
    0 < df' <= df /\ (s <= 0 -> df' = df) /\ (0 < s -> df' < df).
Proof.
  intros Hdf Ht. unfold credit_discounted. cbn [credit_spread].
  destruct (Rgt_dec 0 0) as [H0 | _]; [lra |].
  destruct (Rgt_dec s 0) as [Hs | Hs].
  - cbn [np_mul]. eexists. split; [reflexivity |]. split; [reflexivity |].
    pose proof (exp_pos (- s * time)) as He.
    assert (He1 : exp (- s * time) < 1).
    { rewrite <- exp_0. apply exp_increasing. nra. }
    assert (0 < df * exp (- s * time)) by (apply Rmult_lt_0_compat; lra).
    split; [split; nra |]. split; intros; nra.
  - exists df. split; [reflexivity |]. split; [reflexivity |].
    split; [lra |]. split; intros; lra.
Qed.

Lemma discount_coupon_flows_compare ca dates :
  0 <= ca -> Forall (fun d => v < d) dates ->
  forall acc acc0, acc <= acc0 ->
    exists a a0,
      discount_coupon_flows (mk m s) v ca dates (Fin acc) = Ok (Fin a) /\
      discount_coupon_flows (mk m 0) v ca dates (Fin acc0) = Ok (Fin a0) /\
      a <= a0 /\ (s <= 0 -> acc = acc0 -> a = a0).
Proof.
  intros Hca. induction 1 as [| d rest Hd _ IH]; intros acc acc0 Hacc;
    cbn [discount_coupon_flows rate_model_of].
  - exists acc, acc0. repeat split; tauto.
  - destruct (discounts d Hd) as (df & -> & Hdf). cbn [bind].
    destruct (credit_discounted_compare df (d - v) Hdf ltac:(lra))
      as (df' & -> & -> & Hdf' & Heq & _).
    cbn [np_mul np_add].
    destruct (IH (acc + ca * df') (acc0 + ca * df)) as (a & a0 & -> & -> & Hle & He).
    + nra.
    + exists a, a0. repeat split; try assumption.
      intros Hs E. apply He; [exact Hs |]. rewrite (Heq Hs), E. reflexivity.
Qed.

End CreditSpread.

(** X23.  Only a positive credit spread counts.  Take two pricers on the
    same rate model, one with the credit spread [s] and one with no
    spread, and a bond that has not matured, with a non-zero coupon
    frequency, a non-negative coupon amount and a positive notional, on
    a rate model that quotes positive finite discount factors.  When
    [s <= 0] the two pricers give the same zero-coupon and coupon-bond
    prices; when [s > 0] both prices are strictly lower with the
    spread. *)
Theorem credit_spread_lowers_prices (m : rate_model) (s : R)
  (maturity coupon_rate frequency notional valuation_date : R) :
  valuation_date < maturity ->
  frequency <> 0 ->
  0 <= notional * coupon_rate * frequency ->
  0 < notional ->
  (forall T, valuation_date < T ->
     exists df,
       rm_zero_coupon_bond_price m valuation_date T (rm_r0 m) = Ok (Fin df) /\
       0 < df) ->
  exists z z0 P P0,
    BondPricer.price_zero_coupon_bond (BondPricer.mk m s) maturity notional
      valuation_date = Ok (Fin z) /\
    BondPricer.price_zero_coupon_bond (BondPricer.mk m 0) maturity notional
      valuation_date = Ok (Fin z0) /\
    BondPricer.price_fixed_coupon_bond (BondPricer.mk m s) maturity
      coupon_rate frequency notional valuation_date = Ok (Fin P) /\
    BondPricer.price_fixed_coupon_bond (BondPricer.mk m 0) maturity
      coupon_rate frequency notional valuation_date = Ok (Fin P0) /\
    (s <= 0 -> z = z0 /\ P = P0) /\
    (0 < s -> 0 < z < z0 /\ 0 < P < P0).
Proof.
  intros HM Hfq Hca HN Hdisc.
  destruct (coupon_dates_returns valuation_date maturity frequency Hfq)
    as [dates Hd].
  destruct (Hdisc maturity HM) as (df & Hdf & Hdf0).
  destruct (credit_discounted_compare m s df (maturity - valuation_date) Hdf0
              ltac:(lra)) as (df' & Hdf' & Hdf'0 & Hb & Heq & Hlt).
  destruct (discount_coupon_flows_compare m s valuation_date Hdisc
              (notional * coupon_rate * frequency) dates Hca
              (coupon_dates_after_valuation _ _ _ _ HM Hd) 0 0 (Rle_refl 0))
    as (a & a0 & Ha & Ha0 & Hle & He).
  destruct (discount_coupon_flows_pos (BondPricer.mk m s) valuation_date Hdisc
              (notional * coupon_rate * frequency) dates Hca
              (coupon_dates_after_valuation _ _ _ _ HM Hd) 0)
    as (a' & Ha' & Ha'0).
  assert (a' = a) by congruence. subst a'.
  exists (notional * df'), (notional * df), (a + notional * df'),
    (a0 + notional * df).
  split; [| split; [| split; [| split; [| split]]]].
  - unfold BondPricer.price_zero_coupon_bond.
    destruct (Rle_dec maturity valuation_date); [lra |].
    cbn [BondPricer.rate_model_of]. rewrite Hdf. cbn [bind].
    rewrite Hdf'. reflexivity.
  - unfold BondPricer.price_zero_coupon_bond.
    destruct (Rle_dec maturity valuation_date); [lra |].
    cbn [BondPricer.rate_model_of]. rewrite Hdf. cbn [bind].
    rewrite Hdf'0. reflexivity.
  - unfold BondPricer.price_fixed_coupon_bond.
    destruct (Rle_dec maturity valuation_date); [lra |].
    rewrite Hd. cbn [bind]. rewrite Ha. cbn [bind BondPricer.rate_model_of].
    rewrite Hdf. cbn [bind]. rewrite Hdf'. reflexivity.
  - unfold BondPricer.price_fixed_coupon_bond.
    destruct (Rle_dec maturity valuation_date); [lra |].
    rewrite Hd. cbn [bind]. rewrite Ha0. cbn [bind BondPricer.rate_model_of].
    rewrite Hdf. cbn [bind]. rewrite Hdf'0. reflexivity.
  - intros Hs. rewrite (Heq Hs), (He Hs eq_refl). split; reflexivity.
  - intros Hs. specialize (Hlt Hs).
    assert (0 < notional * df') by (apply Rmult_lt_0_compat; lra).
    assert (notional * df' < notional * df) by nra.
    lra.
Qed.

Lemma credit_spread_lowers_prices_witness :
  exists z z0 P P0,
    BondPricer.price_zero_coupon_bond bond_pricer_example 5 100 0
    = Ok (Fin z) /\
    BondPricer.price_zero_coupon_bond (BondPricer.mk (flat_curve 0.05) 0) 5
      100 0 = Ok (Fin z0) /\
    BondPricer.price_fixed_coupon_bond bond_pricer_example 5 0.04 1 100 0
    = Ok (Fin P) /\
    BondPricer.price_fixed_coupon_bond (BondPricer.mk (flat_curve 0.05) 0) 5
      0.04 1 100 0 = Ok (Fin P0) /\
    0 < z < z0 /\ 0 < P < P0.
Proof.
  destruct (credit_spread_lowers_prices (flat_curve 0.05) 0.01 5 0.04 1 100 0)
    as (z & z0 & P & P0 & Hz & Hz0 & HP & HP0 & _ & Hlt); try lra.
  - intros T _. cbn. eexists. split; [reflexivity | apply exp_pos].
  - exists z, z0, P, P0. repeat split; try assumption; apply Hlt; lra.
Defined.

(** ** Signals of the arbitrage analyzer *)

(** X24.  The bond-against-swap signal.  For a bond that has not
    matured, with a positive frequency, a non-negative coupon rate and
    a positive notional, priced on positive finite discount factors,
    and a finite par rate [sw], [analyze_bond_vs_swaps] returns, with a
    yield [y] within the search bracket, from 0.0001 to 0.5, and the
    spread [y - sw].  When
    [|y - sw|] exceeds [spread_tolerance + transaction_costs] (not
    negative), an opportunity is reported, the strategy is to buy the
    bond exactly when [y > sw], the estimated profit is a positive
    number and the profit after costs is that number less
    [transaction_costs * notional].  Otherwise no opportunity is
    reported and both profits are exactly 0. *)
Theorem bond_vs_swaps_signal (a : ArbitrageAnalyzer.t)
  (par_rate : R -> R -> R -> result pynum)
  (bond_maturity bond_coupon_rate : R) (bond_price : option R)
  (frequency notional valuation_date transaction_costs spread_tolerance : R)
  (quote : pynum) (sw : R) :
  ArbitrageAnalyzer.swap_pricer a = Some par_rate ->
  valuation_date < bond_maturity ->
  0 < frequency ->
  0 <= bond_coupon_rate ->
  0 < notional ->
  0 <= spread_tolerance + transaction_costs ->
  (forall T, valuation_date < T ->
     exists df,
       rm_zero_coupon_bond_price (ArbitrageAnalyzer.rate_model_of a)
         valuation_date T (rm_r0 (ArbitrageAnalyzer.rate_model_of a))
       = Ok (Fin df) /\ 0 < df) ->
  par_rate valuation_date bond_maturity frequency = Ok quote ->
  num_val quote = Fin sw ->
  exists res y,
    ArbitrageAnalyzer.analyze_bond_vs_swaps a bond_maturity bond_coupon_rate
      bond_price frequency notional valuation_date transaction_costs
      spread_tolerance = Ok res /\
    ArbitrageAnalyzer.SwapAnalysis.bond_ytm res = y /\
    0.0001 <= y <= 0.5 /\
    ArbitrageAnalyzer.SwapAnalysis.spread res = Fin (y - sw) /\
    (spread_tolerance + transaction_costs < Rabs (y - sw) ->
     ArbitrageAnalyzer.SwapAnalysis.arbitrage_opportunity res = true /\
     ArbitrageAnalyzer.SwapAnalysis.strategy res
     = (if Rlt_dec sw y then ArbitrageAnalyzer.buy_bond_payer_swap
        else ArbitrageAnalyzer.sell_bond_receiver_swap) /\
     exists profit,
       ArbitrageAnalyzer.SwapAnalysis.estimated_profit res = Fin profit /\
       0 < profit /\
       ArbitrageAnalyzer.SwapAnalysis.estimated_profit_after_costs res
       = Fin (profit - transaction_costs * notional)) /\
    (Rabs (y - sw) <= spread_tolerance + transaction_costs ->
     ArbitrageAnalyzer.SwapAnalysis.arbitrage_opportunity res = false /\
     ArbitrageAnalyzer.SwapAnalysis.strategy res
     = ArbitrageAnalyzer.no_significant_opportunity /\
     ArbitrageAnalyzer.SwapAnalysis.estimated_profit res = Fin 0 /\
     ArbitrageAnalyzer.SwapAnalysis.estimated_profit_after_costs res = Fin 0).
Proof.
  intros Hsp HM Hfq Hc HN Htol Hdisc Hpar Hsw.
  assert (Hfq0 : frequency <> 0) by lra.
  assert (Hca : 0 <= notional * bond_coupon_rate * frequency).
  { apply Rmult_le_pos; [apply Rmult_le_pos |]; lra. }
  destruct (price_fixed_coupon_bond_pos (ArbitrageAnalyzer.bond_pricer a)
              valuation_date Hdisc bond_maturity bond_coupon_rate frequency
              notional HM Hfq0 Hca HN) as (P & HP & _).
  assert (Hobs : exists b,
            ArbitrageAnalyzer.observed_or_theoretical bond_price (Fin P)
            = Fin b).
  { destruct bond_price as [b |]; eexists; reflexivity. }
  destruct Hobs as [b Hb].
  destruct (yield_search_in_bracket b bond_maturity bond_coupon_rate frequency
              notional valuation_date 100 1e-8 HM Hfq0) as (y & Hy & Hy01).
  destruct (duration_values_positive (ArbitrageAnalyzer.bond_pricer a)
              bond_maturity bond_coupon_rate frequency notional valuation_date
              HM Hfq Hc HN Hdisc) as (d & md & _ & Hmd & Hmd0 & _).
  unfold ArbitrageAnalyzer.analyze_bond_vs_swaps.
  rewrite Hsp, HP. cbn [bind]. rewrite Hb.
  rewrite calculate_yield_to_maturity_np_fin, Hy. cbn [bind].
  rewrite Hpar. cbn [bind]. rewrite Hsw.
  cbn [np_sub np_neg np_add np_abs np_ltb].
  replace (y + - sw) with (y - sw) by lra.
  destruct (Rlt_dec (spread_tolerance + transaction_costs) (Rabs (y - sw)))
    as [Hopp | Hopp].
  - rewrite Hmd. cbn [bind fst snd np_mul np_sub np_neg np_add].
    eexists. exists y. split; [reflexivity |].
    cbn [ArbitrageAnalyzer.SwapAnalysis.bond_ytm
         ArbitrageAnalyzer.SwapAnalysis.spread
         ArbitrageAnalyzer.SwapAnalysis.arbitrage_opportunity
         ArbitrageAnalyzer.SwapAnalysis.strategy
         ArbitrageAnalyzer.SwapAnalysis.estimated_profit
         ArbitrageAnalyzer.SwapAnalysis.estimated_profit_after_costs].
    split; [reflexivity |]. split; [lra |]. split; [reflexivity |].
    split; [| intros Hle; lra].
    intros _. split; [reflexivity |]. split.
    + destruct (Rlt_dec 0 (y - sw)), (Rlt_dec sw y); try reflexivity; lra.
    + eexists. split; [reflexivity |]. split.
      * apply Rmult_lt_0_compat; [apply Rmult_lt_0_compat |]; lra.
      * reflexivity.
  - cbn [bind fst snd].
    eexists. exists y. split; [reflexivity |].
    cbn [ArbitrageAnalyzer.SwapAnalysis.bond_ytm
         ArbitrageAnalyzer.SwapAnalysis.spread
         ArbitrageAnalyzer.SwapAnalysis.arbitrage_opportunity
         ArbitrageAnalyzer.SwapAnalysis.strategy
         ArbitrageAnalyzer.SwapAnalysis.estimated_profit
         ArbitrageAnalyzer.SwapAnalysis.estimated_profit_after_costs].
    split; [reflexivity |]. split; [lra |]. split; [reflexivity |].
    split; [intros Hlt; lra |].
    intros _. repeat split.
Qed.

Lemma bond_vs_swaps_signal_witness :
  exists res y,
    ArbitrageAnalyzer.analyze_bond_vs_swaps arbitrage_analyzer_example 5 0.04
      None 1 100 0 0 0.0005 = Ok res /\
    ArbitrageAnalyzer.SwapAnalysis.bond_ytm res = y /\
    0.0001 <= y <= 0.5 /\
    ArbitrageAnalyzer.SwapAnalysis.spread res = Fin (y - 0.03).
Proof.
  destruct (bond_vs_swaps_signal arbitrage_analyzer_example
              (fun _ _ _ => Ok (NpFloat64 (Fin 0.03))) 5 0.04 None 1 100 0 0
              0.0005 (NpFloat64 (Fin 0.03)) 0.03)
    as (res & y & Hres & Hy & Hy01 & Hs & _); try reflexivity; try lra.
  - intros T _. cbn. eexists. split; [reflexivity | apply exp_pos].
  - exists res, y. repeat split; try assumption; apply Hy01.
Defined.

(** The yield search returns for every bond with a non-zero frequency,
    matured or not. *)
Lemma yield_search_returns P M c fq N v n precision :
  fq <> 0 ->
  returns (BondPricer.calculate_yield_to_maturity P M c fq N v n precision).
Proof.
  intros Hfq. destruct (Rle_dec M v) as [Hm | Hm].
  - exists 0. unfold BondPricer.calculate_yield_to_maturity.
    destruct (Rle_dec M v); [reflexivity | contradiction].
  - destruct (yield_search_in_bracket P M c fq N v n precision) as (y & Hy & _);
      [lra | exact Hfq |]. now exists y.
Qed.

(** X25.  The asset-swap signal.  With a swap pricer that quotes a
    finite par rate [sw], a non-zero frequency and a bond the pricer
    can price, [analyze_asset_swap] raises [ZeroDivisionError] on an
    observed price of zero, after the pricing, the yield search and
    the par rate.  On any other observed price [b] it returns, the
    asset-swap spread is [bond_coupon_rate * notional / b - sw] (at
    par, the coupon rate less the par rate), and the signal is
    one-sided: an opportunity is reported exactly when the spread
    exceeds [spread_tolerance + transaction_costs], always with the
    strategy of buying the bond, with the estimated profit
    [spread * notional * bond_maturity]; otherwise both profits are
    exactly 0. *)
Theorem asset_swap_signal (a : ArbitrageAnalyzer.t)
  (par_rate : R -> R -> R -> result pynum)
  (bond_maturity bond_coupon_rate bond_price frequency notional
   valuation_date transaction_costs spread_tolerance : R)
  (theoretical : npfloat) (quote : pynum) (sw : R) :
  ArbitrageAnalyzer.swap_pricer a = Some par_rate ->
  frequency <> 0 ->
  BondPricer.price_fixed_coupon_bond (ArbitrageAnalyzer.bond_pricer a)
    bond_maturity bond_coupon_rate frequency notional valuation_date
  = Ok theoretical ->
  par_rate valuation_date bond_maturity frequency = Ok quote ->
  num_val quote = Fin sw ->
  let s := bond_coupon_rate * notional / bond_price - sw in
  (bond_price = 0 ->
   ArbitrageAnalyzer.analyze_asset_swap a bond_maturity bond_coupon_rate
     bond_price frequency notional valuation_date transaction_costs
     spread_tolerance = Raise ZeroDivisionError) /\
  (bond_price <> 0 ->
   exists res,
     ArbitrageAnalyzer.analyze_asset_swap a bond_maturity bond_coupon_rate
       bond_price frequency notional valuation_date transaction_costs
       spread_tolerance = Ok res /\
     ArbitrageAnalyzer.AssetSwapAnalysis.asset_swap_spread res = Fin s /\
     (bond_price = notional -> s = bond_coupon_rate - sw) /\
     (spread_tolerance + transaction_costs < s ->
      ArbitrageAnalyzer.AssetSwapAnalysis.arbitrage_opportunity res = true /\
      ArbitrageAnalyzer.AssetSwapAnalysis.strategy res
      = ArbitrageAnalyzer.buy_bond_payer_swap /\
      ArbitrageAnalyzer.AssetSwapAnalysis.estimated_profit res
      = Fin (s * notional * bond_maturity) /\
      ArbitrageAnalyzer.AssetSwapAnalysis.estimated_profit_after_costs res
      = Fin (s * notional * bond_maturity - transaction_costs * notional)) /\
     (s <= spread_tolerance + transaction_costs ->
      ArbitrageAnalyzer.AssetSwapAnalysis.arbitrage_opportunity res = false /\
      ArbitrageAnalyzer.AssetSwapAnalysis.strategy res
      = ArbitrageAnalyzer.no_significant_opportunity /\
      ArbitrageAnalyzer.AssetSwapAnalysis.estimated_profit res = Fin 0 /\
      ArbitrageAnalyzer.AssetSwapAnalysis.estimated_profit_after_costs res
      = Fin 0)).
Proof.
  intros Hsp Hfq Hprice Hpar Hsw s.
  destruct (yield_search_returns bond_price bond_maturity bond_coupon_rate
              frequency notional valuation_date 100 1e-8 Hfq) as [y Hy].
  unfold ArbitrageAnalyzer.analyze_asset_swap.
  rewrite Hsp, Hprice. cbn [bind]. rewrite Hy. cbn [bind].
  rewrite Hpar. cbn [bind]. unfold CIR.float_div.
  split.
  - intros Hb. destruct (Req_dec_T bond_price 0); [reflexivity | contradiction].
  - intros Hb. destruct (Req_dec_T bond_price 0); [contradiction |].
    cbn [bind]. rewrite Hsw. cbn [np_sub np_neg np_add np_ltb].
    change (bond_coupon_rate * notional / bond_price + - sw) with s.
    destruct (Rlt_dec (spread_tolerance + transaction_costs) s) as [Hopp | Hopp].
    + eexists. split; [reflexivity |].
      cbn [ArbitrageAnalyzer.AssetSwapAnalysis.asset_swap_spread
           ArbitrageAnalyzer.AssetSwapAnalysis.arbitrage_opportunity
           ArbitrageAnalyzer.AssetSwapAnalysis.strategy
           ArbitrageAnalyzer.AssetSwapAnalysis.estimated_profit
           ArbitrageAnalyzer.AssetSwapAnalysis.estimated_profit_after_costs
           np_mul np_sub np_neg np_add].
      split; [reflexivity |]. split.
      { intros ->. unfold s. field. exact Hb. }
      split; [| intros Hle; lra].
      intros _. repeat split.
    + eexists. split; [reflexivity |].
      cbn [ArbitrageAnalyzer.AssetSwapAnalysis.asset_swap_spread
           ArbitrageAnalyzer.AssetSwapAnalysis.arbitrage_opportunity
           ArbitrageAnalyzer.AssetSwapAnalysis.strategy
           ArbitrageAnalyzer.AssetSwapAnalysis.estimated_profit
           ArbitrageAnalyzer.AssetSwapAnalysis.estimated_profit_after_costs].
      split; [reflexivity |]. split.
      { intros ->. unfold s. field. exact Hb. }
      split; [intros Hlt; lra |].
      intros _. repeat split.
Qed.

Lemma asset_swap_signal_witness :
  ArbitrageAnalyzer.analyze_asset_swap arbitrage_analyzer_example 5 0.04 0 1
    100 5 0 0.0005 = Raise ZeroDivisionError /\
  exists res,
    ArbitrageAnalyzer.analyze_asset_swap arbitrage_analyzer_example 5 0.04 100
      1 100 5 0 0.0005 = Ok res /\
    ArbitrageAnalyzer.AssetSwapAnalysis.arbitrage_opportunity res = true.
Proof.
  assert (Hprice :
    BondPricer.price_fixed_coupon_bond
      (ArbitrageAnalyzer.bond_pricer arbitrage_analyzer_example) 5 0.04 1 100 5
    = Ok (Fin 100)).
  { unfold BondPricer.price_fixed_coupon_bond.
    destruct (Rle_dec 5 5); [reflexivity | lra]. }
  split.
  - apply (asset_swap_signal arbitrage_analyzer_example
             (fun _ _ _ => Ok (NpFloat64 (Fin 0.03))) 5 0.04 0 1 100 5 0 0.0005
             (Fin 100) (NpFloat64 (Fin 0.03)) 0.03 eq_refl ltac:(lra) Hprice
             eq_refl eq_refl).
    reflexivity.
  - destruct (asset_swap_signal arbitrage_analyzer_example
                (fun _ _ _ => Ok (NpFloat64 (Fin 0.03))) 5 0.04 100 1 100 5 0
                0.0005 (Fin 100) (NpFloat64 (Fin 0.03)) 0.03 eq_refl
                ltac:(lra) Hprice eq_refl eq_refl) as [_ Hres].
    destruct (Hres ltac:(lra)) as (res & Hrun & _ & _ & Hopp & _).
    exists res. split; [exact Hrun |]. apply Hopp. lra.
Defined.

Section OptionSignals.

Import ArbitrageAnalyzer.

(** Decides the comparisons of a signal and the equalities between the
    strategies that result. *)
Ltac settle_signals :=
  repeat match goal with
         | |- context [Rlt_dec ?x ?y] => destruct (Rlt_dec x y)
         end;
  try lra;
  cbn [andb fst snd];
  unfold buy_cap, sell_cap, no_cap_opportunity, buy_floor, sell_floor,
    no_floor_opportunity, buy_cap_sell_floor, sell_cap_buy_floor,
    no_collar_opportunity;
  repeat split; intros;
  repeat match goal with
         | H : _ \/ _ |- _ => destruct H
         | H : _ /\ _ |- _ => destruct H
         end;
  try discriminate; try reflexivity; try lra;
  try (left; split; reflexivity); try (right; split; reflexivity).

(** With a tolerance that is not negative, the three signals of
    [analyze_bond_vs_capfloor] agree: the collar is flagged exactly
    when the cap and the floor are flagged in opposite directions, and
    its strategy is then the two of them together. *)
Lemma signals_agree (avg : npfloat) (Kc Kf tol : R) :
  0 <= tol ->
  let cs := cap_signal avg Kc tol in
  let fs := floor_signal avg Kf tol in
  let ls := collar_signal avg Kc Kf (snd cs) (snd fs) in
  (snd cs = true <-> fst cs = buy_cap \/ fst cs = sell_cap) /\
  (snd fs = true <-> fst fs = buy_floor \/ fst fs = sell_floor) /\
  (snd ls = true <->
   (fst cs = buy_cap /\ fst fs = sell_floor) \/
   (fst cs = sell_cap /\ fst fs = buy_floor)) /\
  (fst cs = buy_cap -> fst fs = sell_floor -> fst ls = buy_cap_sell_floor) /\
  (fst cs = sell_cap -> fst fs = buy_floor -> fst ls = sell_cap_buy_floor) /\
  (snd ls = false -> fst ls = no_collar_opportunity).
Proof.
  intros Htol cs fs ls. subst cs fs ls.
  unfold cap_signal, floor_signal, collar_signal.
  destruct avg as [x | | |]; cbn [np_ltb]; settle_signals.
Qed.

End OptionSignals.

(** X26.  The option signals agree.  In every result that
    [analyze_bond_vs_capfloor] returns with a tolerance that is not
    negative: the floor and collar entries are there exactly when a
    floor strike was given; the collar price is the cap price less the
    floor price; and the collar is flagged exactly when the cap and the
    floor are flagged in opposite directions (buy the cap and sell the
    floor, or sell the cap and buy the floor), its strategy being then
    the two of them together. *)
Theorem option_signals_agree (a : ArbitrageAnalyzer.t)
  (bond_maturity bond_coupon_rate cap_strike : R)
  (floor_strike bond_price : option R)
  (frequency notional valuation_date : R) (volatility : option R)
  (transaction_costs spread_tolerance : R)
  (res : ArbitrageAnalyzer.CapFloorAnalysis.t) :
  0 <= spread_tolerance ->
  ArbitrageAnalyzer.analyze_bond_vs_capfloor a bond_maturity bond_coupon_rate
    cap_strike floor_strike bond_price frequency notional valuation_date
    volatility transaction_costs spread_tolerance = Ok res ->
  (ArbitrageAnalyzer.CapFloorAnalysis.with_floor res = None
   <-> floor_strike = None) /\
  (ArbitrageAnalyzer.CapFloorAnalysis.cap_arbitrage res = true <->
   ArbitrageAnalyzer.CapFloorAnalysis.cap_strategy res
   = ArbitrageAnalyzer.buy_cap \/
   ArbitrageAnalyzer.CapFloorAnalysis.cap_strategy res
   = ArbitrageAnalyzer.sell_cap) /\
  forall fe,
    ArbitrageAnalyzer.CapFloorAnalysis.with_floor res = Some fe ->
    ArbitrageAnalyzer.CapFloorAnalysis.collar_price fe
    = (ArbitrageAnalyzer.CapFloorAnalysis.cap_price res
       - ArbitrageAnalyzer.CapFloorAnalysis.floor_price fe)%np /\
    (ArbitrageAnalyzer.CapFloorAnalysis.collar_arbitrage fe = true <->
     (ArbitrageAnalyzer.CapFloorAnalysis.cap_strategy res
      = ArbitrageAnalyzer.buy_cap /\
      ArbitrageAnalyzer.CapFloorAnalysis.floor_strategy fe
      = ArbitrageAnalyzer.sell_floor) \/
     (ArbitrageAnalyzer.CapFloorAnalysis.cap_strategy res
      = ArbitrageAnalyzer.sell_cap /\
      ArbitrageAnalyzer.CapFloorAnalysis.floor_strategy fe
      = ArbitrageAnalyzer.buy_floor)) /\
    (ArbitrageAnalyzer.CapFloorAnalysis.cap_strategy res
     = ArbitrageAnalyzer.buy_cap ->
     ArbitrageAnalyzer.CapFloorAnalysis.floor_strategy fe
     = ArbitrageAnalyzer.sell_floor ->
     ArbitrageAnalyzer.CapFloorAnalysis.collar_strategy fe
     = ArbitrageAnalyzer.buy_cap_sell_floor) /\
    (ArbitrageAnalyzer.CapFloorAnalysis.cap_strategy res
     = ArbitrageAnalyzer.sell_cap ->
     ArbitrageAnalyzer.CapFloorAnalysis.floor_strategy fe
     = ArbitrageAnalyzer.buy_floor ->
     ArbitrageAnalyzer.CapFloorAnalysis.collar_strategy fe
     = ArbitrageAnalyzer.sell_cap_buy_floor) /\
    (ArbitrageAnalyzer.CapFloorAnalysis.collar_arbitrage fe = false ->
     ArbitrageAnalyzer.CapFloorAnalysis.collar_strategy fe
     = ArbitrageAnalyzer.no_collar_opportunity).
Proof.
  intros Htol Hrun. unfold ArbitrageAnalyzer.analyze_bond_vs_capfloor in Hrun.
  destruct (ArbitrageAnalyzer.option_pricer a) as [pm |]; [| discriminate].
  bind_step Hrun theo Etheo. bind_step Hrun y Ey. bind_step Hrun dates Edates.
  bind_step Hrun fwds Efwds. bind_step Hrun cp Ecp.
  set (avg := ArbitrageAnalyzer.average_forward_rate
                (ArbitrageAnalyzer.rate_model_of a) fwds) in Hrun.
  destruct floor_strike as [Kf |].
  - pose proof (signals_agree avg cap_strike Kf spread_tolerance Htol) as Hs.
    cbn zeta in Hs.
    destruct (ArbitrageAnalyzer.cap_signal avg cap_strike spread_tolerance)
      as [cs ca].
    bind_step Hrun fp Efp.
    destruct (ArbitrageAnalyzer.floor_signal avg Kf spread_tolerance)
      as [fs fa].
    cbn [fst snd] in Hs.
    destruct (ArbitrageAnalyzer.collar_signal avg cap_strike Kf ca fa)
      as [ls la].
    cbn [fst snd] in Hs. injection Hrun as <-.
    cbn [ArbitrageAnalyzer.CapFloorAnalysis.with_floor
         ArbitrageAnalyzer.CapFloorAnalysis.cap_arbitrage
         ArbitrageAnalyzer.CapFloorAnalysis.cap_strategy
         ArbitrageAnalyzer.CapFloorAnalysis.cap_price].
    destruct Hs as (Hc & _ & Hl & Hb & Hsl & Hn).
    split; [split; discriminate |]. split; [exact Hc |].
    intros fe E. injection E as <-.
    cbn [ArbitrageAnalyzer.CapFloorAnalysis.collar_price
         ArbitrageAnalyzer.CapFloorAnalysis.floor_price
         ArbitrageAnalyzer.CapFloorAnalysis.floor_strategy
         ArbitrageAnalyzer.CapFloorAnalysis.collar_strategy
         ArbitrageAnalyzer.CapFloorAnalysis.collar_arbitrage].
    repeat split; try assumption; apply Hl.
  - pose proof (signals_agree avg cap_strike 0 spread_tolerance Htol) as Hs.
    cbn zeta in Hs.
    destruct (ArbitrageAnalyzer.cap_signal avg cap_strike spread_tolerance)
      as [cs ca].
    cbn [fst snd] in Hs. injection Hrun as <-.
    cbn [ArbitrageAnalyzer.CapFloorAnalysis.with_floor
         ArbitrageAnalyzer.CapFloorAnalysis.cap_arbitrage
         ArbitrageAnalyzer.CapFloorAnalysis.cap_strategy].
    destruct Hs as (Hc & _).
    split; [split; reflexivity |]. split; [exact Hc |].
    intros fe E. discriminate E.
Qed.

(** On a flat curve every cap and floor with a non-zero frequency and a
    non-zero strike is priced, and every forward rate is collected. *)
Lemma flat_curve_options_return r v s e k fq N vol :
  fq <> 0 -> k <> 0 ->
  returns (CapFloorPricer.price_cap (flat_curve r) v s e (PyFloat (Fin k)) fq
             N vol) /\
  returns (CapFloorPricer.price_floor (flat_curve r) v s e (PyFloat (Fin k))
             fq N vol).
Proof.
  intros Hfq Hk.
  unfold CapFloorPricer.price_cap, CapFloorPricer.price_floor.
  destruct (np_arange_returns (s + fq) (e + eps) fq Hfq) as [dates ->].
  cbn [bind].
  assert (H : forall fs acc acc',
    returns (CapFloorPricer.price_cap_loop (flat_curve r) v (PyFloat (Fin k))
               fq N vol fs dates acc) /\
    returns (CapFloorPricer.price_floor_loop (flat_curve r) v
               (PyFloat (Fin k)) fq N vol fs dates acc'));
    [| apply H].
  induction dates as [| d rest IH]; intros fs acc acc'.
  - split; eexists; reflexivity.
  - cbn [CapFloorPricer.price_cap_loop CapFloorPricer.price_floor_loop
         flat_curve rm_forward_rate rm_zero_coupon_bond_price rm_r0 bind].
    destruct (black_formulas_return (NpFloat64 (Fin r)) (PyFloat (Fin k)) r k
                (py_max 0 (fs - v)) (CapFloorPricer.vol_or_default vol)
                (np_exp (- Fin r * Fin (d - v))%np) (Fin 0) N fq true
                eq_refl eq_refl Hk) as ([c ->] & [f ->] & _).
    cbn [bind]. apply IH.
Qed.

Lemma flat_curve_forward_rates_return r v fq dates :
  forall acc,
    returns (ArbitrageAnalyzer.collect_forward_rates (flat_curve r) v fq dates
               acc).
Proof.
  induction dates as [| d rest IH]; intros acc;
    cbn [ArbitrageAnalyzer.collect_forward_rates].
  - eexists; reflexivity.
  - destruct (Rge_dec (d - fq) v); [| apply IH].
    cbn [flat_curve rm_forward_rate bind]. apply IH.
Qed.

Lemma option_signals_agree_witness :
  exists res,
    ArbitrageAnalyzer.analyze_bond_vs_capfloor arbitrage_analyzer_example 1
      0.04 0.04 (Some 0.03) None 1 100 0 (Some 0.015) 0 0.0005 = Ok res /\
    (ArbitrageAnalyzer.CapFloorAnalysis.with_floor res = None
     <-> Some 0.03 = @None R).
Proof.
  assert (Hrun : returns
            (ArbitrageAnalyzer.analyze_bond_vs_capfloor
               arbitrage_analyzer_example 1 0.04 0.04 (Some 0.03) None 1 100 0
               (Some 0.015) 0 0.0005)).
  { unfold ArbitrageAnalyzer.analyze_bond_vs_capfloor,
      arbitrage_analyzer_example, ArbitrageAnalyzer.rate_model_of.
    cbn [ArbitrageAnalyzer.option_pricer ArbitrageAnalyzer.bond_pricer].
    destruct (price_fixed_coupon_bond_pos bond_pricer_example 0) with
      (M := 1) (c := 0.04) (fq := 1) (N := 100) as (P & -> & _); try lra.
    { intros T _. cbn. eexists. split; [reflexivity | apply exp_pos]. }
    cbn [bind ArbitrageAnalyzer.observed_or_theoretical].
    rewrite calculate_yield_to_maturity_np_fin.
    destruct (yield_search_in_bracket P 1 0.04 1 100 0 100 1e-8)
      as (y & -> & _); try lra.
    cbn [bind].
    destruct (np_arange_returns (0 + 1) (1 + eps) 1) as [dates ->]; [lra |].
    cbn [bind bond_pricer_example BondPricer.rate_model_of].
    destruct (flat_curve_forward_rates_return 0.05 0 1 dates []) as [fw ->].
    cbn [bind].
    destruct (flat_curve_options_return 0.05 0 0 1 0.04 1 100 (Some 0.015))
      as ([cp ->] & _); try lra.
    destruct (flat_curve_options_return 0.05 0 0 1 0.03 1 100 (Some 0.015))
      as (_ & [fp ->]); try lra.
    cbn [bind].
    destruct (ArbitrageAnalyzer.cap_signal _ _ _) as [cs ca].
    cbn [bind].
    destruct (ArbitrageAnalyzer.floor_signal _ _ _) as [fs fa].
    destruct (ArbitrageAnalyzer.collar_signal _ _ _ _ _) as [ls la].
    eexists; reflexivity. }
  destruct Hrun as [res Hrun]. exists res. split; [exact Hrun |].
  apply (option_signals_agree arbitrage_analyzer_example 1 0.04 0.04
           (Some 0.03) None 1 100 0 (Some 0.015) 0 0.0005 res ltac:(lra) Hrun).
Defined.
